(** * smallbot: the agent turn loop and the streaming renderer

    A shallow embedding of [runAgent] (agent.ts) and of the delivery code of
    [handleMessage] (index.ts), with the properties of the design document
    stated and proved over it.

    Conventions.
    - A JavaScript string is the list of its UTF-16 code units, so that
      [length] is [.length] and [slice] cuts where the source cuts.
    - Arrays that the source mutates in place live in a store of locations;
      [push] writes through a location, [spread] allocates a copy.
    - Everything outside the process (model provider, tools, clock) acts on an
      abstract [World]. The loop hands the provider and the tools values,
      never the locations of its arrays, so the store is out of their reach.
    - The Telegram transport settles each call with an answer that is an
      input of the model, as are the readings of the clock in the renderer.
    - The transport, the provider and the validator of the library fail with
      Error objects. A tool comes from outside the repository: its promise
      may be rejected with any value, [undefined] and [null] included.
    - A text file holds bytes; strings are written to it and read from it
      as UTF-8.
    - Loggers only write to the process log. The agent's log lines are left
      out; the renderer's warnings are kept because the design speaks of
      them. *)

From stdpp Require Import gmap list strings.
From Stdlib Require Import ZArith Lia.
From Stdlib Require Strings.Byte.

Set Default Proof Using "Type".

Local Open Scope Z_scope.

(** ** JavaScript values *)

Abbreviation jsstring := (list N).

(** The code units of an ASCII literal. *)
Definition js (s : string) : jsstring :=
  map Ascii.N_of_ascii (String.list_ascii_of_string s).

(** [s.slice(i, j)] for [0 <= i <= j]. *)
Definition slice (s : jsstring) (i j : nat) : jsstring :=
  take (j - i) (drop i s).

(** [s.slice(-k)] for [k > 0]: the last [k] code units (all of [s] when it is
    shorter). *)
Definition slice_last (s : jsstring) (k : nat) : jsstring :=
  drop (length s - k) s.

Fixpoint startsWith (needle hay : jsstring) : bool :=
  match needle, hay with
  | [], _ => true
  | _ :: _, [] => false
  | a :: needle', b :: hay' => N.eqb a b && startsWith needle' hay'
  end.

(** [hay.includes(needle)]. *)
Fixpoint includes (needle hay : jsstring) : bool :=
  startsWith needle hay ||
  match hay with
  | [] => false
  | _ :: hay' => includes needle hay'
  end.

(** A thrown value, seen through its [message] property. *)
Record Exn := { message : option jsstring }.

(** How an awaited promise settles. *)
Inductive Settled (A : Type) :=
| Resolved (a : A)
| Rejected (e : Exn).
Arguments Resolved {A} a.
Arguments Rejected {A} e.

(** [`${e.message}`]. *)
Definition interpolate (o : option jsstring) : jsstring :=
  default (js "undefined") o.

(** What a tool, code from outside the repository, may throw or reject its
    promise with: [undefined] or [null], which have no properties, or any
    other value, seen through its [message] property. *)
Inductive Thrown :=
| ThrownUndefined
| ThrownNull
| ThrownValue (e : Exn).

(** How the awaited promise of a tool settles. *)
Inductive Awaited (A : Type) :=
| Fulfilled (a : A)
| RejectedWith (v : Thrown).
Arguments Fulfilled {A} a.
Arguments RejectedWith {A} v.

(** [err.message] for a caught [err]: the property, or the TypeError that
    reading a property of [undefined] or [null] throws. *)
Definition messageOf (err : Thrown) : option jsstring + Exn :=
  match err with
  | ThrownUndefined =>
      inr {| message :=
               Some (js "Cannot read properties of undefined (reading 'message')") |}
  | ThrownNull =>
      inr {| message := Some (js "Cannot read properties of null (reading 'message')") |}
  | ThrownValue e => inl (message e)
  end.

#[local] Set Warnings "-register-all".

Inductive Json :=
| JNull
| JBool (b : bool)
| JNumber (z : Z)
| JString (s : jsstring)
| JArray (items : list Json)
| JObject (fields : list (jsstring * Json)).

(** ** Messages (pi-ai) *)

Inductive Content :=
| TextContent (text : jsstring)
| ImageContent (data mimeType : jsstring).

Record ToolCall := {
  tc_id : jsstring;
  tc_name : jsstring;
  tc_arguments : Json
}.

Inductive AssistantPart :=
| AText (text : jsstring)
| AThinking (thinking : jsstring)
| AToolCall (call : ToolCall).

Record AssistantMessage := {
  am_content : list AssistantPart;
  am_provider : jsstring;
  am_model : jsstring;
  am_stopReason : jsstring;
  am_timestamp : Z
}.

Inductive UserContent :=
| UString (text : jsstring)
| UParts (parts : list Content).

Record ToolResultMessage := {
  toolCallId : jsstring;
  toolName : jsstring;
  tr_content : list Content;
  isError : bool;
  tr_timestamp : Z
}.

Inductive Message :=
| User (content : UserContent) (timestamp : Z)
| Assistant (a : AssistantMessage)
| ToolResult (r : ToolResultMessage).

(** What the provider streams during one generation. Only [text_delta] and
    [toolcall_end] are looked at by the loop. *)
Inductive AssistantMessageEvent :=
| text_delta (delta : jsstring)
| toolcall_end (toolCall : ToolCall)
| other_event (type : jsstring).

Record Tool := {
  t_name : jsstring;
  t_description : jsstring;
  t_parameters : Json
}.

Record ModelInfo := { provider : jsstring; modelId : jsstring }.

(** ** The store of message arrays *)

Abbreviation loc := positive.
Abbreviation Store := (gmap loc (list Message)).

(** ** agent.ts: types *)

Record AgentToolResult := { content : list Content; details : Json }.

Record AgentTool (World : Type) := {
  name : jsstring;
  description : jsstring;
  parameters : Json;
  label : jsstring;
  execute : jsstring -> Json -> World -> Awaited AgentToolResult * World
}.
Arguments name {World} _.
Arguments description {World} _.
Arguments parameters {World} _.
Arguments label {World} _.
Arguments execute {World} _ _ _ _.

(** [stream(model, context)] iterated to its end, followed by [s.result()]:
    the events in arrival order and the finalized assistant message, or the
    error that ends the iteration. *)
Inductive Generation :=
| Completed (events : list AssistantMessageEvent) (result : AssistantMessage)
| Failed (e : Exn).

Record Context := {
  systemPrompt : jsstring;
  messages : loc;
  tools : list Tool
}.

Record Machine (World : Type) := { heap : Store; world : World }.
Arguments heap {World} _.
Arguments world {World} _.

Inductive TurnResult (World : Type) :=
| Return (text : jsstring) (m : Machine World)
| Throw (e : Exn) (m : Machine World)
| Again (m : Machine World).
Arguments Return {World} text m.
Arguments Throw {World} e m.
Arguments Again {World} m.

Inductive Outcome (World : Type) :=
| Returned (text : jsstring) (m : Machine World)
| Threw (e : Exn) (m : Machine World)
| Running (m : Machine World).
Arguments Returned {World} text m.
Arguments Threw {World} e m.
Arguments Running {World} m.

Definition machineOf {World : Type} (o : Outcome World) : Machine World :=
  match o with
  | Returned _ m => m
  | Threw _ m => m
  | Running m => m
  end.

(** How the body of the tool loop completes: it goes on to the next call, or
    a value thrown inside it leaves the loop. *)
Inductive ToolStep (World : Type) :=
| Continue (m : Machine World)
| Raise (e : Exn) (m : Machine World).
Arguments Continue {World} m.
Arguments Raise {World} e m.

Definition stepMachine {World : Type} (s : ToolStep World) : Machine World :=
  match s with
  | Continue m => m
  | Raise _ m => m
  end.

(** ** index.ts: the streaming renderer *)

(** Modelled from the spec: the [StreamEvent] type exported by agent.ts, whose
    declaration is not part of the sources. The design document gives it as
    the union of text-delta, tool-start, tool-end and turn-done; the fields
    are the ones [handleMessage] reads ([accumulated], [name], [fullText]). *)
Inductive StreamEvent :=
| TextDelta (accumulated : jsstring)
| ToolStart (name : jsstring)
| ToolEnd
| Done (fullText : jsstring).

(** Calls made on the Telegram transport. *)
Inductive ApiCall :=
| Reply (text : jsstring)
| EditMessageText (chatId messageId : Z) (text : jsstring)
| DeleteMessage (chatId messageId : Z).

Definition THROTTLE_MS : Z := 500.
Definition MIN_CHARS_CHANGE : Z := 20.

Definition nl : jsstring := [10%N].

(** The own properties of the [toolEmojis] object literal. *)
Definition toolEmojis : gmap jsstring jsstring :=
  list_to_map
    [ (js "web_search", [55357; 56589]%N);
      (js "fetch_url", [55356; 57104]%N);
      (js "bash", [9881; 65039]%N);
      (js "read", [55357; 56534]%N);
      (js "write", [9999; 65039]%N);
      (js "edit", [9999; 65039]%N);
      (js "save_memory", [55357; 56510]%N);
      (js "recall_memories", [55358; 56800]%N);
      (js "create_cron", [9200]%N);
      (js "default", [55357; 56615]%N) ].

(** The variables of the streaming block, the transport calls issued so far
    (oldest first), the text the transport holds for the live message, and
    the warnings written to the log. *)
Record Renderer := {
  lastEditTime : Z;
  lastEditedText : jsstring;
  fullText : jsstring;
  currentToolIndicator : jsstring;
  calls : list ApiCall;
  shown : jsstring;
  warnings : list jsstring
}.

Definition issue (c : ApiCall) (r : Renderer) : Renderer :=
  {| lastEditTime := lastEditTime r; lastEditedText := lastEditedText r;
     fullText := fullText r; currentToolIndicator := currentToolIndicator r;
     calls := calls r ++ [c]; shown := shown r; warnings := warnings r |}.

Definition show (text : jsstring) (r : Renderer) : Renderer :=
  {| lastEditTime := lastEditTime r; lastEditedText := lastEditedText r;
     fullText := fullText r; currentToolIndicator := currentToolIndicator r;
     calls := calls r; shown := text; warnings := warnings r |}.

Definition warn (line : jsstring) (r : Renderer) : Renderer :=
  {| lastEditTime := lastEditTime r; lastEditedText := lastEditedText r;
     fullText := fullText r; currentToolIndicator := currentToolIndicator r;
     calls := calls r; shown := shown r; warnings := warnings r ++ [line] |}.

Definition setLastEdit (now : Z) (text : jsstring) (r : Renderer) : Renderer :=
  {| lastEditTime := now; lastEditedText := text;
     fullText := fullText r; currentToolIndicator := currentToolIndicator r;
     calls := calls r; shown := shown r; warnings := warnings r |}.

Definition setFullText (text : jsstring) (r : Renderer) : Renderer :=
  {| lastEditTime := lastEditTime r; lastEditedText := lastEditedText r;
     fullText := text; currentToolIndicator := currentToolIndicator r;
     calls := calls r; shown := shown r; warnings := warnings r |}.

Definition setToolIndicator (text : jsstring) (r : Renderer) : Renderer :=
  {| lastEditTime := lastEditTime r; lastEditedText := lastEditedText r;
     fullText := fullText r; currentToolIndicator := text;
     calls := calls r; shown := shown r; warnings := warnings r |}.

(** How a statement completes: normally, or by a thrown value that travels up
    to the nearest [catch]. The renderer's variables survive both. *)
Inductive Completion :=
| Normal (r : Renderer)
| Abrupt (e : Exn) (r : Renderer).

Definition stateOf (c : Completion) : Renderer :=
  match c with
  | Normal r => r
  | Abrupt _ r => r
  end.

Definition andThen (c : Completion) (k : Renderer -> Completion) : Completion :=
  match c with
  | Normal r => k r
  | Abrupt e r => Abrupt e r
  end.

Definition tryCatch (c : Completion) (handler : Exn -> Renderer -> Completion) : Completion :=
  match c with
  | Normal r => Normal r
  | Abrupt e r => handler e r
  end.

(** [await ctx.api.editMessageText(chatId, messageId, text)]: when the
    transport accepts the edit, the live message holds [text]. *)
Definition api_editMessageText (chatId messageId : Z) (text : jsstring)
    (answer : Settled unit) (r : Renderer) : Completion :=
  let r1 := issue (EditMessageText chatId messageId text) r in
  match answer with
  | Resolved _ => Normal (show text r1)
  | Rejected e => Abrupt e r1
  end.

(** [await ctx.api.deleteMessage(chatId, messageId)] *)
Definition api_deleteMessage (chatId messageId : Z)
    (answer : Settled unit) (r : Renderer) : Completion :=
  let r1 := issue (DeleteMessage chatId messageId) r in
  match answer with
  | Resolved _ => Normal r1
  | Rejected e => Abrupt e r1
  end.

(** [await ctx.reply(text)]; the transport answers with the new message's id. *)
Definition ctx_reply (text : jsstring) (answer : Settled Z) (r : Renderer) : Completion :=
  let r1 := issue (Reply text) r in
  match answer with
  | Resolved _ => Normal r1
  | Rejected e => Abrupt e r1
  end.

Definition len (s : jsstring) : Z := Z.of_nat (length s).

(** [newText.length > 4000 ? newText.slice(-4000) + "\n\n[...truncated]" : newText] *)
Definition displayText (newText : jsstring) : jsstring :=
  if 4000 <? len newText
  then slice_last newText 4000 ++ nl ++ nl ++ js "[...truncated]"
  else newText.

(** [s || "..."] *)
Definition orDots (s : jsstring) : jsstring :=
  match s with
  | [] => js "..."
  | _ => s
  end.

(** [e.message?.includes("not modified")], as tested by [if (!...)]. *)
Definition notModified (e : Exn) : bool :=
  match message e with
  | Some text => includes (js "not modified") text
  | None => false
  end.

(** [editMessage(newText, force)]. [now] is the value of [Date.now()] at the
    call and [answer] is what the transport does with the edit, should the
    edit be issued. *)
Definition editMessage (chatId messageId : Z) (now : Z) (answer : Settled unit)
    (newText : jsstring) (force : bool) (r : Renderer) : Completion :=
  let textChanged := negb (bool_decide (newText = lastEditedText r)) in
  let significantChange := MIN_CHARS_CHANGE <=? len newText - len (lastEditedText r) in
  let throttleOk := THROTTLE_MS <=? now - lastEditTime r in
  if textChanged && (force || (throttleOk && significantChange)) then
    tryCatch
      (andThen
         (api_editMessageText chatId messageId (orDots (displayText newText)) answer r)
         (fun r1 => Normal (setLastEdit now newText r1)))
      (fun e r1 =>
         if negb (notModified e)
         then Normal (warn (js "Edit failed: " ++ interpolate (message e)) r1)
         else Normal r1)
  else Normal r.

(** One event as it reaches the renderer, with the clock reading and the
    transport's answer that handling it may consume. *)
Record Arrival := {
  event : StreamEvent;
  now : Z;
  answer : Settled unit
}.

(** The methods an object literal inherits from [Object.prototype]. *)
Definition inheritedMethods : list jsstring :=
  map js [ "__defineGetter__"; "__defineSetter__"; "hasOwnProperty";
           "__lookupGetter__"; "__lookupSetter__"; "isPrototypeOf";
           "propertyIsEnumerable"; "toString"; "valueOf"; "toLocaleString" ]%string.

(** [`${toolEmojis[name]}`] where [toolEmojis[name]] is not [undefined]. The
    lookup finds the own properties and, through the prototype chain, those
    of [Object.prototype]: its [constructor], which is [Object]; the object
    itself under [__proto__]; and its methods, which V8 prints as native
    functions. All of them are truthy. *)
Definition toolEmojiText (name : jsstring) : option jsstring :=
  match toolEmojis !! name with
  | Some emoji => Some emoji
  | None =>
      if decide (name = js "constructor")
      then Some (js "function Object() { [native code] }")
      else if decide (name = js "__proto__") then Some (js "[object Object]")
      else if decide (name ∈ inheritedMethods)
      then Some (js "function " ++ name ++ js "() { [native code] }")
      else None
  end.

(** [`\n\n${emoji} _${event.name}_...`] with
    [emoji = toolEmojis[event.name] || toolEmojis.default]. *)
Definition toolIndicator (name : jsstring) : jsstring :=
  let emoji := default (toolEmojis !!! js "default") (toolEmojiText name) in
  nl ++ nl ++ emoji ++ js " _" ++ name ++ js "_...".

(** The body of [for await (const event of streamGen)]. *)
Definition onStreamEvent (chatId messageId : Z) (a : Arrival) (r : Renderer) : Completion :=
  match event a with
  | TextDelta accumulated =>
      let r1 := setFullText accumulated r in
      editMessage chatId messageId (now a) (answer a)
        (fullText r1 ++ currentToolIndicator r1) false r1
  | ToolStart name =>
      let r1 := setToolIndicator (toolIndicator name) r in
      editMessage chatId messageId (now a) (answer a)
        (fullText r1 ++ currentToolIndicator r1) true r1
  | ToolEnd =>
      let r1 := setToolIndicator [] r in
      match fullText r1 with
      | [] => Normal r1
      | _ => editMessage chatId messageId (now a) (answer a) (fullText r1) true r1
      end
  | Done text => Normal (setFullText text r)
  end.

Fixpoint onStreamEvents (chatId messageId : Z) (arrivals : list Arrival) (r : Renderer)
  : Completion :=
  match arrivals with
  | [] => Normal r
  | a :: rest =>
      andThen (onStreamEvent chatId messageId a r) (onStreamEvents chatId messageId rest)
  end.

(** [for (let i = 0; i < text.length; i += 4096) await ctx.reply(text.slice(i, i + 4096))],
    entered at [i]. [answers i] is the transport's answer to the reply issued
    at offset [i]. The loop makes at most [length text] passes, so that much
    [fuel] never runs out. *)
Fixpoint sendChunks (fuel : nat) (text : jsstring) (answers : nat -> Settled Z)
    (i : nat) (r : Renderer) : Completion :=
  match fuel with
  | O => Normal r
  | S fuel' =>
      if (i <? length text)%nat then
        andThen (ctx_reply (slice text i (i + 4096)) (answers i) r)
                (sendChunks fuel' text answers (i + 4096)%nat)
      else Normal r
  end.

(** What the environment does during one streamed request. *)
Record Request := {
  chatId : Z;
  placeholder : Settled Z;
  arrivals : list Arrival;
  generatorError : option Exn;
  finalNow : Z;
  finalAnswer : Settled unit;
  deleteAnswer : Settled unit;
  chunkAnswers : nat -> Settled Z
}.

Definition initial : Renderer :=
  {| lastEditTime := 0; lastEditedText := []; fullText := [];
     currentToolIndicator := []; calls := []; shown := []; warnings := [] |}.

(** [await editMessage(fullText, true)] after the event loop. *)
Definition finalEdit (q : Request) (messageId : Z) (r : Renderer) : Completion :=
  editMessage (chatId q) messageId (finalNow q) (finalAnswer q) (fullText r) true r.

(** [if (fullText.length > 4096) { try { delete } catch {}; for ... reply }] *)
Definition overflowDelivery (chat messageId : Z) (deleted : Settled unit)
    (answers : nat -> Settled Z) (r : Renderer) : Completion :=
  if (4096 <? length (fullText r))%nat then
    andThen
      (tryCatch (api_deleteMessage chat messageId deleted r) (fun _ r1 => Normal r1))
      (sendChunks (length (fullText r)) (fullText r) answers 0)
  else Normal r.

(** The statements after the event loop: the final edit, then the overflow
    delivery. *)
Definition finish (q : Request) (messageId : Z) (r : Renderer) : Completion :=
  andThen (finalEdit q messageId r)
    (overflowDelivery (chatId q) messageId (deleteAnswer q) (chunkAnswers q)).

(** The streaming branch of [handleMessage], from the placeholder to the
    value of [response] (the [fullText] of the final state). *)
Definition streamingMode (q : Request) : Completion :=
  match placeholder q with
  | Rejected e => Abrupt e (issue (Reply (js "...")) initial)
  | Resolved messageId =>
      let r0 := show (js "...") (issue (Reply (js "...")) initial) in
      andThen (onStreamEvents (chatId q) messageId (arrivals q) r0)
        (fun r1 =>
           match generatorError q with
           | Some e => Abrupt e r1
           | None => finish q messageId r1
           end)
  end.

(** The delivery of the non-streaming branch, after [runAgent] has returned
    [response]. *)
Definition nonStreamingDelivery (response : jsstring) (answers : nat -> Settled Z)
    (r : Renderer) : Completion :=
  if (length response <=? 4096)%nat then ctx_reply response (answers 0%nat) r
  else sendChunks (length response) response answers 0 r.

(** *** Vocabulary of the properties *)

(** The texts of the replies a run of the chunk loop asks for, from offset
    [i] on. *)
Fixpoint chunkTexts (fuel : nat) (text : jsstring) (i : nat) : list jsstring :=
  match fuel with
  | O => []
  | S fuel' =>
      if (i <? length text)%nat
      then slice text i (i + 4096) :: chunkTexts fuel' text (i + 4096)
      else []
  end.

(** The value of [fullText] once the events have been handled. *)
Definition textAfter (arrivals : list Arrival) (text : jsstring) : jsstring :=
  foldl (fun t a => match event a with
                    | TextDelta accumulated => accumulated
                    | Done final => final
                    | _ => t
                    end) text arrivals.

(** The condition under which [editMessage] goes to the transport. *)
Definition editsWhen (now : Z) (newText : jsstring) (force : bool) (r : Renderer) : bool :=
  negb (bool_decide (newText = lastEditedText r)) &&
  (force || ((THROTTLE_MS <=? now - lastEditTime r) &&
             (MIN_CHARS_CHANGE <=? len newText - len (lastEditedText r)))).

(** The live message holds what was last rendered with success. *)
Definition consistent (r : Renderer) : Prop :=
  shown r = orDots (displayText (lastEditedText r)).

(** The renderer once the placeholder has been sent and accepted. *)
Definition afterPlaceholder : Renderer :=
  show (js "...") (issue (Reply (js "...")) initial).

(** All replies are accepted by the transport. *)
Definition allAccepted (answers : nat -> Settled Z) : Prop :=
  forall i, exists id, answers i = Resolved id.

(** ** sessions.ts *)

(** A session object. [messages] is a reference to the history array, which
    lives in the store; the object itself is kept in the [sessions] map. *)
Record Session := { s_messages : loc; lastActivity : Z }.

Definition SESSION_TIMEOUT : Z := 30 * 60 * 1000.

Definition touch (now : Z) (s : Session) : Session :=
  {| s_messages := s_messages s; lastActivity := now |}.

(** [getSession(userId)]. [now] is the clock reading of the last statement;
    the reading taken when a session is created is overwritten by it. *)
Definition getSession (userId now : Z) (ss : gmap Z Session) (h : Store)
  : Session * gmap Z Session * Store :=
  match ss !! userId with
  | Some session => (touch now session, <[userId := touch now session]> ss, h)
  | None =>
      let session := {| s_messages := fresh (dom h); lastActivity := now |} in
      (session, <[userId := session]> ss, <[fresh (dom h) := []]> h)
  end.

(** [addMessage(userId, message)], with the two clock readings it takes. *)
Definition addMessage (userId : Z) (message : Message) (now1 now2 : Z)
    (ss : gmap Z Session) (h : Store) : gmap Z Session * Store :=
  let '(session, ss1, h1) := getSession userId now1 ss h in
  (<[userId := touch now2 session]> ss1,
   <[s_messages session := (h1 !!! s_messages session) ++ [message]]> h1).

(** The body of the cleanup timer: [for (const [userId, session] of sessions)
    if (now - session.lastActivity > SESSION_TIMEOUT) sessions.delete(userId)]. *)
Definition sweep (now : Z) (ss : gmap Z Session) : gmap Z Session :=
  foldl (fun acc entry =>
           if SESSION_TIMEOUT <? now - lastActivity entry.2
           then delete entry.1 acc else acc)
        ss (map_to_list ss).

(** The hook registered with [onBeforeClear]: code of the caller's, free to
    act on the sessions, the store and the world, and free to fail. *)
Definition PreClearHook (World : Type) : Type :=
  Z -> Session -> gmap Z Session * Machine World ->
  Settled unit * (gmap Z Session * Machine World).

(** [clearSession(userId)] of the version with a pre-clear hook; without a
    hook it is the plain [sessions.delete(userId)] of the other version. *)
Definition clearSession {World : Type} (preClearHook : option (PreClearHook World))
    (userId : Z) (st : gmap Z Session * Machine World)
  : gmap Z Session * Machine World :=
  let st1 :=
    match st.1 !! userId, preClearHook with
    | Some session, Some hook =>
        if (0 <? length (heap st.2 !!! s_messages session))%nat
        then (hook userId session st).2
        else st
    | _, _ => st
    end in
  (delete userId st1.1, st1.2).

(** No two sessions share a history array, and every history is allocated. *)
Definition separate (ss : gmap Z Session) (h : Store) : Prop :=
  (forall u s, ss !! u = Some s -> s_messages s ∈ dom h) /\
  (forall u1 u2 s1 s2,
     ss !! u1 = Some s1 -> ss !! u2 = Some s2 ->
     s_messages s1 = s_messages s2 -> u1 = u2).

(** The history of a user as the sessions and the store have it. *)
Definition historyOf (userId : Z) (ss : gmap Z Session) (h : Store) : list Message :=
  match ss !! userId with
  | Some session => h !!! s_messages session
  | None => []
  end.

(** ** index.ts: the content of the user message *)

Record Attachment := {
  fileId : jsstring;
  att_mimeType : option jsstring;
  fileName : option jsstring
}.

(** What [downloadTelegramFile] resolves to. *)
Record Download := { dl_data : jsstring; dl_mimeType : jsstring }.

(** [o || d] for a string that may be undefined. *)
Definition orElse (o : option jsstring) (d : jsstring) : jsstring :=
  match o with
  | Some (c :: s) => c :: s
  | _ => d
  end.

Definition quote : jsstring := [34%N].

(** The part pushed for one attachment: the image when the download
    resolved, a note for the model when it was rejected. *)
Definition attachmentPart (att : Attachment) (got : Settled Download) : Content :=
  match got with
  | Resolved d => ImageContent (dl_data d) (orElse (att_mimeType att) (dl_mimeType d))
  | Rejected err =>
      let isTooBig :=
        match message err with
        | Some text => includes (js "file is too big") text
        | None => false
        end in
      let name := orElse (fileName att) (js "the file") in
      if isTooBig then
        TextContent
          (js "[The user attached " ++ quote ++ name ++ quote ++ js " (" ++
           orElse (att_mimeType att) (js "unknown type") ++
           js ") but it exceeds Telegram's 20MB bot download limit. " ++
           js "Suggest they share a link/URL to the file instead " ++ [8212%N] ++
           js " you can use the fetch_url tool to retrieve it.]")
      else
        TextContent
          (js "[Failed to load attachment " ++ quote ++ name ++ quote ++ js ": " ++
           interpolate (message err) ++ js "]")
  end.

(** The statements of [handleMessage] that build [content]; each attachment
    comes with what downloading it gives. *)
Definition buildContent (text : option jsstring)
    (attachments : list (Attachment * Settled Download)) : UserContent :=
  match attachments with
  | [] => UString (orElse text [])
  | _ :: _ =>
      let parts0 := match text with
                    | Some (c :: s) => [TextContent (c :: s)]
                    | _ => []
                    end in
      let parts1 := foldl (fun parts a => parts ++ [attachmentPart a.1 a.2])
                          parts0 attachments in
      match parts1 with
      | [] => UParts [TextContent (orElse text [])]
      | _ :: _ => UParts parts1
      end
  end.

(** A transport call that Telegram's size rules admit: a text of 1 to 4096
    code units. *)
Definition withinLimits (c : ApiCall) : Prop :=
  match c with
  | Reply text | EditMessageText _ _ text => (1 <= length text <= 4096)%nat
  | DeleteMessage _ _ => True
  end.

(** ** cron.ts: the cron tools *)

Record CronJob := {
  cj_id : jsstring;
  cj_schedule : jsstring;
  cj_prompt : jsstring;
  cj_chatId : Z;
  cj_enabled : bool
}.

(** The module's [jobs] array and [scheduledTasks] map, the content of
    crons.json as last written, and the scheduler: a task is a handle, taken
    new by [cron.schedule] and marked by [task.stop()]. Writing the file is
    taken to succeed. *)
Record Crons := {
  jobs : list CronJob;
  scheduledTasks : gmap jsstring nat;
  cronsFile : list CronJob;
  started : gset nat;
  stopped : gset nat
}.

(** [saveJobs()] *)
Definition saveJobs (c : Crons) : Crons :=
  {| jobs := jobs c; scheduledTasks := scheduledTasks c; cronsFile := jobs c;
     started := started c; stopped := stopped c |}.

(** [scheduleJob(job, ...)]: a new task, remembered under the job's id. *)
Definition scheduleJob (job : CronJob) (c : Crons) : Crons :=
  let task := fresh (started c) in
  {| jobs := jobs c; scheduledTasks := <[cj_id job := task]> (scheduledTasks c);
     cronsFile := cronsFile c;
     started := {[task]} ∪ started c; stopped := stopped c |}.

(** [execute] of [create_cron]. [validate] is [cron.validate] and [newId]
    the id drawn from [Math.random()]. *)
Definition create_cron (validate : jsstring -> bool) (chat : Z)
    (schedule prompt newId : jsstring) (c : Crons) : jsstring * Crons :=
  if negb (validate schedule) then (js "Invalid cron expression: " ++ schedule, c)
  else
    let job := {| cj_id := newId; cj_schedule := schedule; cj_prompt := prompt;
                  cj_chatId := chat; cj_enabled := true |} in
    let c1 := {| jobs := jobs c ++ [job]; scheduledTasks := scheduledTasks c;
                 cronsFile := cronsFile c; started := started c; stopped := stopped c |} in
    (js "Cron job created: id=" ++ newId ++ js ", schedule=" ++ quote ++ schedule ++ quote,
     scheduleJob job (saveJobs c1)).

(** [jobs.findIndex((j) => j.id === id)], [None] for -1. *)
Fixpoint findIndex (id : jsstring) (l : list CronJob) : option nat :=
  match l with
  | [] => None
  | j :: rest => if decide (cj_id j = id) then Some 0%nat else S <$> findIndex id rest
  end.

(** [execute] of [delete_cron]. *)
Definition delete_cron (id : jsstring) (c : Crons) : jsstring * Crons :=
  match findIndex id (jobs c) with
  | None => (js "Cron job " ++ id ++ js " not found.", c)
  | Some idx =>
      let c1 :=
        match scheduledTasks c !! id with
        | Some task =>
            {| jobs := jobs c; scheduledTasks := delete id (scheduledTasks c);
               cronsFile := cronsFile c;
               started := started c; stopped := {[task]} ∪ stopped c |}
        | None => c
        end in
      (js "Cron job " ++ id ++ js " deleted.",
       saveJobs {| jobs := delete idx (jobs c1); scheduledTasks := scheduledTasks c1;
                   cronsFile := cronsFile c1;
                   started := started c1; stopped := stopped c1 |})
  end.

(** The tasks that fire: started and not stopped. *)
Definition firing (c : Crons) : gset nat := started c ∖ stopped c.

(** Every task remembered belongs to a listed job and fires, no task is
    remembered under two ids, and the file holds the jobs. *)
Definition cronsInSync (c : Crons) : Prop :=
  (forall id task, scheduledTasks c !! id = Some task ->
     id ∈ map cj_id (jobs c) /\ task ∈ firing c) /\
  (forall id1 id2 task,
     scheduledTasks c !! id1 = Some task -> scheduledTasks c !! id2 = Some task ->
     id1 = id2) /\
  stopped c ⊆ started c /\
  cronsFile c = jobs c.

(** ** Text files: UTF-16 strings and UTF-8 bytes

    Node writes a string to a file as UTF-8, a lone surrogate becoming the
    bytes of U+FFFD, and reads a file with the decoder of the Encoding
    standard, which gives U+FFFD for every byte sequence that is not
    UTF-8. *)

Section Unicode.

Local Open Scope N_scope.

Definition isHighSurrogate (c : N) : bool := (0xD800 <=? c) && (c <=? 0xDBFF).
Definition isLowSurrogate (c : N) : bool := (0xDC00 <=? c) && (c <=? 0xDFFF).

Definition REPLACEMENT : N := 0xFFFD.

(** [s.toWellFormed()]: every surrogate that is not half of a pair becomes
    U+FFFD. *)
Fixpoint toWellFormed (s : jsstring) : jsstring :=
  match s with
  | [] => []
  | c :: rest =>
      if isHighSurrogate c then
        match rest with
        | lo :: rest' =>
            if isLowSurrogate lo then c :: lo :: toWellFormed rest'
            else REPLACEMENT :: toWellFormed rest
        | [] => [REPLACEMENT]
        end
      else if isLowSurrogate c then REPLACEMENT :: toWellFormed rest
      else c :: toWellFormed rest
  end.

(** The code point that a surrogate pair stands for. *)
Definition codePointOfPair (hi lo : N) : N :=
  0x10000 + (hi - 0xD800) * 0x400 + (lo - 0xDC00).

(** The code units of a code point: itself, or a surrogate pair from U+10000
    on. *)
Definition codeUnits (cp : N) : jsstring :=
  if cp <? 0x10000 then [cp]
  else [0xD800 + (cp - 0x10000) / 0x400; 0xDC00 + (cp - 0x10000) mod 0x400].

(** The byte with the value [n], for [n] below 256. *)
Definition byteOf (n : N) : Byte.byte := default Byte.x00 (Byte.of_N n).

(** The values of the one to four bytes that encode a code point. *)
Definition utf8Bytes (cp : N) : list N :=
  if cp <? 0x80 then [cp]
  else if cp <? 0x800 then [0xC0 + cp / 64; 0x80 + cp mod 64]
  else if cp <? 0x10000 then
    [0xE0 + cp / 4096; 0x80 + (cp / 64) mod 64; 0x80 + cp mod 64]
  else
    [0xF0 + cp / 262144; 0x80 + (cp / 4096) mod 64; 0x80 + (cp / 64) mod 64;
     0x80 + cp mod 64].

(** The byte values of a string written as UTF-8: pairs are encoded as their
    code point, a surrogate without its other half as U+FFFD. *)
Fixpoint utf8Values (s : jsstring) : list N :=
  match s with
  | [] => []
  | c :: rest =>
      if isHighSurrogate c then
        match rest with
        | lo :: rest' =>
            if isLowSurrogate lo then utf8Bytes (codePointOfPair c lo) ++ utf8Values rest'
            else utf8Bytes REPLACEMENT ++ utf8Values rest
        | [] => utf8Bytes REPLACEMENT
        end
      else if isLowSurrogate c then utf8Bytes REPLACEMENT ++ utf8Values rest
      else utf8Bytes c ++ utf8Values rest
  end.

(** [Buffer.from(s, "utf8")], the bytes that [writeFileSync(path, s)] writes. *)
Definition utf8Encode (s : jsstring) : list Byte.byte := map byteOf (utf8Values s).

(** The variables of the UTF-8 decoder of the Encoding standard, with the
    bytes still needed in place of the pair "bytes seen, bytes needed". *)
Record Utf8State := {
  codePoint : N;
  bytesNeeded : nat;
  lowerBoundary : N;
  upperBoundary : N
}.

Definition utf8Initial : Utf8State :=
  {| codePoint := 0; bytesNeeded := 0; lowerBoundary := 0x80; upperBoundary := 0xBF |}.

(** The decoder's handler on a byte when no byte is needed: the code units
    it emits and the state it moves to. In the ranges tested, taking the
    lead's marker off by subtraction is the standard's masking. *)
Definition utf8Lead (b : N) : jsstring * Utf8State :=
  if b <=? 0x7F then ([b], utf8Initial)
  else if (0xC2 <=? b) && (b <=? 0xDF) then
    ([], {| codePoint := b - 0xC0; bytesNeeded := 1;
            lowerBoundary := 0x80; upperBoundary := 0xBF |})
  else if (0xE0 <=? b) && (b <=? 0xEF) then
    ([], {| codePoint := b - 0xE0; bytesNeeded := 2;
            lowerBoundary := if b =? 0xE0 then 0xA0 else 0x80;
            upperBoundary := if b =? 0xED then 0x9F else 0xBF |})
  else if (0xF0 <=? b) && (b <=? 0xF4) then
    ([], {| codePoint := b - 0xF0; bytesNeeded := 3;
            lowerBoundary := if b =? 0xF0 then 0x90 else 0x80;
            upperBoundary := if b =? 0xF4 then 0x8F else 0xBF |})
  else ([REPLACEMENT], utf8Initial).

(** The handler on a byte in any state. A byte outside the boundaries ends
    the sequence with U+FFFD and is then handled as a lead. *)
Definition utf8Step (st : Utf8State) (b : N) : jsstring * Utf8State :=
  match bytesNeeded st with
  | O => utf8Lead b
  | S k =>
      if (lowerBoundary st <=? b) && (b <=? upperBoundary st) then
        let cp := codePoint st * 64 + (b - 0x80) in
        match k with
        | O => (codeUnits cp, utf8Initial)
        | S _ => ([], {| codePoint := cp; bytesNeeded := k;
                         lowerBoundary := 0x80; upperBoundary := 0xBF |})
        end
      else
        let '(out, st') := utf8Lead b in (REPLACEMENT :: out, st')
  end.

(** The handler run over the bytes; at the end of the bytes an unfinished
    sequence gives U+FFFD. *)
Fixpoint utf8DecodeFrom (st : Utf8State) (bytes : list N) : jsstring :=
  match bytes with
  | [] => match bytesNeeded st with O => [] | S _ => [REPLACEMENT] end
  | b :: rest =>
      let '(out, st') := utf8Step st b in out ++ utf8DecodeFrom st' rest
  end.

(** [buffer.toString("utf8")], the string that [readFileSync(path, "utf-8")]
    returns; a byte order mark is kept, as Node keeps it. *)
Definition utf8Decode (bytes : list Byte.byte) : jsstring :=
  utf8DecodeFrom utf8Initial (map Byte.to_N bytes).

End Unicode.

(** Strings proper: every code unit has 16 bits. *)
Definition isString (s : jsstring) : Prop := Forall (fun c => (c < 65536)%N) s.

(** Strings without a lone surrogate: units that are no surrogates, and
    pairs. *)
Inductive wellFormed : jsstring -> Prop :=
| wellFormed_nil : wellFormed []
| wellFormed_unit c s :
    (c < 65536)%N -> isHighSurrogate c = false -> isLowSurrogate c = false ->
    wellFormed s -> wellFormed (c :: s)
| wellFormed_pair hi lo s :
    isHighSurrogate hi = true -> isLowSurrogate lo = true ->
    wellFormed s -> wellFormed (hi :: lo :: s).

(** A code point that UTF-8 encodes: up to U+10FFFF and no surrogate. *)
Definition isScalar (cp : N) : Prop :=
  (cp < 0x110000)%N /\ isHighSurrogate cp = false /\ isLowSurrogate cp = false.

(** The code point a state is heading for is a scalar value, whatever
    continuation bytes it accepts. *)
Fixpoint completes (needed : nat) (cp lower upper : N) : Prop :=
  match needed with
  | O => isScalar cp
  | S k =>
      forall b, (lower <= b <= upper)%N ->
                completes k (cp * 64 + (b - 0x80))%N 0x80%N 0xBF%N
  end.

(** The invariant of the decoder's state. *)
Definition pending (st : Utf8State) : Prop :=
  completes (bytesNeeded st) (codePoint st) (lowerBoundary st) (upperBoundary st).

(** ** memory.ts *)

(** The files under .smallbot: one memory file per user, and TONE.md.
    Writing is taken to succeed. *)
Record Disk := {
  memoryFiles : gmap Z (list Byte.byte);
  toneFile : option (list Byte.byte)
}.

(** [readFileSync(path, "utf-8")] inside [try], with the empty string of the
    [catch] for a file that cannot be read. *)
Definition readText (file : option (list Byte.byte)) : jsstring :=
  match file with
  | Some bytes => utf8Decode bytes
  | None => []
  end.

(** [loadMemories(userId)] *)
Definition loadMemories (userId : Z) (d : Disk) : jsstring :=
  readText (memoryFiles d !! userId).

(** [execute] of [save_memory]; [timestamp] is [new Date().toISOString()]. *)
Definition save_memory (userId : Z) (timestamp content : jsstring) (d : Disk)
  : jsstring * Disk :=
  let entry := nl ++ js "## " ++ timestamp ++ nl ++ content ++ nl in
  let existing := readText (memoryFiles d !! userId) in
  (js "Memory saved.",
   {| memoryFiles := <[userId := utf8Encode (existing ++ entry)]> (memoryFiles d);
      toneFile := toneFile d |}).

(** [execute] of [recall_memories]: [memories || "No memories saved yet."]. *)
Definition recall_memories (userId : Z) (d : Disk) : jsstring :=
  match loadMemories userId d with
  | [] => js "No memories saved yet."
  | text => text
  end.

(** ** plugins.ts *)

(** What importing a plugin file gives: its [tool] and [handler] exports,
    either of which may be missing. *)
Record PluginExports (World : Type) := {
  p_tool : option Tool;
  p_handler : option (Json -> World -> Awaited jsstring * World)
}.
Arguments p_tool {World} _.
Arguments p_handler {World} _.

(** [s.endsWith(suffix)] *)
Definition endsWith (suffix s : jsstring) : bool :=
  startsWith (reverse suffix) (reverse s).

(** The [AgentTool] that [loadPlugins] makes of a plugin. *)
Definition pluginTool {World : Type} (tool : Tool)
    (handler : Json -> World -> Awaited jsstring * World) : AgentTool World :=
  {| name := t_name tool; description := t_description tool;
     parameters := t_parameters tool; label := t_name tool;
     execute := fun _ params w =>
       match handler params w with
       | (Fulfilled result, w') =>
           (Fulfilled {| content := [TextContent result]; details := JObject [] |}, w')
       | (RejectedWith err, w') => (RejectedWith err, w')
       end |}.

(** The body of [for (const file of files)] on the array [agentTools]. *)
Definition loadPlugin {World : Type} (import : jsstring -> Settled (PluginExports World))
    (agentTools : list (AgentTool World)) (file : jsstring) : list (AgentTool World) :=
  match import file with
  | Rejected _ => agentTools
  | Resolved exports =>
      match p_tool exports, p_handler exports with
      | Some tool, Some handler => agentTools ++ [pluginTool tool handler]
      | _, _ => agentTools
      end
  end.

(** [loadPlugins()]. [readdir] is the listing of the plugins directory,
    [None] when it cannot be read. *)
Definition loadPlugins {World : Type} (readdir : option (list jsstring))
    (import : jsstring -> Settled (PluginExports World)) : list (AgentTool World) :=
  match readdir with
  | None => []
  | Some names =>
      let files :=
        List.filter (fun f => endsWith (js ".ts") f && negb (startsWith (js "_") f)) names in
      foldl (loadPlugin import) [] files
  end.

(** ** Shape of a working history *)

Definition isToolResult (x : Message) : Prop := exists r, x = ToolResult r.

(** A run of turns as it is written into a history: each turn is an
    assistant message followed by the tool results of that turn. *)
Inductive turnBlocks : list Message -> Prop :=
| turnBlocks_nil : turnBlocks []
| turnBlocks_turn a results rest :
    Forall isToolResult results -> turnBlocks rest ->
    turnBlocks (Assistant a :: results ++ rest).

(** The number of assistant messages in a history: one for each generation
    that was appended. *)
Fixpoint generations (xs : list Message) : nat :=
  match xs with
  | [] => 0%nat
  | Assistant _ :: rest => S (generations rest)
  | _ :: rest => generations rest
  end.

(** ** A small environment for the examples

    The world is a tick counter; the provider asks for four tools after the
    first user message and answers in plain text afterwards. *)

Definition exDate_now (w : nat) : Z := 1000 * Z.of_nat w.

Definition exEcho : AgentTool nat :=
  {| name := js "echo"; description := js "echoes"; parameters := JNull; label := js "echo";
     execute := fun _ args w =>
       (Fulfilled {| content := [TextContent (js "done")]; details := args |}, S w) |}.

Definition exBroken : AgentTool nat :=
  {| name := js "broken"; description := js "always fails"; parameters := JNull;
     label := js "broken";
     execute := fun _ _ w =>
       (RejectedWith (ThrownValue {| message := Some (js "boom") |}), S w) |}.

(** A tool whose promise is rejected without a reason, as by [Promise.reject()]
    or a timer armed with [setTimeout(reject, ms)]. *)
Definition exSilent : AgentTool nat :=
  {| name := js "broken"; description := js "gives up"; parameters := JNull;
     label := js "broken";
     execute := fun _ _ w => (RejectedWith ThrownUndefined, S w) |}.

(** A validator that refuses [null] arguments. *)
Definition exValidate (defs : list Tool) (tc : ToolCall) : Json + Exn :=
  match tc_arguments tc with
  | JNull => inr {| message := Some (js "Validation failed") |}
  | args => inl args
  end.

Definition exCall (id name : string) (args : Json) : ToolCall :=
  {| tc_id := js id; tc_name := js name; tc_arguments := args |}.

Definition exCalls : list ToolCall :=
  [ exCall "c1" "missing" (JBool true);
    exCall "c2" "echo" JNull;
    exCall "c3" "broken" (JBool true);
    exCall "c4" "echo" (JBool true) ].

Definition exAssistant (parts : list AssistantPart) (stop : string) (w : nat)
  : AssistantMessage :=
  {| am_content := parts; am_provider := js "anthropic"; am_model := js "m";
     am_stopReason := js stop; am_timestamp := exDate_now w |}.

Definition exStream (model : ModelInfo) (prompt : jsstring) (history : list Message)
    (defs : list Tool) (w : nat) : Generation * nat :=
  match history with
  | [_] =>
      (Completed
         (text_delta (js "A") :: map toolcall_end exCalls)
         (exAssistant (AText (js "A") :: map AToolCall exCalls) "toolUse" w), S w)
  | _ =>
      (Completed [other_event (js "start"); text_delta (js "B")]
         (exAssistant [AText (js "B")] "stop" w), S w)
  end.

Definition exModel : ModelInfo := {| provider := js "anthropic"; modelId := js "m" |}.

(** The caller's session: one user message, in the array at location 1. *)
Definition exMachine : Machine nat :=
  {| heap := {[ 1%positive := [User (UString (js "hi")) 0] ]}; world := 0%nat |}.

Definition exCoding : list (AgentTool nat) := [exEcho].
Definition exCustom : list (AgentTool nat) := [exBroken].

(** A stream of a request in which the first delta already carries the whole
    answer. *)
Definition exAnswer : jsstring := js "The answer to 2+2 is 4.".

Definition exArrival (e : StreamEvent) (t : Z) : Arrival :=
  {| event := e; now := t; answer := Resolved tt |}.

Definition exRequest : Request :=
  {| chatId := 1; placeholder := Resolved 7;
     arrivals := [exArrival (TextDelta exAnswer) 1000; exArrival (Done exAnswer) 1100];
     generatorError := None;
     finalNow := 1200; finalAnswer := Resolved tt;
     deleteAnswer := Resolved tt; chunkAnswers := fun _ => Resolved 8 |}.

Definition exNotModified : Exn :=
  {| message := Some (js "Bad Request: message is not modified") |}.

Definition exLongText : jsstring := replicate 4100 97%N.

Definition exTooManyRequests : Exn :=
  {| message := Some (js "Too Many Requests: retry after 3") |}.

Definition exUser : Message := User (UString (js "hi")) 0.

Definition exOverloaded : Exn := {| message := Some (js "overloaded") |}.

(** A provider that asks for tools once and fails when asked again. *)
Definition exFlaky (model : ModelInfo) (prompt : jsstring) (history : list Message)
    (defs : list Tool) (w : nat) : Generation * nat :=
  match history with
  | [_] => exStream model prompt history defs w
  | _ => (Failed exOverloaded, S w)
  end.

Definition exEmpty : Machine nat := {| heap := ∅; world := 0%nat |}.

Definition exMidText : jsstring := replicate 4050 98%N.

Definition exNoFiles : Disk := {| memoryFiles := ∅; toneFile := None |}.

Definition exNoCrons : Crons :=
  {| jobs := []; scheduledTasks := ∅; cronsFile := []; started := ∅; stopped := ∅ |}.

(** A transport that rejects the second chunk of a delivery. *)
Definition exRejectSecond (i : nat) : Settled Z :=
  if decide (i = 4096%nat) then Rejected exTooManyRequests else Resolved 8.

Definition exFailedRequest : Request :=
  {| chatId := 1; placeholder := Resolved 7;
     arrivals := [exArrival (TextDelta exAnswer) 1000];
     generatorError := Some exOverloaded;
     finalNow := 1200; finalAnswer := Resolved tt;
     deleteAnswer := Resolved tt; chunkAnswers := fun _ => Resolved 8 |}.

(** A provider that answers with a long text at once. *)
Definition exVerbose (model : ModelInfo) (prompt : jsstring) (history : list Message)
    (defs : list Tool) (w : nat) : Generation * nat :=
  (Completed [text_delta exLongText] (exAssistant [AText exLongText] "stop" w), S w).

(** A name that none of the tools offered carries: it is longer than each of
    theirs. *)
Definition unusedName (defs : list Tool) : jsstring :=
  replicate (S (max_list (map (fun d => length (t_name d)) defs))) 120%N.

(** A provider that never stops asking for a tool, and asks for one that
    does not exist. *)
Definition insatiable {World : Type} (model : ModelInfo) (prompt : jsstring)
    (history : list Message) (defs : list Tool) (w : World) : Generation * World :=
  let call := {| tc_id := js "c"; tc_name := unusedName defs; tc_arguments := JBool true |} in
  (Completed [toolcall_end call] (exAssistant [AToolCall call] "toolUse" 0), w).

(** ** agent.ts: [runAgent] *)

Section Agent.

(** External state reached by the provider, the tools and the clock. *)
Variable World : Type.
Variable Date_now : World -> Z.
Variable stream :
  ModelInfo -> jsstring -> list Message -> list Tool -> World -> Generation * World.
Variable validateToolCall : list Tool -> ToolCall -> Json + Exn.
Variable codingTools : list (AgentTool World).

(** [context.messages.push(x)] through the location [l]. *)
Definition push (l : loc) (x : Message) (m : Machine World) : Machine World :=
  {| heap := <[l := (heap m !!! l) ++ [x]]> (heap m); world := world m |}.

(** [[...a]]: a new array with the elements of the array at [l]. *)
Definition spread (l : loc) (m : Machine World) : loc * Machine World :=
  let l' := fresh (dom (heap m)) in
  (l', {| heap := <[l' := heap m !!! l]> (heap m); world := world m |}).

Definition toolDefsOf (allTools : list (AgentTool World)) : list Tool :=
  map (fun t => {| t_name := name t; t_description := description t;
                   t_parameters := parameters t |}) allTools.

(** [for (const t of allTools) toolHandlers.set(t.name, t)] *)
Definition toolHandlersOf (allTools : list (AgentTool World))
  : gmap jsstring (AgentTool World) :=
  foldl (fun h t => <[name t := t]> h) ∅ allTools.

Section Turn.

Variable model : ModelInfo.
Variable context : Context.
Variable toolDefs : list Tool.
Variable toolHandlers : gmap jsstring (AgentTool World).

(** The body of [for await (const event of s)], on the pair of the
    accumulators [text] and [toolCalls]. *)
Definition onEvent (acc : jsstring * list ToolCall) (event : AssistantMessageEvent)
  : jsstring * list ToolCall :=
  match event with
  | text_delta delta => (acc.1 ++ delta, acc.2)
  | toolcall_end toolCall => (acc.1, acc.2 ++ [toolCall])
  | other_event _ => acc
  end.

Definition consume (events : list AssistantMessageEvent) : jsstring * list ToolCall :=
  foldl onEvent ([], []) events.

Definition toolResult (tc : ToolCall) (c : list Content) (err : bool) (now : Z) : Message :=
  ToolResult {| toolCallId := tc_id tc; toolName := tc_name tc;
                tr_content := c; isError := err; tr_timestamp := now |}.

(** The body of [for (const tc of toolCalls)]. The [catch] block reads
    [err.message] for its log line before it pushes anything, so a tool
    rejecting with [undefined] or [null] makes the block itself throw. *)
Definition runToolCall (m : Machine World) (tc : ToolCall) : ToolStep World :=
  match toolHandlers !! tc_name tc with
  | None =>
      Continue
        (push (messages context)
           (toolResult tc [TextContent (js "Unknown tool: " ++ tc_name tc)] true
              (Date_now (world m))) m)
  | Some handler =>
      match validateToolCall toolDefs tc with
      | inr err =>
          Continue
            (push (messages context)
               (toolResult tc [TextContent (js "Error: " ++ interpolate (message err))] true
                  (Date_now (world m))) m)
      | inl validated =>
          let '(settled, w) := execute handler (tc_id tc) validated (world m) in
          let m1 := {| heap := heap m; world := w |} in
          match settled with
          | Fulfilled result =>
              Continue
                (push (messages context)
                   (toolResult tc (content result) false (Date_now w)) m1)
          | RejectedWith err =>
              match messageOf err with
              | inr typeError => Raise typeError m1
              | inl text =>
                  Continue
                    (push (messages context)
                       (toolResult tc [TextContent (js "Error: " ++ interpolate text)] true
                          (Date_now w)) m1)
              end
          end
      end
  end.

(** [for (const tc of toolCalls) { ... }] *)
Fixpoint runToolCalls (m : Machine World) (toolCalls : list ToolCall) : ToolStep World :=
  match toolCalls with
  | [] => Continue m
  | tc :: rest =>
      match runToolCall m tc with
      | Continue m' => runToolCalls m' rest
      | Raise e m' => Raise e m'
      end
  end.

(** One pass through the body of [while (true)]. *)
Definition turn (m : Machine World) : TurnResult World :=
  let '(g, w) :=
    stream model (systemPrompt context) (heap m !!! messages context)
      (tools context) (world m) in
  let m1 := {| heap := heap m; world := w |} in
  match g with
  | Failed e => Throw e m1
  | Completed events assistantMessage =>
      let '(text, toolCalls) := consume events in
      let m2 := push (messages context) (Assistant assistantMessage) m1 in
      if decide (length toolCalls = 0%nat) then Return text m2
      else
        match runToolCalls m2 toolCalls with
        | Continue m3 => Again m3
        | Raise e m3 => Throw e m3
        end
  end.

(** [while (true) { ... }], cut after [fuel] turns. [Running] is the loop
    still going round. *)
Fixpoint turns (fuel : nat) (m : Machine World) : Outcome World :=
  match fuel with
  | O => Running m
  | S fuel' =>
      match turn m with
      | Return text m' => Returned text m'
      | Throw e m' => Threw e m'
      | Again m' => turns fuel' m'
      end
  end.

(** The machine at the start of turn [n] (counted from 0), when the loop gets
    that far. *)
Fixpoint atTurn (n : nat) (m : Machine World) : option (Machine World) :=
  match n with
  | O => Some m
  | S n' =>
      match turn m with
      | Again m' => atTurn n' m'
      | _ => None
      end
  end.

(** *** Vocabulary of the properties *)

(** The text the model produced in one generation. *)
Definition textOf (events : list AssistantMessageEvent) : jsstring :=
  concat (omap (fun ev => match ev with text_delta d => Some d | _ => None end) events).

(** The tool calls the model issued in one generation, in arrival order. *)
Definition issued (events : list AssistantMessageEvent) : list ToolCall :=
  omap (fun ev => match ev with toolcall_end tc => Some tc | _ => None end) events.

(** The call [tc], made in world [w], is carried out to completion: the
    handler exists, the arguments validate, and execution resolves, leaving
    the world [w']. *)
Definition succeeds (w : World) (tc : ToolCall) (c : list Content) (w' : World) : Prop :=
  exists handler validated result,
    toolHandlers !! tc_name tc = Some handler /\
    validateToolCall toolDefs tc = inl validated /\
    execute handler (tc_id tc) validated w = (Fulfilled result, w') /\
    c = content result.

(** The three ways a call comes to nothing, with the text reported to the
    model and the world left behind. *)
Inductive fails (w : World) (tc : ToolCall) : jsstring -> World -> Prop :=
| fails_unknown :
    toolHandlers !! tc_name tc = None ->
    fails w tc (js "Unknown tool: " ++ tc_name tc) w
| fails_validation handler err :
    toolHandlers !! tc_name tc = Some handler ->
    validateToolCall toolDefs tc = inr err ->
    fails w tc (js "Error: " ++ interpolate (message err)) w
| fails_execution handler validated err w' :
    toolHandlers !! tc_name tc = Some handler ->
    validateToolCall toolDefs tc = inl validated ->
    execute handler (tc_id tc) validated w = (RejectedWith (ThrownValue err), w') ->
    fails w tc (js "Error: " ++ interpolate (message err)) w'.

(** The call [tc], made in world [w], is rejected with [undefined] or [null]:
    [e] is the TypeError that the [catch] block then throws. *)
Definition aborts (w : World) (tc : ToolCall) (e : Exn) (w' : World) : Prop :=
  exists handler validated err,
    toolHandlers !! tc_name tc = Some handler /\
    validateToolCall toolDefs tc = inl validated /\
    execute handler (tc_id tc) validated w = (RejectedWith err, w') /\
    messageOf err = inr e.

(** [x] is the tool result that answers [tc]: it names the call's id and
    tool, and it is flagged as an error exactly when the call fails. *)
Definition answers (w : World) (tc : ToolCall) (x : Message) (w' : World) : Prop :=
  exists r, x = ToolResult r /\
    toolCallId r = tc_id tc /\ toolName r = tc_name tc /\
    tr_timestamp r = Date_now w' /\
    ((isError r = false /\ succeeds w tc (tr_content r) w') \/
     (isError r = true /\ exists text, tr_content r = [TextContent text] /\ fails w tc text w')).

(** The results [xs] answer the calls [tcs] one for one and in order, each
    call being made in the world the previous one left. *)
Inductive answered : World -> list ToolCall -> list Message -> World -> Prop :=
| answered_nil w : answered w [] [] w
| answered_cons w tc x w1 tcs xs w2 :
    answers w tc x w1 -> answered w1 tcs xs w2 ->
    answered w (tc :: tcs) (x :: xs) w2.

(** What one turn, and so any number of turns, does to the store: the
    working history grows at its end, nothing else is written. *)
Definition extends (m m' : Machine World) : Prop :=
  (exists xs, heap m' !!! messages context = heap m !!! messages context ++ xs) /\
  (forall l, l <> messages context -> heap m' !! l = heap m !! l).

End Turn.

Definition runAgent (fuel : nat) (model : ModelInfo)
    (messages_arg : loc) (systemPrompt_arg : jsstring) (customTools : list (AgentTool World))
    (m : Machine World) : Outcome World :=
  let allTools := codingTools ++ customTools in
  let toolDefs := toolDefsOf allTools in
  let toolHandlers := toolHandlersOf allTools in
  let '(copy, m1) := spread messages_arg m in
  let context := {| systemPrompt := systemPrompt_arg; messages := copy; tools := toolDefs |} in
  turns model context toolDefs toolHandlers fuel m1.

(** The context that [runAgent] builds for a call; its [messages] is the
    working history. *)
Definition contextOf (messages_arg : loc) (systemPrompt_arg : jsstring)
    (customTools : list (AgentTool World)) (m : Machine World) : Context :=
  {| systemPrompt := systemPrompt_arg;
     messages := (spread messages_arg m).1;
     tools := toolDefsOf (codingTools ++ customTools) |}.

(** The machine at the start of turn [n] of a call of [runAgent]. *)
Definition turnOfRun (n : nat) (model : ModelInfo)
    (messages_arg : loc) (systemPrompt_arg : jsstring) (customTools : list (AgentTool World))
    (m : Machine World) : option (Machine World) :=
  atTurn model (contextOf messages_arg systemPrompt_arg customTools m)
    (toolDefsOf (codingTools ++ customTools)) (toolHandlersOf (codingTools ++ customTools))
    n (spread messages_arg m).2.

(** The generation the provider answers with at the start of a turn of that
    call. *)
Definition generationOf (model : ModelInfo)
    (messages_arg : loc) (systemPrompt_arg : jsstring) (customTools : list (AgentTool World))
    (m0 m : Machine World) : Generation * World :=
  let context := contextOf messages_arg systemPrompt_arg customTools m0 in
  stream model (systemPrompt context) (heap m !!! messages context) (tools context) (world m).

(** A provider that asks for a tool in every generation. *)
Definition alwaysCalls : Prop :=
  forall model prompt history defs w,
    exists events result w',
      stream model prompt history defs w = (Completed events result, w') /\
      issued events <> [].

(** A tool that, when it fails, fails with a value other than [undefined]
    and [null]. *)
Definition rejectsWithReason (t : AgentTool World) : Prop :=
  forall id args w err w',
    execute t id args w = (RejectedWith err, w') -> exists e, err = ThrownValue e.

(** A provider that asks in every generation for one tool, which is not
    among the tools it was offered. *)
Definition callsUnknown : Prop :=
  forall model prompt history defs w,
    exists tc result w',
      stream model prompt history defs w = (Completed [toolcall_end tc] result, w') /\
      tc_name tc ∉ map t_name defs.

(** [runCronPrompt(prompt, customTools)]: a new array holding the prompt as
    the one user message, handed to [runAgent] with the fixed system prompt. *)
Definition runCronPrompt (fuel : nat) (model : ModelInfo) (prompt : jsstring)
    (customTools : list (AgentTool World)) (m : Machine World) : Outcome World :=
  let l := fresh (dom (heap m)) in
  let m1 := {| heap := <[l := [User (UString prompt) (Date_now (world m))]]> (heap m);
               world := world m |} in
  runAgent fuel model l
    (js "You are a scheduled task assistant. Execute the requested task concisely.")
    customTools m1.

(** *** index.ts: [handleMessage] with streaming off *)

(** What reaches [handleMessage] and what its surroundings answer: the user,
    the content built from the update, the system prompt and tools put
    together for the user, the clock readings taken for the session and for
    the two messages, and the transport's answers to the replies and to the
    error notice. *)
Record Incoming := {
  in_userId : Z;
  in_content : UserContent;
  in_systemPrompt : jsstring;
  in_tools : list (AgentTool World);
  nowSession : Z;
  nowUser : Z;
  nowAssistant : Z;
  replyAnswers : nat -> Settled Z;
  errorAnswer : Settled Z
}.

Inductive Handled :=
| Finished (ss : gmap Z Session) (m : Machine World) (transport : Completion)
| Unfinished (ss : gmap Z Session) (m : Machine World).

(** The assistant message [handleMessage] writes into the session. *)
Definition assistantMsg (model : ModelInfo) (response : jsstring) (now : Z) : Message :=
  Assistant {| am_content := [AText response]; am_provider := js "anthropic";
               am_model := modelId model; am_stopReason := js "stop";
               am_timestamp := now |}.

(** [await ctx.reply(`Error: ${err.message}`)] of the outer [catch]. *)
Definition errorNotice (e : Exn) (answer : Settled Z) (r : Renderer) : Completion :=
  ctx_reply (js "Error: " ++ interpolate (message e)) answer r.

(** [handleMessage] from [getSession] on, with streaming off. The typing
    indicator, which cannot fail, is left out; [Unfinished] is the agent loop
    cut by [fuel]. *)
Definition handleMessage (fuel : nat) (model : ModelInfo) (i : Incoming)
    (ss : gmap Z Session) (m : Machine World) : Handled :=
  let '(session, ss1, h1) := getSession (in_userId i) (nowSession i) ss (heap m) in
  let m1 := push (s_messages session) (User (in_content i) (nowUser i))
              {| heap := h1; world := world m |} in
  match runAgent fuel model (s_messages session) (in_systemPrompt i) (in_tools i) m1 with
  | Running m2 => Unfinished ss1 m2
  | Threw e m2 => Finished ss1 m2 (errorNotice e (errorAnswer i) initial)
  | Returned response m2 =>
      match nonStreamingDelivery response (replyAnswers i) initial with
      | Normal r =>
          Finished ss1
            (push (s_messages session) (assistantMsg model response (nowAssistant i)) m2)
            (Normal r)
      | Abrupt e r => Finished ss1 m2 (errorNotice e (errorAnswer i) r)
      end
  end.

(** The [try] and [catch] around the streaming branch of [handleMessage]. *)
Definition streamingExchange (q : Request) (answer : Settled Z) : Completion :=
  tryCatch (streamingMode q) (fun e r => errorNotice e answer r).

(** *** Properties of one turn *)

Section TurnProperties.

Variable model : ModelInfo.
Variable context : Context.
Variable toolDefs : list Tool.
Variable toolHandlers : gmap jsstring (AgentTool World).

Local Abbreviation work := (messages context).
Local Abbreviation turn' := (turn model context toolDefs toolHandlers).
Local Abbreviation turns' := (turns model context toolDefs toolHandlers).
Local Abbreviation atTurn' := (atTurn model context toolDefs toolHandlers).
Local Abbreviation runToolCall' := (runToolCall context toolDefs toolHandlers).
Local Abbreviation runToolCalls' := (runToolCalls context toolDefs toolHandlers).
Local Abbreviation generate m :=
  (stream model (systemPrompt context) (heap m !!! work) (tools context) (world m)).

Lemma foldl_onEvent events : forall acc,
  foldl onEvent acc events = (acc.1 ++ textOf events, acc.2 ++ issued events).
Proof.
  induction events as [|ev events IH]; intros [t c]; simpl.
  - by rewrite !app_nil_r.
  - rewrite IH. unfold textOf, issued. destruct ev; simpl; by rewrite <- ?app_assoc.
Qed.

Lemma consume_spec events : consume events = (textOf events, issued events).
Proof. unfold consume. by rewrite foldl_onEvent. Qed.

Lemma push_work l x (m : Machine World) : heap (push l x m) !!! l = heap m !!! l ++ [x].
Proof. unfold push; simpl. by rewrite lookup_total_insert_eq. Qed.

Lemma push_frame l l' x (m : Machine World) :
  l' <> l -> heap (push l x m) !! l' = heap m !! l'.
Proof. intros Hne. unfold push; simpl. by rewrite lookup_insert_ne. Qed.

Lemma push_world l x (m : Machine World) : world (push l x m) = world m.
Proof. reflexivity. Qed.

(** Every path through the body of the tool loop but one pushes one message,
    and that message answers the call; the one left is the [catch] block
    throwing, before anything is pushed. *)
Lemma runToolCall_spec m tc :
  match runToolCall' m tc with
  | Continue m' =>
      exists x w',
        m' = push work x {| heap := heap m; world := w' |} /\
        answers toolDefs toolHandlers (world m) tc x w'
  | Raise e m' =>
      exists w',
        m' = {| heap := heap m; world := w' |} /\
        aborts toolDefs toolHandlers (world m) tc e w'
  end.
Proof.
  unfold runToolCall.
  destruct (toolHandlers !! tc_name tc) as [handler|] eqn:Hh.
  - destruct (validateToolCall toolDefs tc) as [validated|err] eqn:Hv.
    + destruct (execute handler (tc_id tc) validated (world m)) as [[result|err] w] eqn:He.
      * eexists _, w. split; [reflexivity|].
        eexists. split; [reflexivity|]. simpl. repeat split.
        left. split; [done|]. by exists handler, validated, result.
      * destruct err as [| |err]; cbn [messageOf].
        -- exists w. split; [done|]. by exists handler, validated, ThrownUndefined.
        -- exists w. split; [done|]. by exists handler, validated, ThrownNull.
        -- eexists _, w. split; [reflexivity|].
           eexists. split; [reflexivity|]. simpl. repeat split.
           right. split; [done|]. eexists. split; [reflexivity|].
           by eapply fails_execution.
    + eexists _, (world m). split; [by destruct m|].
      eexists. split; [reflexivity|]. simpl. repeat split.
      right. split; [done|]. eexists. split; [reflexivity|].
      by eapply fails_validation.
  - eexists _, (world m). split; [by destruct m|].
    eexists. split; [reflexivity|]. simpl. repeat split.
    right. split; [done|]. eexists. split; [reflexivity|].
    by apply fails_unknown.
Qed.

Lemma answered_snoc w tcs xs w1 tc x w2 :
  answered toolDefs toolHandlers w tcs xs w1 ->
  answers toolDefs toolHandlers w1 tc x w2 ->
  answered toolDefs toolHandlers w (tcs ++ [tc]) (xs ++ [x]) w2.
Proof.
  induction 1 as [w|w tc0 x0 w0 tcs xs w1 Hx _ IH]; intros Hlast; cbn.
  - econstructor; [exact Hlast | constructor].
  - econstructor; [exact Hx | by apply IH].
Qed.

(** The tool loop answers the calls one by one in their order, up to the end
    or up to the call at which the [catch] block throws; nothing but the
    working history is written. *)
Lemma runToolCalls_spec tcs : forall m,
  exists xs,
    heap (stepMachine (runToolCalls' m tcs)) !!! work = heap m !!! work ++ xs /\
    (forall l, l <> work ->
       heap (stepMachine (runToolCalls' m tcs)) !! l = heap m !! l) /\
    match runToolCalls' m tcs with
    | Continue m' => answered toolDefs toolHandlers (world m) tcs xs (world m')
    | Raise e m' =>
        exists before tc after w,
          tcs = before ++ tc :: after /\
          answered toolDefs toolHandlers (world m) before xs w /\
          aborts toolDefs toolHandlers w tc e (world m')
    end.
Proof.
  induction tcs as [|tc tcs IH]; intros m; cbn [runToolCalls].
  - exists []. rewrite app_nil_r. split_and!; [done|done|constructor].
  - pose proof (runToolCall_spec m tc) as Hstep.
    destruct (runToolCall' m tc) as [m1|e m1].
    + destruct Hstep as (x & w' & -> & Hans).
      destruct (IH (push work x {| heap := heap m; world := w' |}))
        as (xs & Hw & Hfr & Hrest).
      exists (x :: xs). rewrite push_work in Hw. cbn [heap] in Hw.
      split_and!.
      * by rewrite Hw, <- app_assoc.
      * intros l Hl. rewrite (Hfr l Hl). by rewrite push_frame.
      * destruct (runToolCalls' _ tcs) as [m2|e m2].
        -- econstructor; [exact Hans | exact Hrest].
        -- destruct Hrest as (before & tc' & after & w & -> & Hbefore & Hab).
           exists (tc :: before), tc', after, w. split_and!; [done| |done].
           econstructor; [exact Hans | exact Hbefore].
    + destruct Hstep as (w' & -> & Hab). cbn [stepMachine heap].
      exists []. rewrite app_nil_r. split_and!; [done|done|].
      exists [], tc, tcs, (world m). split_and!; [done|constructor|done].
Qed.

Lemma turn_completed m events result w1 :
  generate m = (Completed events result, w1) ->
  turn' m =
    let m2 := push work (Assistant result) {| heap := heap m; world := w1 |} in
    match issued events with
    | [] => Return (textOf events) m2
    | _ :: _ =>
        match runToolCalls' m2 (issued events) with
        | Continue m3 => Again m3
        | Raise e m3 => Throw e m3
        end
    end.
Proof.
  intros Hg. unfold turn. rewrite Hg, consume_spec. cbn zeta.
  destruct (issued events); [done|]. by case_decide.
Qed.

Lemma turn_failed m e w1 :
  generate m = (Failed e, w1) ->
  turn' m = Throw e {| heap := heap m; world := w1 |}.
Proof. intros Hg. unfold turn. by rewrite Hg. Qed.

Lemma turn_return_inv m text m' :
  turn' m = Return text m' ->
  exists events result w1,
    generate m = (Completed events result, w1) /\
    issued events = [] /\ text = textOf events /\
    m' = push work (Assistant result) {| heap := heap m; world := w1 |}.
Proof.
  intros Ht. destruct (generate m) as [[events result|e] w1] eqn:Hg.
  - rewrite (turn_completed _ _ _ _ Hg) in Ht. cbn zeta in Ht.
    destruct (issued events) eqn:Hi.
    + injection Ht as <- <-. by exists events, result, w1.
    + by destruct (runToolCalls' _ _).
  - by rewrite (turn_failed _ _ _ Hg) in Ht.
Qed.

Lemma turn_again_inv m m' :
  turn' m = Again m' ->
  exists events result w1,
    generate m = (Completed events result, w1) /\
    issued events <> [] /\
    runToolCalls'
      (push work (Assistant result) {| heap := heap m; world := w1 |}) (issued events)
    = Continue m'.
Proof.
  intros Ht. destruct (generate m) as [[events result|e] w1] eqn:Hg.
  - rewrite (turn_completed _ _ _ _ Hg) in Ht. cbn zeta in Ht.
    destruct (issued events) eqn:Hi; [done|].
    destruct (runToolCalls' _ _) as [m3|e3 m3] eqn:Hrun; [|done].
    injection Ht as <-. exists events, result, w1. by rewrite Hi.
  - by rewrite (turn_failed _ _ _ Hg) in Ht.
Qed.

Lemma atTurn_next n : forall m0 m,
  atTurn' n m0 = Some m ->
  atTurn' (S n) m0 = match turn' m with Again m' => Some m' | _ => None end.
Proof.
  induction n as [|n IH]; intros m0 m H.
  - injection H as <-. simpl. by destruct (turn' m0).
  - simpl in H. destruct (turn' m0) as [| |m1] eqn:Ht; try done.
    specialize (IH _ _ H). change (atTurn' (S (S n)) m0) with
      (match turn' m0 with Again m' => atTurn' (S n) m' | _ => None end).
    by rewrite Ht.
Qed.

Lemma turns_from n : forall m0 m k,
  atTurn' n m0 = Some m -> turns' (n + k) m0 = turns' k m.
Proof.
  induction n as [|n IH]; intros m0 m k H.
  - by injection H as <-.
  - simpl in *. destruct (turn' m0); try done. by apply IH.
Qed.

Lemma turns_returned_inv fuel : forall m0 text m',
  turns' fuel m0 = Returned text m' ->
  exists n m, (n < fuel)%nat /\ atTurn' n m0 = Some m /\ turn' m = Return text m'.
Proof.
  induction fuel as [|fuel IH]; intros m0 text m' H; [done|].
  simpl in H. destruct (turn' m0) as [t m1|e m1|m1] eqn:Ht; try done.
  - injection H as <- <-. exists 0%nat, m0. split; [lia|]. by split.
  - destruct (IH _ _ _ H) as (n & m & Hn & Hat & Hret).
    exists (S n), m. split; [lia|]. split; [|done]. simpl. by rewrite Ht.
Qed.

(** Turns before the one reached all went round again. *)
Lemma atTurn_earlier n : forall m0 m k,
  atTurn' n m0 = Some m -> (k < n)%nat ->
  exists mk mk', atTurn' k m0 = Some mk /\ turn' mk = Again mk'.
Proof.
  induction n as [|n IH]; intros m0 m k H Hk; [lia|].
  simpl in H. destruct (turn' m0) as [| |m1] eqn:Ht; try done.
  destruct k as [|k].
  - by exists m0, m1.
  - destruct (IH m1 m k H ltac:(lia)) as (mk & mk' & Hat & Hturn).
    exists mk, mk'. split; [|done]. simpl. by rewrite Ht.
Qed.

Local Abbreviation extends := (extends context).

Lemma extends_refl m : extends m m.
Proof. split; [exists []; by rewrite app_nil_r | done]. Qed.

Lemma extends_trans m1 m2 m3 : extends m1 m2 -> extends m2 m3 -> extends m1 m3.
Proof.
  intros [[xs Hx] Hf] [[ys Hy] Hg]. split.
  - exists (xs ++ ys). by rewrite Hy, Hx, app_assoc.
  - intros l Hl. by rewrite Hg, Hf.
Qed.

Lemma extends_world m w : extends m {| heap := heap m; world := w |}.
Proof. split; [exists []; by rewrite app_nil_r | done]. Qed.

Lemma extends_push x m : extends m (push work x m).
Proof. split; [exists [x]; apply push_work | intros; by apply push_frame]. Qed.

Lemma extends_tools tcs m : extends m (stepMachine (runToolCalls' m tcs)).
Proof.
  destruct (runToolCalls_spec tcs m) as (xs & Hw & Hf & _). split; eauto.
Qed.

Lemma turn_extends m :
  match turn' m with
  | Return _ m' | Throw _ m' | Again m' => extends m m'
  end.
Proof.
  destruct (generate m) as [[events result|e] w1] eqn:Hg.
  - rewrite (turn_completed _ _ _ _ Hg). simpl.
    pose proof (extends_trans _ _ _ (extends_world m w1)
                  (extends_push (Assistant result) _)) as H1.
    destruct (issued events) as [|tc tcs]; [done|].
    pose proof (extends_tools (tc :: tcs)
                  (push work (Assistant result) {| heap := heap m; world := w1 |})) as H2.
    destruct (runToolCalls' _ (tc :: tcs)); by eapply extends_trans.
  - rewrite (turn_failed _ _ _ Hg). apply extends_world.
Qed.

Lemma turns_extends fuel : forall m, extends m (machineOf (turns' fuel m)).
Proof.
  induction fuel as [|fuel IH]; intros m; simpl; [apply extends_refl|].
  pose proof (turn_extends m) as Ht.
  destruct (turn' m) as [t m1|e m1|m1]; simpl; try done.
  eapply extends_trans; [exact Ht | apply IH].
Qed.

End TurnProperties.

(** *** Properties of a call of [runAgent] *)

Lemma runAgent_turns fuel model messages_arg systemPrompt_arg customTools m :
  runAgent fuel model messages_arg systemPrompt_arg customTools m =
  turns model (contextOf messages_arg systemPrompt_arg customTools m)
    (toolDefsOf (codingTools ++ customTools)) (toolHandlersOf (codingTools ++ customTools))
    fuel (spread messages_arg m).2.
Proof. reflexivity. Qed.

Lemma spread_fresh l (m : Machine World) : (spread l m).1 ∉ dom (heap m).
Proof. unfold spread; simpl. apply is_fresh. Qed.

Lemma spread_copy l (m : Machine World) :
  heap (spread l m).2 !!! (spread l m).1 = heap m !!! l.
Proof. unfold spread; simpl. by rewrite lookup_total_insert_eq. Qed.

Lemma spread_frame l l' (m : Machine World) :
  l' ∈ dom (heap m) -> heap (spread l m).2 !! l' = heap m !! l'.
Proof.
  intros Hl. unfold spread; simpl. rewrite lookup_insert_ne; [done|].
  intros <-. by apply (is_fresh (dom (heap m))).
Qed.

(** C2. When a turn of a call of [runAgent] produces no tool call, the call
    returns the text of that turn's generation, and the working history has
    gained one message in that turn: the assistant message the provider
    finalized. *)
Theorem terminal_turn_returns_its_text
    n fuel model messages_arg systemPrompt_arg customTools m0 m events result w1 :
  turnOfRun n model messages_arg systemPrompt_arg customTools m0 = Some m ->
  generationOf model messages_arg systemPrompt_arg customTools m0 m
    = (Completed events result, w1) ->
  issued events = [] ->
  (n < fuel)%nat ->
  let working := messages (contextOf messages_arg systemPrompt_arg customTools m0) in
  exists m',
    runAgent fuel model messages_arg systemPrompt_arg customTools m0
      = Returned (textOf events) m' /\
    heap m' !!! working = heap m !!! working ++ [Assistant result] /\
    world m' = w1.
Proof.
  intros Hat Hgen Hnone Hfuel working.
  unfold turnOfRun in Hat. unfold generationOf in Hgen.
  set (context := contextOf messages_arg systemPrompt_arg customTools m0) in *.
  set (allTools := codingTools ++ customTools) in *.
  pose proof (turn_completed model context (toolDefsOf allTools) (toolHandlersOf allTools)
                m events result w1 Hgen) as Ht. simpl in Ht. rewrite Hnone in Ht.
  eexists. split; [|split].
  - rewrite runAgent_turns. fold allTools context.
    replace fuel with (n + S (fuel - S n))%nat by lia.
    rewrite (turns_from _ _ _ _ _ _ _ _ Hat). simpl. by rewrite Ht.
  - by rewrite push_work.
  - reflexivity.
Qed.

(** A generation that fails appends nothing: the error leaves the call with
    the working history as the turn found it. *)
Lemma failed_generation_appends_nothing
    n fuel model messages_arg systemPrompt_arg customTools m0 m e w1 :
  turnOfRun n model messages_arg systemPrompt_arg customTools m0 = Some m ->
  generationOf model messages_arg systemPrompt_arg customTools m0 m = (Failed e, w1) ->
  (n < fuel)%nat ->
  runAgent fuel model messages_arg systemPrompt_arg customTools m0
    = Threw e {| heap := heap m; world := w1 |}.
Proof.
  intros Hat Hgen Hfuel. unfold turnOfRun in Hat. unfold generationOf in Hgen.
  rewrite runAgent_turns.
  replace fuel with (n + S (fuel - S n))%nat by lia.
  rewrite (turns_from _ _ _ _ _ _ _ _ Hat). simpl.
  by rewrite (turn_failed _ _ _ _ _ _ _ Hgen).
Qed.

(** A call returns only from a turn without tool calls, and every turn before
    that one had some. *)
Lemma returned_inv fuel model messages_arg systemPrompt_arg customTools m0 text m' :
  runAgent fuel model messages_arg systemPrompt_arg customTools m0 = Returned text m' ->
  exists n m events result w1,
    (n < fuel)%nat /\
    turnOfRun n model messages_arg systemPrompt_arg customTools m0 = Some m /\
    generationOf model messages_arg systemPrompt_arg customTools m0 m
      = (Completed events result, w1) /\
    issued events = [] /\
    text = textOf events /\
    forall k, (k < n)%nat ->
      exists mk events_k result_k wk,
        turnOfRun k model messages_arg systemPrompt_arg customTools m0 = Some mk /\
        generationOf model messages_arg systemPrompt_arg customTools m0 mk
          = (Completed events_k result_k, wk) /\
        issued events_k <> [].
Proof.
  rewrite runAgent_turns. intros Hret.
  destruct (turns_returned_inv _ _ _ _ _ _ _ _ Hret) as (n & m & Hn & Hat & Hturn).
  destruct (turn_return_inv _ _ _ _ _ _ _ Hturn) as (events & result & w1 & Hg & Hi & Ht & _).
  exists n, m, events, result, w1. repeat split; try done.
  intros k Hk.
  destruct (atTurn_earlier _ _ _ _ _ _ _ _ Hat Hk) as (mk & mk' & Hatk & Hagain).
  destruct (turn_again_inv _ _ _ _ _ _ Hagain) as (ek & rk & wk & Hgk & Hik & _).
  by exists mk, ek, rk, wk.
Qed.

(** C10. The string a call of [runAgent] returns is the text of the
    generation of its last turn, the one without tool calls, and of that
    generation only: every earlier turn of the call issued tool calls, and
    whatever text came with them is not part of the returned string. *)
Theorem returned_text_is_last_turn_only
    fuel model messages_arg systemPrompt_arg customTools m0 text m' :
  runAgent fuel model messages_arg systemPrompt_arg customTools m0 = Returned text m' ->
  exists n m events result w1,
    turnOfRun n model messages_arg systemPrompt_arg customTools m0 = Some m /\
    generationOf model messages_arg systemPrompt_arg customTools m0 m
      = (Completed events result, w1) /\
    issued events = [] /\
    text = textOf events /\
    forall k, (k < n)%nat ->
      exists mk events_k result_k wk,
        turnOfRun k model messages_arg systemPrompt_arg customTools m0 = Some mk /\
        generationOf model messages_arg systemPrompt_arg customTools m0 mk
          = (Completed events_k result_k, wk) /\
        issued events_k <> [].
Proof.
  intros Hret.
  destruct (returned_inv _ _ _ _ _ _ _ _ Hret)
    as (n & m & events & result & w1 & _ & H1 & H2 & H3 & H4 & H5).
  by exists n, m, events, result, w1.
Qed.

(** C9. A call of [runAgent] leaves the caller's [messages] array as it found
    it, whatever the outcome: the assistant messages and tool results of the
    run go to a copy allocated by the call, which starts as the caller's
    history, and no array that existed before the call is written. *)
Theorem caller_history_untouched
    fuel model messages_arg systemPrompt_arg customTools m history :
  heap m !! messages_arg = Some history ->
  let after := machineOf (runAgent fuel model messages_arg systemPrompt_arg customTools m) in
  let working := messages (contextOf messages_arg systemPrompt_arg customTools m) in
  heap after !! messages_arg = Some history /\
  (working ∉ dom (heap m)) /\
  (exists appended, heap after !!! working = history ++ appended) /\
  (forall l, l ∈ dom (heap m) -> heap after !! l = heap m !! l).
Proof.
  intros Hm after working.
  pose proof (spread_fresh messages_arg m) as Hfresh.
  assert (Hframe : forall l, l ∈ dom (heap m) -> heap after !! l = heap m !! l).
  { intros l Hl. subst after. rewrite runAgent_turns.
    destruct (turns_extends model (contextOf messages_arg systemPrompt_arg customTools m)
                (toolDefsOf (codingTools ++ customTools))
                (toolHandlersOf (codingTools ++ customTools)) fuel
                (spread messages_arg m).2) as [_ Hfr].
    rewrite Hfr; [by apply spread_frame|]. simpl. intros ->. by apply Hfresh. }
  split; [|split; [|split]].
  - rewrite Hframe; [done|]. apply elem_of_dom. by exists history.
  - exact Hfresh.
  - subst after. rewrite runAgent_turns.
    destruct (turns_extends model (contextOf messages_arg systemPrompt_arg customTools m)
                (toolDefsOf (codingTools ++ customTools))
                (toolHandlersOf (codingTools ++ customTools)) fuel
                (spread messages_arg m).2) as [[xs Hxs] _].
    exists xs. subst working. unfold contextOf in Hxs |- *. cbn [messages] in Hxs |- *.
    rewrite Hxs, spread_copy.
    by rewrite (lookup_total_correct _ _ _ Hm).
  - exact Hframe.
Qed.

(** *** Further properties of [runAgent] *)

Lemma answered_toolResults toolDefs toolHandlers w tcs xs w' :
  answered toolDefs toolHandlers w tcs xs w' -> Forall isToolResult xs.
Proof.
  induction 1 as [|w tc x w1 tcs xs w2 Hx _ IH]; constructor; [|done].
  destruct Hx as (r & -> & _). by exists r.
Qed.

Lemma turnBlocks_app xs ys : turnBlocks xs -> turnBlocks ys -> turnBlocks (xs ++ ys).
Proof.
  induction 1 as [|a results rest Hres _ IH]; intros Hys; [done|].
  cbn. rewrite <- app_assoc. constructor; [done | by apply IH].
Qed.

Lemma turns_blocks model context toolDefs toolHandlers fuel : forall m,
  exists appended,
    heap (machineOf (turns model context toolDefs toolHandlers fuel m)) !!! messages context
      = heap m !!! messages context ++ appended /\
    turnBlocks appended /\
    (forall text m',
       turns model context toolDefs toolHandlers fuel m = Returned text m' ->
       exists earlier a, appended = earlier ++ [Assistant a]).
Proof.
  induction fuel as [|fuel IH]; intros m; cbn [turns].
  - exists []. rewrite app_nil_r. split_and!; [done|constructor|done].
  - destruct (stream model (systemPrompt context) (heap m !!! messages context)
                (tools context) (world m)) as [[events result|e] w1] eqn:Hg.
    + rewrite (turn_completed _ _ toolDefs toolHandlers _ _ _ _ Hg). cbn zeta.
      destruct (issued events) as [|tc tcs] eqn:Hi.
      * exists [Assistant result]. cbn [machineOf]. rewrite push_work. cbn [heap].
        split_and!; [done| |].
        -- apply (turnBlocks_turn result [] []); constructor.
        -- intros text m' _. by exists [], result.
      * rewrite <- Hi.
        set (m2 := push (messages context) (Assistant result)
                     {| heap := heap m; world := w1 |}).
        destruct (runToolCalls_spec context toolDefs toolHandlers (issued events) m2)
          as (xs & Hxs & _ & Hans).
        destruct (runToolCalls context toolDefs toolHandlers m2 (issued events))
          as [m3|e m3]; cbn [stepMachine] in Hxs.
        -- destruct (IH m3) as (rest & Hrest & Hblocks & Hlast).
           exists (Assistant result :: xs ++ rest). split_and!.
           ++ rewrite Hrest, Hxs. subst m2. rewrite push_work. cbn [heap].
              by rewrite <- !app_assoc.
           ++ constructor; [by eapply answered_toolResults | done].
           ++ intros text m' Hret. destruct (Hlast text m' Hret) as (earlier & a & ->).
              exists (Assistant result :: xs ++ earlier), a. cbn. by rewrite <- app_assoc.
        -- destruct Hans as (before & tc' & after & w & _ & Hbefore & _).
           exists (Assistant result :: xs). cbn [machineOf]. split_and!.
           ++ rewrite Hxs. subst m2. rewrite push_work. cbn [heap].
              by rewrite <- !app_assoc.
           ++ rewrite <- (app_nil_r xs).
              constructor; [by eapply answered_toolResults | constructor].
           ++ done.
    + rewrite (turn_failed _ _ toolDefs toolHandlers _ _ _ Hg). cbn [machineOf heap].
      exists []. rewrite app_nil_r. split_and!; [done|constructor|done].
Qed.

Lemma runAgent_frame fuel model messages_arg systemPrompt_arg customTools m l :
  l ∈ dom (heap m) ->
  heap (machineOf (runAgent fuel model messages_arg systemPrompt_arg customTools m)) !! l
  = heap m !! l.
Proof.
  intros Hl. rewrite runAgent_turns.
  destruct (turns_extends model (contextOf messages_arg systemPrompt_arg customTools m)
              (toolDefsOf (codingTools ++ customTools))
              (toolHandlersOf (codingTools ++ customTools)) fuel
              (spread messages_arg m).2) as [_ Hfr].
  rewrite Hfr; [by apply spread_frame|]. cbn. intros ->.
  by apply (spread_fresh messages_arg m).
Qed.

Lemma working_history_blocks_aux fuel model messages_arg systemPrompt_arg customTools m :
  exists appended,
    heap (machineOf (runAgent fuel model messages_arg systemPrompt_arg customTools m))
      !!! messages (contextOf messages_arg systemPrompt_arg customTools m)
    = heap m !!! messages_arg ++ appended /\
    turnBlocks appended.
Proof.
  rewrite runAgent_turns.
  destruct (turns_blocks model (contextOf messages_arg systemPrompt_arg customTools m)
              (toolDefsOf (codingTools ++ customTools))
              (toolHandlersOf (codingTools ++ customTools)) fuel
              (spread messages_arg m).2) as (appended & Hw & Hb & _).
  exists appended. split; [|done].
  rewrite Hw. unfold contextOf. cbn [messages]. by rewrite spread_copy.
Qed.

(** X6. Whatever the outcome of a call of [runAgent], its working history is
    the caller's history followed by whole turns: each an assistant message
    followed by tool results only, so that no tool result stands without the
    assistant message of its turn before it; and when the call returns, the
    last message is an assistant message. *)
Theorem working_history_is_made_of_turns
    fuel model messages_arg systemPrompt_arg customTools m :
  let out := runAgent fuel model messages_arg systemPrompt_arg customTools m in
  let working := messages (contextOf messages_arg systemPrompt_arg customTools m) in
  exists appended,
    heap (machineOf out) !!! working = heap m !!! messages_arg ++ appended /\
    turnBlocks appended /\
    (forall text m', out = Returned text m' ->
       exists earlier a, appended = earlier ++ [Assistant a]).
Proof.
  intros out working. subst out. rewrite runAgent_turns.
  destruct (turns_blocks model (contextOf messages_arg systemPrompt_arg customTools m)
              (toolDefsOf (codingTools ++ customTools))
              (toolHandlersOf (codingTools ++ customTools)) fuel
              (spread messages_arg m).2) as (appended & Hw & Hb & Hlast).
  exists appended. split_and!; [|done|done].
  subst working. rewrite Hw. unfold contextOf. cbn [messages].
  by rewrite spread_copy.
Qed.

Lemma toolHandlersOf_snoc (l : list (AgentTool World)) t :
  toolHandlersOf (l ++ [t]) = <[name t := t]> (toolHandlersOf l).
Proof. unfold toolHandlersOf. by rewrite foldl_app. Qed.

Lemma toolHandlersOf_lookup (l : list (AgentTool World)) n :
  toolHandlersOf l !! n = last (filter (fun t => name t = n) l).
Proof.
  induction l as [|t l IH] using rev_ind; [done|].
  rewrite toolHandlersOf_snoc, filter_app, filter_cons, filter_nil.
  destruct (decide (name t = n)) as [<-|Hne].
  - rewrite lookup_insert_eq. by rewrite last_snoc.
  - rewrite lookup_insert_ne by done. by rewrite app_nil_r.
Qed.

(** X7. Tools are dispatched by name to the tool registered last: the handler
    found for a name is the last tool of that name in the merged list, so a
    custom tool takes the place of a built-in one of the same name, and a
    name no tool carries has no handler. *)
Theorem last_registered_tool_handles (customTools : list (AgentTool World)) n :
  toolHandlersOf (codingTools ++ customTools) !! n =
  match last (filter (fun t => name t = n) customTools) with
  | Some t => Some t
  | None => last (filter (fun t => name t = n) codingTools)
  end.
Proof.
  rewrite toolHandlersOf_lookup, filter_app.
  destruct (filter (fun t => name t = n) customTools) as [|t l] using rev_ind.
  - by rewrite app_nil_r.
  - by rewrite app_assoc, !last_snoc.
Qed.

(** X24. In a turn of a call of [runAgent] in which the model issued tool
    calls, and with tools that never reject with [undefined] or [null], the
    working history gains the assistant message followed by one tool result
    per call, in the order of the calls; a result answers its call (same id
    and tool name) and carries the error flag exactly when the tool is
    unknown, the arguments do not validate, or execution fails; the loop
    goes on to the next turn, and whatever the call does afterwards, these
    messages stay in its working history. *)
Theorem tool_calls_answered_unless_bare_rejection
    n fuel model messages_arg systemPrompt_arg customTools m0 m events result w1 :
  Forall rejectsWithReason (codingTools ++ customTools) ->
  turnOfRun n model messages_arg systemPrompt_arg customTools m0 = Some m ->
  generationOf model messages_arg systemPrompt_arg customTools m0 m
    = (Completed events result, w1) ->
  issued events <> [] ->
  (n < fuel)%nat ->
  let working := messages (contextOf messages_arg systemPrompt_arg customTools m0) in
  let allTools := codingTools ++ customTools in
  exists xs m' later,
    turnOfRun (S n) model messages_arg systemPrompt_arg customTools m0 = Some m' /\
    heap m' !!! working = heap m !!! working ++ Assistant result :: xs /\
    length xs = length (issued events) /\
    answered (toolDefsOf allTools) (toolHandlersOf allTools)
      w1 (issued events) xs (world m') /\
    heap (machineOf (runAgent fuel model messages_arg systemPrompt_arg customTools m0))
      !!! working
    = heap m' !!! working ++ later.
Proof.
  intros Htools Hat Hgen Hne Hfuel working allTools. subst allTools.
  unfold turnOfRun in *. unfold generationOf in Hgen.
  set (context := contextOf messages_arg systemPrompt_arg customTools m0) in *.
  set (allTools := codingTools ++ customTools) in *.
  pose proof (turn_completed model context (toolDefsOf allTools) (toolHandlersOf allTools)
                m events result w1 Hgen) as Ht. cbn zeta in Ht.
  destruct (issued events) as [|tc tcs] eqn:Hi; [done|]. rewrite <- Hi in *.
  set (m2 := push (messages context) (Assistant result) {| heap := heap m; world := w1 |}) in *.
  destruct (runToolCalls_spec context (toolDefsOf allTools) (toolHandlersOf allTools)
              (issued events) m2) as (xs & Hw & _ & Hans).
  destruct (runToolCalls context (toolDefsOf allTools) (toolHandlersOf allTools)
              m2 (issued events)) as [m3|e m3]; cbn [stepMachine] in Hw.
  - assert (Hnext : atTurn model context (toolDefsOf allTools) (toolHandlersOf allTools)
                      (S n) (spread messages_arg m0).2 = Some m3).
    { rewrite (atTurn_next _ _ _ _ _ _ _ Hat). by rewrite Ht. }
    destruct (turns_extends model context (toolDefsOf allTools) (toolHandlersOf allTools)
                (fuel - S n) m3) as [[later Hlater] _].
    exists xs, m3, later. split_and!.
    + exact Hnext.
    + subst working. rewrite Hw. subst m2. rewrite push_work. cbn [heap].
      by rewrite <- app_assoc.
    + clear -Hans. induction Hans; simpl; congruence.
    + exact Hans.
    + rewrite runAgent_turns. fold allTools context.
      replace fuel with (S n + (fuel - S n))%nat by lia.
      rewrite (turns_from _ _ _ _ _ _ _ _ Hnext). exact Hlater.
  - exfalso.
    destruct Hans as (before & tc' & after & w & _ & _ &
                      (handler & validated & err & Hh & _ & Hex & Hmsg)).
    rewrite toolHandlersOf_lookup in Hh.
    apply last_Some_elem_of, list_elem_of_filter in Hh as [_ Hin].
    rewrite Forall_forall in Htools.
    destruct (Htools handler Hin _ _ _ _ _ Hex) as [e' ->]. done.
Qed.

Lemma elem_of_map {A B : Type} (f : A -> B) (l : list A) (y : B) :
  y ∈ map f l <-> exists x, f x = y /\ x ∈ l.
Proof.
  rewrite list_elem_of_In, in_map_iff.
  split; intros (x & Hx & Hl); exists x; by rewrite ?list_elem_of_In in *.
Qed.

Lemma toolHandlersOf_unknown (allTools : list (AgentTool World)) n :
  n ∉ map t_name (toolDefsOf allTools) -> toolHandlersOf allTools !! n = None.
Proof.
  intros Hn. rewrite toolHandlersOf_lookup.
  destruct (filter (fun t => name t = n) allTools) as [|t l] eqn:Hf; [done|].
  assert (Ht : t ∈ filter (fun t => name t = n) allTools).
  { rewrite Hf. apply elem_of_cons. by left. }
  apply list_elem_of_filter in Ht as [Hname Ht]. destruct Hn.
  apply elem_of_map. eexists. split; [|apply elem_of_map; by exists t]. done.
Qed.

(** With a provider that asks for an unknown tool in every generation, the
    loop goes round for as long as it is let: after [N] turns it has reached
    turn [N], is still running, and has appended [N] generations. *)
Lemma unknown_calls_keep_running model context (allTools : list (AgentTool World)) :
  callsUnknown ->
  tools context = toolDefsOf allTools ->
  forall N m,
    exists m' appended,
      atTurn model context (toolDefsOf allTools) (toolHandlersOf allTools) N m = Some m' /\
      turns model context (toolDefsOf allTools) (toolHandlersOf allTools) N m = Running m' /\
      heap m' !!! messages context = heap m !!! messages context ++ appended /\
      generations appended = N.
Proof.
  intros Hunknown Htools. induction N as [|N IH]; intros m.
  - exists m, []. by rewrite app_nil_r.
  - destruct (Hunknown model (systemPrompt context) (heap m !!! messages context)
                (tools context) (world m)) as (tc & result & w' & Hg & Hname).
    pose proof (turn_completed model context (toolDefsOf allTools) (toolHandlersOf allTools)
                  m _ _ _ Hg) as Ht.
    cbn in Ht. unfold runToolCall in Ht.
    rewrite toolHandlersOf_unknown in Ht by by rewrite <- Htools.
    set (m2 := push (messages context) _ (push (messages context) _ _)) in Ht.
    destruct (IH m2) as (m' & appended & Hat & Hrun & Hheap & Hgen).
    eexists m', (Assistant result :: _ :: appended). cbn [atTurn turns]. rewrite Ht.
    split_and!; [done|done| |].
    + rewrite Hheap. subst m2. rewrite !push_work. cbn [heap].
      rewrite <- !app_assoc. reflexivity.
    + cbn. by rewrite Hgen.
Qed.

(** X8. A cron run works on an array of its own that starts with the prompt
    as its one user message and then holds whole turns; no array that existed
    before the run, no session's history among them, is read into it or
    written. *)
Theorem cron_run_is_isolated fuel model prompt customTools m :
  let after := machineOf (runCronPrompt fuel model prompt customTools m) in
  (forall l, l ∈ dom (heap m) -> heap after !! l = heap m !! l) /\
  exists working appended,
    (working ∉ dom (heap m)) /\
    heap after !!! working = User (UString prompt) (Date_now (world m)) :: appended /\
    turnBlocks appended.
Proof.
  intros after. subst after. unfold runCronPrompt.
  set (l0 := fresh (dom (heap m))).
  set (m1 := {| heap := <[l0 := [User (UString prompt) (Date_now (world m))]]> (heap m);
                world := world m |}).
  set (sp := js "You are a scheduled task assistant. Execute the requested task concisely.").
  assert (Hl0 : l0 ∉ dom (heap m)) by apply is_fresh.
  assert (Hsub : forall l, l ∈ dom (heap m) -> l ∈ dom (heap m1)).
  { intros l Hl. subst m1. cbn. rewrite dom_insert_L. by apply elem_of_union_r. }
  split.
  - intros l Hl. rewrite runAgent_frame by by apply Hsub.
    subst m1. cbn. rewrite lookup_insert_ne; [done|]. by intros <-.
  - destruct (working_history_blocks_aux fuel model l0 sp customTools m1)
      as (appended & Hw & Hb).
    exists (messages (contextOf l0 sp customTools m1)), appended. split_and!; [| |done].
    + intros Hin. apply (spread_fresh l0 m1). by apply Hsub.
    + rewrite Hw. subst m1. cbn [heap]. by rewrite lookup_total_insert_eq.
Qed.

(** X16. The provider is not asked again after a failure: when a generation
    fails, [runAgent] throws that error, the failing turn has appended
    nothing, and what earlier turns appended and did to the world stays. *)
Theorem provider_failure_ends_the_call
    n fuel model messages_arg systemPrompt_arg customTools m0 m e w1 :
  turnOfRun n model messages_arg systemPrompt_arg customTools m0 = Some m ->
  generationOf model messages_arg systemPrompt_arg customTools m0 m = (Failed e, w1) ->
  (n < fuel)%nat ->
  runAgent fuel model messages_arg systemPrompt_arg customTools m0
    = Threw e {| heap := heap m; world := w1 |}.
Proof. apply failed_generation_appends_nothing. Qed.

End Agent.

Lemma unusedName_unused defs : unusedName defs ∉ map t_name defs.
Proof.
  intros Hin. apply elem_of_map in Hin as (d & Hname & Hd).
  assert (Hle : (length (t_name d) <= max_list (map (fun d => length (t_name d)) defs))%nat).
  { apply max_list_elem_of_le, elem_of_map. by exists d. }
  rewrite Hname in Hle. unfold unusedName in Hle. rewrite length_replicate in Hle. lia.
Qed.

Lemma insatiable_alwaysCalls (World : Type) : alwaysCalls World insatiable.
Proof. intros model prompt history defs w. by eexists _, _, _. Qed.

Lemma insatiable_callsUnknown (World : Type) : callsUnknown World insatiable.
Proof.
  intros model prompt history defs w. eexists _, _, _. split; [reflexivity|].
  apply unusedName_unused.
Qed.

(** C8. [runAgent] puts no bound on the number of turns. For every [N] there
    is a provider, one that asks for a tool in every generation, with which
    any call goes through [N + 1] turns and is still going round: it has
    reached turn [N + 1], the working history has gained [N + 1] generations,
    and the call has not returned. And a call that does return has reached a
    turn whose generation asked for no tool. *)
Theorem no_cap_on_turns :
  (forall (World : Type) (N : nat),
     exists stream,
       alwaysCalls World stream /\
       forall Date_now validateToolCall codingTools
              model messages_arg systemPrompt_arg customTools m,
         exists m' appended,
           runAgent World Date_now stream validateToolCall codingTools (S N)
             model messages_arg systemPrompt_arg customTools m = Running m' /\
           turnOfRun World Date_now stream validateToolCall codingTools (S N)
             model messages_arg systemPrompt_arg customTools m = Some m' /\
           heap m' !!! messages (contextOf World codingTools
                                   messages_arg systemPrompt_arg customTools m)
           = heap m !!! messages_arg ++ appended /\
           generations appended = S N) /\
  (forall (World : Type) Date_now stream validateToolCall codingTools
          fuel model messages_arg systemPrompt_arg customTools m text m',
     runAgent World Date_now stream validateToolCall codingTools fuel
       model messages_arg systemPrompt_arg customTools m = Returned text m' ->
     exists n mn events result w1,
       turnOfRun World Date_now stream validateToolCall codingTools n
         model messages_arg systemPrompt_arg customTools m = Some mn /\
       generationOf World stream codingTools
         model messages_arg systemPrompt_arg customTools m mn
         = (Completed events result, w1) /\
       issued events = []).
Proof.
  split.
  - intros World N. exists insatiable. split; [apply insatiable_alwaysCalls|].
    intros.
    destruct (unknown_calls_keep_running World Date_now insatiable validateToolCall
                model (contextOf World codingTools messages_arg systemPrompt_arg customTools m)
                (codingTools ++ customTools) (insatiable_callsUnknown World) eq_refl
                (S N) (spread World messages_arg m).2)
      as (m' & appended & Hat & Hrun & Hheap & Hgen).
    exists m', appended. rewrite runAgent_turns. unfold turnOfRun.
    split_and!; [done|done| |done].
    rewrite Hheap. unfold contextOf. cbn [messages]. by rewrite spread_copy.
  - intros World Date_now stream validateToolCall codingTools
           fuel model messages_arg systemPrompt_arg customTools m text m' Hret.
    destruct (returned_inv _ _ _ _ _ _ _ _ _ _ _ _ _ Hret)
      as (n & mn & events & result & w1 & _ & H1 & H2 & H3 & _).
    by exists n, mn, events, result, w1.
Qed.

(** ** Properties of the renderer *)

Section Renderer.

Variable chat mid : Z.

Lemma editMessage_cases now answer newText force r :
  editMessage chat mid now answer newText force r =
  if editsWhen now newText force r then
    let call := EditMessageText chat mid (orDots (displayText newText)) in
    match answer with
    | Resolved _ =>
        Normal (setLastEdit now newText (show (orDots (displayText newText)) (issue call r)))
    | Rejected e =>
        Normal (if notModified e then issue call r
                else warn (js "Edit failed: " ++ interpolate (message e)) (issue call r))
    end
  else Normal r.
Proof.
  unfold editMessage, editsWhen.
  destruct (negb _ && _); [|done].
  destruct answer as [[]|e]; simpl; [done|]. by destruct (notModified e).
Qed.

Lemma editMessage_Normal now answer newText force r :
  exists r', editMessage chat mid now answer newText force r = Normal r'.
Proof.
  rewrite editMessage_cases. destruct (editsWhen _ _ _ _); [|by eexists].
  destruct answer; by eexists.
Qed.

Lemma editMessage_fullText now answer newText force r :
  fullText (stateOf (editMessage chat mid now answer newText force r)) = fullText r /\
  currentToolIndicator (stateOf (editMessage chat mid now answer newText force r))
    = currentToolIndicator r.
Proof.
  rewrite editMessage_cases. destruct (editsWhen _ _ _ _); [|done].
  destruct answer as [|e]; [done|]. by destruct (notModified e).
Qed.

Lemma editMessage_consistent now answer newText force r :
  consistent r -> consistent (stateOf (editMessage chat mid now answer newText force r)).
Proof.
  intros Hc. rewrite editMessage_cases. destruct (editsWhen _ _ _ _); [|done].
  destruct answer as [|e]; [done|]. by destruct (notModified e).
Qed.

Lemma onStreamEvent_Normal a r :
  exists r', onStreamEvent chat mid a r = Normal r'.
Proof.
  unfold onStreamEvent. destruct (event a); try apply editMessage_Normal; [|by eexists].
  destruct (fullText _); [by eexists | apply editMessage_Normal].
Qed.

Lemma onStreamEvent_fullText a r :
  fullText (stateOf (onStreamEvent chat mid a r)) = textAfter [a] (fullText r).
Proof.
  unfold onStreamEvent, textAfter. simpl. destruct (event a); simpl; try done.
  - by rewrite (proj1 (editMessage_fullText _ _ _ _ _)).
  - by rewrite (proj1 (editMessage_fullText _ _ _ _ _)).
  - destruct (fullText r) eqn:Hf; simpl; [done|].
    by rewrite (proj1 (editMessage_fullText _ _ _ _ _)).
Qed.

Lemma onStreamEvent_consistent a r :
  consistent r -> consistent (stateOf (onStreamEvent chat mid a r)).
Proof.
  intros Hc. unfold onStreamEvent.
  destruct (event a); simpl; try (by apply editMessage_consistent); [|done].
  destruct (fullText r); simpl; [done|]. by apply editMessage_consistent.
Qed.

Lemma onStreamEvents_Normal arrivals : forall r,
  exists r', onStreamEvents chat mid arrivals r = Normal r' /\
             fullText r' = textAfter arrivals (fullText r).
Proof.
  induction arrivals as [|a rest IH]; intros r; simpl; [by exists r|].
  destruct (onStreamEvent_Normal a r) as [r1 H1].
  pose proof (onStreamEvent_fullText a r) as Hf. rewrite H1 in Hf |- *. simpl in Hf |- *.
  destruct (IH r1) as (r' & H' & Ht). exists r'. split; [done|].
  rewrite Ht, Hf. reflexivity.
Qed.

Lemma onStreamEvents_consistent arrivals : forall r,
  consistent r -> consistent (stateOf (onStreamEvents chat mid arrivals r)).
Proof.
  induction arrivals as [|a rest IH]; intros r Hc; simpl; [done|].
  destruct (onStreamEvent_Normal a r) as [r1 H1].
  pose proof (onStreamEvent_consistent a r Hc) as Hc1. rewrite H1 in Hc1 |- *.
  simpl. by apply IH.
Qed.

Lemma afterPlaceholder_consistent : consistent afterPlaceholder.
Proof. reflexivity. Qed.

Lemma displayText_short text :
  text <> [] -> len text <= 4000 -> orDots (displayText text) = text.
Proof.
  intros Hne Hlen. unfold displayText.
  destruct (4000 <? len text) eqn:Hlt; [lia|]. by destruct text.
Qed.

(** *** The chunk loop *)

Lemma slice_chunk text i : slice text i (i + 4096) = take 4096 (drop i text).
Proof. unfold slice. by replace (i + 4096 - i)%nat with 4096%nat by lia. Qed.

Lemma sendChunks_accepted answers text fuel : forall i r,
  allAccepted answers ->
  exists r',
    sendChunks fuel text answers i r = Normal r' /\
    calls r' = calls r ++ map Reply (chunkTexts fuel text i) /\
    fullText r' = fullText r /\ shown r' = shown r /\ warnings r' = warnings r.
Proof.
  induction fuel as [|fuel IH]; intros i r Hok.
  - exists r. cbn [sendChunks chunkTexts map]. by rewrite app_nil_r.
  - cbn [sendChunks chunkTexts]. destruct (i <? length text)%nat.
    + destruct (Hok i) as [id ->]. unfold ctx_reply. cbn [andThen].
      destruct (IH (i + 4096)%nat (issue (Reply (slice text i (i + 4096))) r) Hok)
        as (r' & Hrun & Hcalls & Hrest).
      exists r'. split; [done|]. split; [|done].
      rewrite Hcalls. cbn [issue calls map]. by rewrite <- app_assoc.
    + exists r. cbn [map]. by rewrite app_nil_r.
Qed.

Lemma chunkTexts_concat text fuel : forall i,
  (length text - i <= fuel)%nat -> concat (chunkTexts fuel text i) = drop i text.
Proof.
  induction fuel as [|fuel IH]; intros i Hfuel; cbn [chunkTexts].
  - rewrite drop_ge; [done | lia].
  - destruct (i <? length text)%nat eqn:Hi.
    + apply Nat.ltb_lt in Hi. cbn [concat]. rewrite IH by lia.
      rewrite slice_chunk, <- drop_drop. apply take_drop.
    + apply Nat.ltb_ge in Hi. rewrite drop_ge; [done | lia].
Qed.

Lemma chunkTexts_bounded text fuel : forall i,
  Forall (fun c => (length c <= 4096)%nat) (chunkTexts fuel text i).
Proof.
  induction fuel as [|fuel IH]; intros i; cbn [chunkTexts]; [constructor|].
  destruct (i <? length text)%nat; [|constructor].
  constructor; [|apply IH]. rewrite slice_chunk, length_take. lia.
Qed.


End Renderer.


(** C5, as amended. An update with the text last rendered with success is a
    no-op, forced or not. Two calls of the edit routine in a row with the
    same text issue at most one transport edit when the transport accepts the
    first of them, should it be issued. A "message is not modified" answer is
    no error: the routine completes normally and logs nothing. *)
Theorem unchanged_text_is_not_resent :
  (forall chat mid now answer force r,
     editMessage chat mid now answer (lastEditedText r) force r = Normal r) /\
  (forall chat mid r text now1 force1 now2 answer2 force2,
     let r1 := stateOf (editMessage chat mid now1 (Resolved tt) text force1 r) in
     let r2 := stateOf (editMessage chat mid now2 answer2 text force2 r1) in
     (length (calls r2) <= S (length (calls r)))%nat) /\
  (forall chat mid now e text force r,
     notModified e = true ->
     exists r',
       editMessage chat mid now (Rejected e) text force r = Normal r' /\
       warnings r' = warnings r).
Proof.
  split; [|split].
  - intros. rewrite editMessage_cases. unfold editsWhen.
    by rewrite bool_decide_eq_true_2.
  - intros chat mid r text now1 force1 now2 answer2 force2 r1 r2.
    subst r2 r1. rewrite (editMessage_cases _ _ now1).
    destruct (editsWhen now1 text force1 r).
    + cbn [stateOf]. rewrite editMessage_cases. unfold editsWhen.
      cbn [lastEditedText setLastEdit]. rewrite bool_decide_eq_true_2 by done.
      cbn. rewrite length_app. simpl. lia.
    + cbn [stateOf]. rewrite editMessage_cases.
      destruct (editsWhen now2 text force2 r); [|simpl; lia].
      destruct answer2 as [|e]; [|destruct (notModified e)];
        cbn; rewrite length_app; simpl; lia.
  - intros chat mid now e text force r Hnm. rewrite editMessage_cases.
    destruct (editsWhen now text force r); [|by eexists].
    rewrite Hnm. by eexists.
Qed.

(** X25. From a renderer whose live message holds what was last rendered,
    with a non-empty accumulated text: when tool-start is followed at once by
    tool-end and the transport accepts the edit made at tool-end, the
    indicator is gone and the live message holds the accumulated text (its
    displayed form; the text itself up to 4000 code units). *)
Theorem indicator_cleared_after_tool_end chat mid r a1 a2 name :
  consistent r ->
  fullText r <> [] ->
  event a1 = ToolStart name ->
  event a2 = ToolEnd ->
  answer a2 = Resolved tt ->
  exists r2,
    onStreamEvents chat mid [a1; a2] r = Normal r2 /\
    currentToolIndicator r2 = [] /\
    fullText r2 = fullText r /\
    shown r2 = orDots (displayText (fullText r)) /\
    (len (fullText r) <= 4000 -> shown r2 = fullText r).
Proof.
  intros Hc Hne He1 He2 Ha2.
  cbn [onStreamEvents]. unfold onStreamEvent at 1. rewrite He1.
  set (r0 := setToolIndicator (toolIndicator name) r).
  destruct (editMessage_Normal chat mid (now a1) (answer a1)
              (fullText r0 ++ currentToolIndicator r0) true r0) as [r1 H1].
  pose proof (editMessage_fullText chat mid (now a1) (answer a1)
                (fullText r0 ++ currentToolIndicator r0) true r0) as [Hf1 _].
  pose proof (editMessage_consistent chat mid (now a1) (answer a1)
                (fullText r0 ++ currentToolIndicator r0) true r0 Hc) as Hc1.
  rewrite H1 in Hf1, Hc1 |- *. cbn [stateOf andThen] in Hf1, Hc1 |- *.
  change (fullText r0) with (fullText r) in Hf1.
  unfold onStreamEvent. rewrite He2, Ha2.
  cbn [fullText setToolIndicator]. rewrite Hf1.
  destruct (fullText r) as [|c text] eqn:Hfull; [done|]. rewrite <- Hfull in *.
  rewrite editMessage_cases. unfold editsWhen.
  cbn [lastEditedText lastEditTime setToolIndicator]. rewrite orb_true_l, andb_true_r.
  assert (Hshort : forall s, shown s = orDots (displayText (fullText r)) ->
            len (fullText r) <= 4000 -> shown s = fullText r).
  { intros s Hs Hlen. rewrite Hs. by apply displayText_short. }
  destruct (bool_decide (fullText r = lastEditedText r1)) eqn:Hsame; cbn.
  - apply bool_decide_eq_true_1 in Hsame.
    assert (Hs : shown (setToolIndicator [] r1) = orDots (displayText (fullText r))).
    { cbn. rewrite Hsame. exact Hc1. }
    eexists. split; [reflexivity|]. cbn [currentToolIndicator fullText setToolIndicator].
    repeat split; try done. by apply Hshort.
  - eexists. split; [reflexivity|]. cbn. repeat split; try done.
    intros Hlen. by apply displayText_short.
Qed.

(** C7. A transport edit that fails is swallowed by the edit routine, which
    always completes normally. Unless the failure is the "not modified"
    signal it is logged: the log gains one line, "Edit failed: " and the
    failure's message, after the lines it held; the edit was issued, and the
    variables of the renderer and the live message are as before. The event
    loop therefore handles every event whatever the transport answers, and
    the overflow delivery goes on the same whether or not the placeholder
    could be deleted. *)
Theorem failed_edits_do_not_abort :
  (forall chat mid now answer text force r,
     exists r', editMessage chat mid now answer text force r = Normal r') /\
  (forall chat mid now e text force r,
     editsWhen now text force r = true ->
     notModified e = false ->
     exists r',
       editMessage chat mid now (Rejected e) text force r = Normal r' /\
       warnings r' = warnings r ++ [js "Edit failed: " ++ interpolate (message e)] /\
       calls r' = calls r ++ [EditMessageText chat mid (orDots (displayText text))] /\
       lastEditTime r' = lastEditTime r /\ lastEditedText r' = lastEditedText r /\
       fullText r' = fullText r /\ currentToolIndicator r' = currentToolIndicator r /\
       shown r' = shown r) /\
  (forall chat mid arrivals r,
     exists r',
       onStreamEvents chat mid arrivals r = Normal r' /\
       fullText r' = textAfter arrivals (fullText r)) /\
  (forall chat mid e answers r,
     overflowDelivery chat mid (Rejected e) answers r =
     overflowDelivery chat mid (Resolved tt) answers r).
Proof.
  split; [|split; [|split]].
  - intros. apply editMessage_Normal.
  - intros chat mid now e text force r Hgate Hnm.
    rewrite editMessage_cases, Hgate, Hnm. eexists. split; [reflexivity|].
    by split_and!.
  - intros. apply onStreamEvents_Normal.
  - intros. reflexivity.
Qed.


(** ** The properties at work on the example environment *)

(** C1. The claim fails on the code where a tool's promise is rejected with
    [undefined]: the [catch] block of the tool loop throws on reading
    [err.message], the call of [runAgent] ends with that TypeError, and of
    the four tool calls the model issued only the two before the rejected one
    have a tool result in the working history. *)
Lemma bare_rejection_aborts_the_call :
  let out := runAgent nat exDate_now exStream exValidate exCoding 5
               exModel 1%positive (js "sys") [exSilent] exMachine in
  let working := messages (contextOf nat exCoding 1%positive (js "sys") [exSilent] exMachine) in
  exists m' a r1 r2,
    generationOf nat exStream exCoding exModel 1%positive (js "sys") [exSilent] exMachine
      (spread nat 1%positive exMachine).2
    = (Completed (text_delta (js "A") :: map toolcall_end exCalls) a, 1%nat) /\
    length (issued (text_delta (js "A") :: map toolcall_end exCalls)) = 4%nat /\
    out = Threw {| message :=
                     Some (js "Cannot read properties of undefined (reading 'message')") |}
            m' /\
    heap m' !!! working
    = [User (UString (js "hi")) 0; Assistant a; ToolResult r1; ToolResult r2] /\
    toolCallId r1 = js "c1" /\ toolCallId r2 = js "c2".
Proof.
  intros out working. subst out working.
  eexists _, _, _, _. split_and!; vm_compute; reflexivity.
Qed.

Lemma exTools_rejectWithReason : Forall (rejectsWithReason nat) (exCoding ++ exCustom).
Proof.
  repeat constructor; intros id args w err w' Hex; cbv in Hex.
  - discriminate.
  - injection Hex as <- _. by eexists.
Qed.

Lemma tool_calls_answered_unless_bare_rejection_witness :
  exists xs m',
    turnOfRun nat exDate_now exStream exValidate exCoding 1
      exModel 1%positive (js "sys") exCustom exMachine = Some m' /\
    length xs = 4%nat /\
    answered nat exDate_now exValidate
      (toolDefsOf nat (exCoding ++ exCustom)) (toolHandlersOf nat (exCoding ++ exCustom))
      1%nat exCalls xs (world m').
Proof.
  destruct (tool_calls_answered_unless_bare_rejection
              nat exDate_now exStream exValidate exCoding
              0 5 exModel 1%positive (js "sys") exCustom exMachine
              (spread nat 1%positive exMachine).2
              (text_delta (js "A") :: map toolcall_end exCalls)
              (exAssistant (AText (js "A") :: map AToolCall exCalls) "toolUse" 0)
              1%nat)
    as (xs & m' & later & Hturn & _ & Hlen & Hans & _).
  - exact exTools_rejectWithReason.
  - reflexivity.
  - vm_compute. reflexivity.
  - discriminate.
  - lia.
  - exists xs, m'. split; [exact Hturn|]. split; [exact Hlen | exact Hans].
Defined.

Lemma terminal_turn_returns_its_text_witness :
  exists m',
    runAgent nat exDate_now exStream exValidate exCoding 5
      exModel 1%positive (js "sys") exCustom exMachine = Returned (js "B") m' /\
    world m' = 4%nat.
Proof.
  assert (Hturn : exists m,
            turnOfRun nat exDate_now exStream exValidate exCoding 1
              exModel 1%positive (js "sys") exCustom exMachine = Some m /\
            generationOf nat exStream exCoding
              exModel 1%positive (js "sys") exCustom exMachine m
            = (Completed [other_event (js "start"); text_delta (js "B")]
                 (exAssistant [AText (js "B")] "stop" 3), 4%nat)).
  { eexists. split; vm_compute; reflexivity. }
  destruct Hturn as (m & Hat & Hgen).
  destruct (terminal_turn_returns_its_text nat exDate_now exStream exValidate exCoding
              1 5 exModel 1%positive (js "sys") exCustom exMachine m
              [other_event (js "start"); text_delta (js "B")]
              (exAssistant [AText (js "B")] "stop" 3) 4%nat
              Hat Hgen eq_refl ltac:(lia))
    as (m' & Hret & _ & Hworld).
  exists m'. split; [exact Hret | exact Hworld].
Defined.

Lemma returned_text_is_last_turn_only_witness :
  exists events,
    issued events = [] /\ js "B" = textOf events.
Proof.
  assert (Hrun : exists m',
            runAgent nat exDate_now exStream exValidate exCoding 5
              exModel 1%positive (js "sys") exCustom exMachine = Returned (js "B") m').
  { eexists. vm_compute. reflexivity. }
  destruct Hrun as (m' & Hrun).
  destruct (returned_text_is_last_turn_only nat exDate_now exStream exValidate exCoding
              5 exModel 1%positive (js "sys") exCustom exMachine (js "B") m' Hrun)
    as (n & m & events & result & w1 & _ & _ & Hnone & Htext & _).
  exists events. split; [exact Hnone | exact Htext].
Defined.

Lemma caller_history_untouched_witness :
  heap (machineOf (runAgent nat exDate_now exStream exValidate exCoding 5
                     exModel 1%positive (js "sys") exCustom exMachine)) !! 1%positive
  = Some [User (UString (js "hi")) 0].
Proof.
  exact (proj1 (caller_history_untouched nat exDate_now exStream exValidate exCoding
                  5 exModel 1%positive (js "sys") exCustom exMachine
                  [User (UString (js "hi")) 0] eq_refl)).
Defined.



(** C5 as stated fails: after a rejected edit the same text goes to the
    transport a second time. *)
Lemma same_text_is_sent_again_after_a_failed_edit :
  let r1 := stateOf (editMessage 1 7 1000 (Rejected exTooManyRequests) exAnswer true
                       afterPlaceholder) in
  let r2 := stateOf (editMessage 1 7 2000 (Resolved tt) exAnswer true r1) in
  calls r2 = [Reply (js "..."); EditMessageText 1 7 exAnswer; EditMessageText 1 7 exAnswer].
Proof. vm_compute. reflexivity. Qed.

Lemma unchanged_text_is_not_resent_witness :
  exists r',
    editMessage 1 7 1000 (Rejected exNotModified) exAnswer true afterPlaceholder = Normal r' /\
    warnings r' = warnings afterPlaceholder.
Proof.
  apply (proj2 (proj2 unchanged_text_is_not_resent) 1 7 1000 exNotModified exAnswer true
           afterPlaceholder).
  vm_compute. reflexivity.
Defined.

Lemma failed_edits_do_not_abort_witness :
  exists r',
    editMessage 1 7 1000 (Rejected exTooManyRequests) exAnswer true afterPlaceholder
    = Normal r' /\
    warnings r' = [js "Edit failed: Too Many Requests: retry after 3"] /\
    shown r' = js "...".
Proof.
  destruct (proj1 (proj2 failed_edits_do_not_abort) 1 7 1000 exTooManyRequests exAnswer true
              afterPlaceholder)
    as (r' & Hrun & Hwarn & _ & _ & _ & _ & _ & Hshown).
  - vm_compute. reflexivity.
  - vm_compute. reflexivity.
  - exists r'. split; [exact Hrun|]. split; [exact Hwarn | exact Hshown].
Defined.

(** C6. The claim fails on the code where no text has been accumulated yet:
    the edit that the comment at tool-end announces ("Force an edit to clear
    the tool indicator") stands under [if (fullText)], so tool-start followed
    at once by tool-end leaves the indicator in the live message, which held
    the placeholder before, although the indicator variable is empty again. *)
Lemma indicator_remains_when_no_text :
  exists r2,
    onStreamEvents 1 7
      [exArrival (ToolStart (js "search")) 1000; exArrival ToolEnd 1100]
      afterPlaceholder = Normal r2 /\
    fullText r2 = [] /\
    currentToolIndicator r2 = [] /\
    shown afterPlaceholder = js "..." /\
    shown r2 = toolIndicator (js "search") /\
    calls r2 = [Reply (js "..."); EditMessageText 1 7 (toolIndicator (js "search"))].
Proof.
  eexists. split; [vm_compute; reflexivity|]. vm_compute. repeat split.
Qed.

Lemma indicator_cleared_after_tool_end_witness :
  let r := stateOf (onStreamEvent 1 7 (exArrival (TextDelta exAnswer) 1000) afterPlaceholder) in
  exists r2,
    onStreamEvents 1 7
      [exArrival (ToolStart (js "search")) 1100; exArrival ToolEnd 1200] r = Normal r2 /\
    currentToolIndicator r2 = [] /\
    shown r2 = exAnswer.
Proof.
  intros r.
  destruct (indicator_cleared_after_tool_end 1 7 r
              (exArrival (ToolStart (js "search")) 1100) (exArrival ToolEnd 1200)
              (js "search"))
    as (r2 & Hrun & Hind & _ & _ & Hshown).
  - vm_compute. reflexivity.
  - discriminate.
  - reflexivity.
  - reflexivity.
  - reflexivity.
  - exists r2. split; [exact Hrun|]. split; [exact Hind|].
    apply Hshown. vm_compute. discriminate.
Defined.


(** ** Properties of the sessions *)

Lemma getSession_spec userId now ss h :
  let r := getSession userId now ss h in
  r.1.2 !! userId = Some r.1.1 /\
  lastActivity r.1.1 = now /\
  (forall u, u <> userId -> r.1.2 !! u = ss !! u) /\
  r.2 !!! s_messages r.1.1 = historyOf userId ss h /\
  (forall l, l ∈ dom h -> r.2 !! l = h !! l) /\
  (ss !! userId = None -> s_messages r.1.1 ∉ dom h) /\
  (forall s, ss !! userId = Some s -> s_messages r.1.1 = s_messages s /\ r.2 = h).
Proof.
  unfold getSession, historyOf. destruct (ss !! userId) as [s|] eqn:Hs; cbn.
  - rewrite lookup_insert_eq. split_and!; try done.
    + intros u Hu. by rewrite lookup_insert_ne.
    + by intros s' [= <-].
  - rewrite lookup_insert_eq, lookup_total_insert_eq. split_and!; try done.
    + intros u Hu. by rewrite lookup_insert_ne.
    + intros l Hl. rewrite lookup_insert_ne; [done|].
      intros <-. by apply (is_fresh (dom h)).
    + intros _. apply is_fresh.
Qed.

Lemma getSession_separate userId now ss h :
  separate ss h ->
  separate (getSession userId now ss h).1.2 (getSession userId now ss h).2.
Proof.
  intros [Hdom Hinj]. unfold getSession.
  destruct (ss !! userId) as [s|] eqn:Hs; cbn; split.
  - intros u s' Hu. destruct (decide (u = userId)) as [->|Hne].
    + rewrite lookup_insert_eq in Hu. injection Hu as <-. cbn. by apply (Hdom userId).
    + rewrite lookup_insert_ne in Hu by done. by apply (Hdom u).
  - intros u1 u2 s1 s2 H1 H2 Heq.
    destruct (decide (u1 = userId)) as [->|Hn1]; destruct (decide (u2 = userId)) as [->|Hn2];
      try done.
    + rewrite lookup_insert_eq in H1. rewrite lookup_insert_ne in H2 by done.
      injection H1 as <-. cbn in Heq. symmetry. by apply (Hinj u2 userId s2 s).
    + rewrite lookup_insert_eq in H2. rewrite lookup_insert_ne in H1 by done.
      injection H2 as <-. cbn in Heq. by apply (Hinj u1 userId s1 s).
    + rewrite lookup_insert_ne in H1, H2 by done. by apply (Hinj u1 u2 s1 s2).
  - intros u s' Hu. rewrite dom_insert_L. destruct (decide (u = userId)) as [->|Hne].
    + rewrite lookup_insert_eq in Hu. injection Hu as <-. cbn.
      apply elem_of_union_l, elem_of_singleton. reflexivity.
    + rewrite lookup_insert_ne in Hu by done. apply elem_of_union_r. by apply (Hdom u).
  - intros u1 u2 s1 s2 H1 H2 Heq.
    assert (Hfresh : forall u s', ss !! u = Some s' -> s_messages s' <> fresh (dom h)).
    { intros u s' Hu Hf. apply (is_fresh (dom h)). rewrite <- Hf. by apply (Hdom u). }
    destruct (decide (u1 = userId)) as [->|Hn1]; destruct (decide (u2 = userId)) as [->|Hn2];
      try done.
    + rewrite lookup_insert_eq in H1. rewrite lookup_insert_ne in H2 by done.
      injection H1 as <-. cbn in Heq. by destruct (Hfresh u2 s2 H2).
    + rewrite lookup_insert_eq in H2. rewrite lookup_insert_ne in H1 by done.
      injection H2 as <-. cbn in Heq. by destruct (Hfresh u1 s1 H1).
    + rewrite lookup_insert_ne in H1, H2 by done. by apply (Hinj u1 u2 s1 s2).
Qed.

Lemma separate_subset ss ss' h h' :
  separate ss h ->
  (forall u s, ss' !! u = Some s -> ss !! u = Some s) ->
  dom h ⊆ dom h' ->
  separate ss' h'.
Proof.
  intros [Hdom Hinj] Hsub Hh. split.
  - intros u s Hu. apply Hh. apply (Hdom u). by apply Hsub.
  - intros u1 u2 s1 s2 H1 H2. apply Hinj; by apply Hsub.
Qed.

Lemma addMessage_unfold userId message now1 now2 ss h :
  addMessage userId message now1 now2 ss h =
  let r := getSession userId now1 ss h in
  (<[userId := touch now2 r.1.1]> r.1.2,
   <[s_messages r.1.1 := (r.2 !!! s_messages r.1.1) ++ [message]]> r.2).
Proof. unfold addMessage. by destruct (getSession userId now1 ss h) as [[s ss1] h1]. Qed.

Lemma sweep_fold now (ss : gmap Z Session) (l : list (Z * Session)) :
  forall acc : gmap Z Session,
  (forall k s, (k, s) ∈ l -> ss !! k = Some s) ->
  (forall u,
     acc !! u = (ss !! u ≫= fun s =>
                   if SESSION_TIMEOUT <? now - lastActivity s then None else Some s) \/
     (acc !! u = ss !! u /\ exists s, (u, s) ∈ l)) ->
  forall u,
    foldl (fun acc entry =>
             if SESSION_TIMEOUT <? now - lastActivity entry.2
             then delete entry.1 acc else acc) acc l !! u
    = (ss !! u ≫= fun s =>
         if SESSION_TIMEOUT <? now - lastActivity s then None else Some s).
Proof.
  induction l as [|[k s] l IH]; intros acc Hl Hacc u; cbn [foldl].
  - destruct (Hacc u) as [H|[_ [s Hs]]]; [done|]. by apply elem_of_nil in Hs.
  - apply IH.
    + intros k' s' Hin. apply Hl. apply elem_of_cons. by right.
    + clear u. intros u. cbn [fst snd].
      assert (Hk : ss !! k = Some s) by (apply Hl; apply elem_of_cons; by left).
      destruct (decide (u = k)) as [->|Hne].
      * left. rewrite Hk. cbn.
        destruct (SESSION_TIMEOUT <? now - lastActivity s) eqn:Hexp.
        -- by rewrite lookup_delete_eq.
        -- destruct (Hacc k) as [H|[H _]]; rewrite H, Hk; cbn; by rewrite ?Hexp.
      * assert (Hsame : (if SESSION_TIMEOUT <? now - lastActivity s
                         then delete k acc else acc) !! u = acc !! u).
        { destruct (SESSION_TIMEOUT <? now - lastActivity s); [|done].
          by rewrite lookup_delete_ne. }
        rewrite Hsame. destruct (Hacc u) as [H|[H [s' Hs']]]; [by left|].
        right. split; [done|]. exists s'.
        apply elem_of_cons in Hs' as [[= ? ?]|Hs']; [done|done].
Qed.

Lemma sweep_lookup now ss u :
  sweep now ss !! u =
  (ss !! u ≫= fun s => if SESSION_TIMEOUT <? now - lastActivity s then None else Some s).
Proof.
  unfold sweep. apply sweep_fold.
  - intros k s Hin. by apply elem_of_map_to_list.
  - intros u'. destruct (ss !! u') as [s|] eqn:Hs; [|by left].
    right. split; [done|]. exists s. by apply elem_of_map_to_list.
Qed.

(** X1. After [addMessage] the user's history is the earlier history followed
    by the message, a session being created for a user who had none; the
    sessions and histories of all other users are as before. *)
Theorem added_message_is_last userId message now1 now2 now3 ss h :
  separate ss h ->
  let after := addMessage userId message now1 now2 ss h in
  let got := getSession userId now3 after.1 after.2 in
  got.2 !!! s_messages got.1.1 = historyOf userId ss h ++ [message] /\
  (forall u, u <> userId ->
     got.1.2 !! u = ss !! u /\ historyOf u got.1.2 got.2 = historyOf u ss h).
Proof.
  intros Hsep after got. subst got after. rewrite addMessage_unfold. cbn zeta.
  cbn [fst snd].
  destruct (getSession_spec userId now1 ss h) as (Hat & _ & Hothers & Hhist & Hframe & Hnew & Hold).
  set (r := getSession userId now1 ss h) in *.
  set (ss1 := <[userId := touch now2 r.1.1]> r.1.2).
  set (h1 := <[s_messages r.1.1 := r.2 !!! s_messages r.1.1 ++ [message]]> r.2).
  destruct (getSession_spec userId now3 ss1 h1) as (_ & _ & Hothers' & Hhist' & _ & _ & Hold').
  cbn zeta in Hothers', Hhist', Hold'.
  destruct (Hold' (touch now2 r.1.1)) as [Hloc Hstore];
    [subst ss1; by rewrite lookup_insert_eq|].
  split.
  - rewrite Hhist'. unfold historyOf. subst ss1. rewrite lookup_insert_eq. cbn.
    subst h1. by rewrite lookup_total_insert_eq, Hhist.
  - intros u Hu. assert (Hu1 : ss1 !! u = ss !! u).
    { subst ss1. rewrite lookup_insert_ne by done. by apply Hothers. }
    split; [by rewrite Hothers', Hu1|].
    unfold historyOf. rewrite Hothers', Hu1, Hstore by done.
    destruct (ss !! u) as [s|] eqn:Hs; [|done].
    destruct Hsep as [Hdom Hinj].
    assert (Hne : s_messages r.1.1 <> s_messages s).
    { destruct (ss !! userId) as [s0|] eqn:Hs0.
      - destruct (Hold s0 eq_refl) as [-> _]. intros Heq.
        apply Hu. symmetry. by apply (Hinj userId u s0 s).
      - intros Heq. apply (Hnew eq_refl). rewrite Heq. by apply (Hdom u). }
    subst h1. rewrite lookup_total_insert_ne by done.
    unfold lookup_total, map_lookup_total. rewrite Hframe; [done|]. by apply (Hdom u).
Qed.

(** X2. A session obtained before a clear is not the session obtained after
    it: the new one has a history array of its own, empty, and a message
    pushed through the old reference lands in the old array only. *)
Theorem cleared_session_is_not_resumed {World : Type}
    userId now1 now2 message ss (m : Machine World) :
  separate ss (heap m) ->
  let opened := getSession userId now1 ss (heap m) in
  let old := opened.1.1 in
  let cleared :=
    clearSession None userId (opened.1.2, {| heap := opened.2; world := world m |}) in
  let pushed :=
    <[s_messages old := (heap cleared.2 !!! s_messages old) ++ [message]]> (heap cleared.2) in
  let reopened := getSession userId now2 cleared.1 pushed in
  s_messages reopened.1.1 <> s_messages old /\
  reopened.2 !!! s_messages reopened.1.1 = [] /\
  reopened.2 !!! s_messages old = historyOf userId ss (heap m) ++ [message].
Proof.
  intros Hsep opened old cleared pushed reopened.
  destruct (getSession_spec userId now1 ss (heap m))
    as (Hat & _ & _ & Hhist & _ & _ & _).
  fold opened in Hat, Hhist. fold old in Hat, Hhist.
  assert (Hcleared : cleared = (delete userId opened.1.2,
                                {| heap := opened.2; world := world m |})).
  { subst cleared. unfold clearSession. cbn. by destruct (opened.1.2 !! userId). }
  clearbody cleared. subst cleared. cbn [fst snd heap] in pushed, reopened |- *.
  assert (Hnone : delete userId opened.1.2 !! userId = None) by apply lookup_delete_eq.
  destruct (getSession_spec userId now2 (delete userId opened.1.2) pushed)
    as (_ & _ & _ & Hhist2 & Hframe2 & Hnew2 & _).
  fold reopened in Hhist2, Hframe2, Hnew2.
  assert (Hin : s_messages old ∈ dom pushed).
  { subst pushed. rewrite dom_insert_L. apply elem_of_union_l, elem_of_singleton. done. }
  split_and!.
  - intros Heq. apply (Hnew2 Hnone). by rewrite Heq.
  - rewrite Hhist2. unfold historyOf. by rewrite Hnone.
  - unfold lookup_total, map_lookup_total. rewrite Hframe2 by done.
    subst pushed. rewrite lookup_insert_eq. cbn. by rewrite Hhist.
Qed.

(** X3. A sweep of the cleanup timer removes the sessions idle for more than
    thirty minutes and no other, leaving the rest as they are; a session used
    at most thirty minutes before the sweep survives it. *)
Theorem sweep_evicts_only_idle_sessions now ss :
  (forall u,
     sweep now ss !! u =
     match ss !! u with
     | Some s => if SESSION_TIMEOUT <? now - lastActivity s then None else Some s
     | None => None
     end) /\
  (forall userId t h,
     now - t <= 30 * 60 * 1000 ->
     sweep now (getSession userId t ss h).1.2 !! userId
     = Some (getSession userId t ss h).1.1).
Proof.
  split.
  - intros u. rewrite sweep_lookup. by destruct (ss !! u).
  - intros userId t h Hrecent. rewrite sweep_lookup.
    destruct (getSession_spec userId t ss h) as (Hat & Hnow & _).
    rewrite Hat. cbn. rewrite Hnow.
    destruct (SESSION_TIMEOUT <? now - t) eqn:Hexp; [|done].
    apply Z.ltb_lt in Hexp. unfold SESSION_TIMEOUT in Hexp. lia.
Qed.

(** X4. [clearSession] removes the user's session whatever the pre-clear hook
    does, fail included; and the hook is not run at all when the user has no
    session or an empty history. *)
Theorem clearSession_always_clears {World : Type}
    (hook : option (PreClearHook World)) userId (st : gmap Z Session * Machine World) :
  (clearSession hook userId st).1 !! userId = None /\
  (historyOf userId st.1 (heap st.2) = [] ->
   clearSession hook userId st = (delete userId st.1, st.2)).
Proof.
  split.
  - unfold clearSession. cbn. apply lookup_delete_eq.
  - unfold clearSession, historyOf. destruct (st.1 !! userId) as [s|]; [|done].
    intros ->. by destruct hook.
Qed.

(** X5. Sessions never come to share a history: starting from no session,
    [getSession], [addMessage], the eviction sweep, a clear, and any push
    onto an existing array keep every session's history array allocated and
    distinct from every other session's. *)
Theorem histories_stay_separate userId now now' message ss h :
  separate ss h ->
  separate (getSession userId now ss h).1.2 (getSession userId now ss h).2 /\
  separate (addMessage userId message now now' ss h).1
           (addMessage userId message now now' ss h).2 /\
  separate (sweep now ss) h /\
  separate (delete userId ss) h /\
  (forall l x, separate ss (<[l := (h !!! l) ++ [x]]> h)).
Proof.
  intros Hsep. split_and!.
  - by apply getSession_separate.
  - rewrite addMessage_unfold. cbn zeta. cbn [fst snd].
    pose proof (getSession_separate userId now ss h Hsep) as Hs1.
    destruct (getSession_spec userId now ss h) as (Hat & _).
    set (r := getSession userId now ss h) in *.
    destruct Hs1 as [Hdom Hinj]. split.
    + intros u s Hu. rewrite dom_insert_L. apply elem_of_union_r.
      destruct (decide (u = userId)) as [->|Hne].
      * rewrite lookup_insert_eq in Hu. injection Hu as <-. cbn.
        by apply (Hdom userId r.1.1).
      * rewrite lookup_insert_ne in Hu by done. by apply (Hdom u).
    + intros u1 u2 s1 s2 H1 H2 Heq.
      assert (Hback : forall u s, <[userId := touch now' r.1.1]> r.1.2 !! u = Some s ->
                exists s', r.1.2 !! u = Some s' /\ s_messages s' = s_messages s).
      { intros u s Hu. destruct (decide (u = userId)) as [->|Hne].
        - rewrite lookup_insert_eq in Hu. injection Hu as <-. by exists r.1.1.
        - rewrite lookup_insert_ne in Hu by done. by exists s. }
      destruct (Hback _ _ H1) as (s1' & H1' & E1). destruct (Hback _ _ H2) as (s2' & H2' & E2).
      apply (Hinj u1 u2 s1' s2' H1' H2'). congruence.
  - apply (separate_subset ss _ h); [done| |done].
    intros u s. rewrite sweep_lookup. destruct (ss !! u) as [s'|]; [|done]. cbn.
    by destruct (SESSION_TIMEOUT <? now - lastActivity s').
  - apply (separate_subset ss _ h); [done| |done].
    intros u s Hu. apply lookup_delete_Some in Hu. tauto.
  - intros l x. apply (separate_subset ss _ h); [done|done|].
    rewrite dom_insert_L. apply union_subseteq_r.
Qed.

(** ** Properties of [handleMessage] *)

Section Exchange.

Variable World : Type.
Variable Date_now : World -> Z.
Variable stream :
  ModelInfo -> jsstring -> list Message -> list Tool -> World -> Generation * World.
Variable validateToolCall : list Tool -> ToolCall -> Json + Exn.
Variable codingTools : list (AgentTool World).

Local Abbreviation runAgent' :=
  (runAgent World Date_now stream validateToolCall codingTools).
Local Abbreviation handleMessage' :=
  (handleMessage World Date_now stream validateToolCall codingTools).
Local Abbreviation push' := (push World).

Lemma handleMessage_unfold fuel model (i : Incoming World) ss m :
  handleMessage' fuel model i ss m =
  let opened := getSession (in_userId World i) (nowSession World i) ss (heap m) in
  let session := opened.1.1 in
  let asked := push' (s_messages session) (User (in_content World i) (nowUser World i))
                 {| heap := opened.2; world := world m |} in
  match runAgent' fuel model (s_messages session) (in_systemPrompt World i)
          (in_tools World i) asked with
  | Running m2 => Unfinished World opened.1.2 m2
  | Threw e m2 => Finished World opened.1.2 m2 (errorNotice e (errorAnswer World i) initial)
  | Returned response m2 =>
      match nonStreamingDelivery response (replyAnswers World i) initial with
      | Normal r =>
          Finished World opened.1.2
            (push' (s_messages session)
               (assistantMsg model response (nowAssistant World i)) m2)
            (Normal r)
      | Abrupt e r => Finished World opened.1.2 m2 (errorNotice e (errorAnswer World i) r)
      end
  end.
Proof.
  unfold handleMessage.
  by destruct (getSession (in_userId World i) (nowSession World i) ss (heap m))
    as [[session ss1] h1].
Qed.

(** The history of the session once the agent has run on it: the earlier
    history and the user's message, nothing of the run. *)
Lemma history_after_run fuel model (i : Incoming World) ss m :
  let opened := getSession (in_userId World i) (nowSession World i) ss (heap m) in
  let session := opened.1.1 in
  let asked := push' (s_messages session) (User (in_content World i) (nowUser World i))
                 {| heap := opened.2; world := world m |} in
  heap (machineOf (runAgent' fuel model (s_messages session) (in_systemPrompt World i)
                     (in_tools World i) asked)) !!! s_messages session
  = historyOf (in_userId World i) ss (heap m)
    ++ [User (in_content World i) (nowUser World i)].
Proof.
  intros opened session asked.
  destruct (getSession_spec (in_userId World i) (nowSession World i) ss (heap m))
    as (_ & _ & _ & Hhist & _).
  fold opened in Hhist. fold session in Hhist.
  unfold lookup_total, map_lookup_total. rewrite runAgent_frame.
  - subst asked. unfold push. cbn [heap]. rewrite lookup_insert_eq. cbn.
    by rewrite Hhist.
  - subst asked. unfold push. cbn [heap]. rewrite dom_insert_L.
    apply elem_of_union_l, elem_of_singleton. reflexivity.
Qed.

Lemma delivery_accepted response answers r :
  allAccepted answers ->
  exists r' chunks,
    nonStreamingDelivery response answers r = Normal r' /\
    calls r' = calls r ++ map Reply chunks /\
    concat chunks = response /\
    Forall (fun c => (length c <= 4096)%nat) chunks.
Proof.
  intros Hok. unfold nonStreamingDelivery.
  destruct (length response <=? 4096)%nat eqn:Hle.
  - apply Nat.leb_le in Hle. destruct (Hok 0%nat) as [id Hid].
    exists (issue (Reply response) r), [response]. unfold ctx_reply. rewrite Hid.
    split_and!; [done|done|cbn; by rewrite app_nil_r|constructor; [done|constructor]].
  - destruct (sendChunks_accepted answers response (length response) 0%nat r Hok)
      as (r' & Hrun & Hcalls & _).
    exists r', (chunkTexts (length response) response 0). split_and!; [done|done| |].
    + rewrite chunkTexts_concat by lia. reflexivity.
    + apply chunkTexts_bounded.
Qed.

(** X9. With streaming off, an exchange that succeeds leaves in the user's
    session the earlier history, the user's message and one assistant message
    holding the returned text: the assistant messages and tool results of the
    run itself are not kept. The replies sent are each within 4096 code
    units, and put together they are the returned text. *)
Theorem exchange_records_question_and_answer
    fuel model (i : Incoming World) ss m response m2 :
  let opened := getSession (in_userId World i) (nowSession World i) ss (heap m) in
  let session := opened.1.1 in
  let asked := push' (s_messages session) (User (in_content World i) (nowUser World i))
                 {| heap := opened.2; world := world m |} in
  runAgent' fuel model (s_messages session) (in_systemPrompt World i)
    (in_tools World i) asked = Returned response m2 ->
  allAccepted (replyAnswers World i) ->
  exists m' r chunks,
    handleMessage' fuel model i ss m = Finished World opened.1.2 m' (Normal r) /\
    opened.1.2 !! in_userId World i = Some session /\
    heap m' !!! s_messages session
    = historyOf (in_userId World i) ss (heap m)
      ++ [User (in_content World i) (nowUser World i);
          assistantMsg model response (nowAssistant World i)] /\
    calls r = map Reply chunks /\
    concat chunks = response /\
    Forall (fun c => (length c <= 4096)%nat) chunks.
Proof.
  intros opened session asked Hrun Hok.
  destruct (delivery_accepted response (replyAnswers World i) initial Hok)
    as (r & chunks & Hdel & Hcalls & Hconcat & Hbound).
  pose proof (history_after_run fuel model i ss m) as Hhist. cbn zeta in Hhist.
  fold opened in Hhist. fold session in Hhist. fold asked in Hhist.
  rewrite Hrun in Hhist. cbn [machineOf] in Hhist.
  exists (push' (s_messages session)
            (assistantMsg model response (nowAssistant World i)) m2), r, chunks.
  split_and!; try done.
  - rewrite handleMessage_unfold. cbn zeta. fold opened. fold session. fold asked.
    by rewrite Hrun, Hdel.
  - by destruct (getSession_spec (in_userId World i) (nowSession World i) ss (heap m))
      as (Hat & _).
  - rewrite push_work, Hhist. by rewrite <- app_assoc.
Qed.

(** X10. With streaming off, when the agent fails the user's message stays
    in the session and no assistant message follows it, and the only thing
    sent is one notice, "Error: " and the error's message. *)
Theorem failed_run_keeps_the_question fuel model (i : Incoming World) ss m e m2 :
  let opened := getSession (in_userId World i) (nowSession World i) ss (heap m) in
  let session := opened.1.1 in
  let asked := push' (s_messages session) (User (in_content World i) (nowUser World i))
                 {| heap := opened.2; world := world m |} in
  runAgent' fuel model (s_messages session) (in_systemPrompt World i)
    (in_tools World i) asked = Threw e m2 ->
  exists c,
    handleMessage' fuel model i ss m = Finished World opened.1.2 m2 c /\
    heap m2 !!! s_messages session
    = historyOf (in_userId World i) ss (heap m)
      ++ [User (in_content World i) (nowUser World i)] /\
    calls (stateOf c) = [Reply (js "Error: " ++ interpolate (message e))].
Proof.
  intros opened session asked Hrun.
  pose proof (history_after_run fuel model i ss m) as Hhist. cbn zeta in Hhist.
  fold opened in Hhist. fold session in Hhist. fold asked in Hhist.
  rewrite Hrun in Hhist. cbn [machineOf] in Hhist.
  exists (errorNotice e (errorAnswer World i) initial). split_and!; [|done|].
  - rewrite handleMessage_unfold. cbn zeta. fold opened. fold session. fold asked.
    by rewrite Hrun.
  - unfold errorNotice, ctx_reply. by destruct (errorAnswer World i).
Qed.

(** X11. With streaming off, when the agent returns but the transport
    rejects a reply, the returned text is not written into the session: the
    history ends with the user's message, and the error notice follows what
    was sent. *)
Theorem undelivered_answer_is_not_recorded
    fuel model (i : Incoming World) ss m response m2 e r :
  let opened := getSession (in_userId World i) (nowSession World i) ss (heap m) in
  let session := opened.1.1 in
  let asked := push' (s_messages session) (User (in_content World i) (nowUser World i))
                 {| heap := opened.2; world := world m |} in
  runAgent' fuel model (s_messages session) (in_systemPrompt World i)
    (in_tools World i) asked = Returned response m2 ->
  nonStreamingDelivery response (replyAnswers World i) initial = Abrupt e r ->
  exists c,
    handleMessage' fuel model i ss m = Finished World opened.1.2 m2 c /\
    heap m2 !!! s_messages session
    = historyOf (in_userId World i) ss (heap m)
      ++ [User (in_content World i) (nowUser World i)] /\
    calls (stateOf c) = calls r ++ [Reply (js "Error: " ++ interpolate (message e))].
Proof.
  intros opened session asked Hrun Hdel.
  pose proof (history_after_run fuel model i ss m) as Hhist. cbn zeta in Hhist.
  fold opened in Hhist. fold session in Hhist. fold asked in Hhist.
  rewrite Hrun in Hhist. cbn [machineOf] in Hhist.
  exists (errorNotice e (errorAnswer World i) r). split_and!; [|done|].
  - rewrite handleMessage_unfold. cbn zeta. fold opened. fold session. fold asked.
    by rewrite Hrun, Hdel.
  - unfold errorNotice, ctx_reply. by destruct (errorAnswer World i).
Qed.

End Exchange.

(** ** Further properties of the streaming branch *)

Lemma displayed_text_bounds text :
  (1 <= length (orDots (displayText text)) <= 4016)%nat.
Proof.
  unfold displayText, len. destruct (4000 <? Z.of_nat (length text)) eqn:Hlong.
  - apply Z.ltb_lt in Hlong.
    assert (Hlen : length (slice_last text 4000 ++ nl ++ nl ++ js "[...truncated]")
                   = 4016%nat).
    { unfold slice_last. rewrite !length_app, length_drop. cbn [length nl].
      change (length (js "[...truncated]")) with 14%nat. lia. }
    destruct (slice_last text 4000 ++ nl ++ nl ++ js "[...truncated]") eqn:Hd;
      [cbn in Hlen; lia|]. cbn [orDots]. rewrite Hlen. lia.
  - apply Z.ltb_ge in Hlong. destruct text as [|c text]; cbn [orDots].
    + change (length (js "...")) with 3%nat. lia.
    + cbn [length] in Hlong |- *. lia.
Qed.

Lemma editMessage_limits chat mid now answer newText force r :
  Forall withinLimits (calls r) ->
  Forall withinLimits (calls (stateOf (editMessage chat mid now answer newText force r))).
Proof.
  intros Hr. rewrite editMessage_cases. destruct (editsWhen _ _ _ _); [|done].
  assert (Hnew : Forall withinLimits
            (calls r ++ [EditMessageText chat mid (orDots (displayText newText))])).
  { apply Forall_app. split; [done|]. constructor; [|constructor].
    cbn. pose proof (displayed_text_bounds newText). lia. }
  destruct answer as [|e]; [done|]. by destruct (notModified e).
Qed.

Lemma onStreamEvent_limits chat mid a r :
  Forall withinLimits (calls r) ->
  Forall withinLimits (calls (stateOf (onStreamEvent chat mid a r))).
Proof.
  intros Hr. unfold onStreamEvent.
  destruct (event a); try (by apply editMessage_limits); [|done].
  cbn [fullText setToolIndicator]. destruct (fullText r) eqn:Hf; [done|].
  rewrite <- Hf. by apply editMessage_limits.
Qed.

Lemma onStreamEvents_limits chat mid arrivals : forall r,
  Forall withinLimits (calls r) ->
  Forall withinLimits (calls (stateOf (onStreamEvents chat mid arrivals r))).
Proof.
  induction arrivals as [|a rest IH]; intros r Hr; cbn [onStreamEvents]; [done|].
  destruct (onStreamEvent_Normal chat mid a r) as [r1 H1].
  pose proof (onStreamEvent_limits chat mid a r Hr) as Hl. rewrite H1 in Hl |- *.
  cbn [andThen]. by apply IH.
Qed.

Lemma sendChunks_limits text answers fuel : forall i r,
  Forall withinLimits (calls r) ->
  Forall withinLimits (calls (stateOf (sendChunks fuel text answers i r))).
Proof.
  induction fuel as [|fuel IH]; intros i r Hr; cbn [sendChunks]; [done|].
  destruct (i <? length text)%nat eqn:Hi; [|done].
  apply Nat.ltb_lt in Hi.
  assert (Hnew : Forall withinLimits (calls (issue (Reply (slice text i (i + 4096))) r))).
  { cbn [issue calls]. apply Forall_app. split; [done|]. constructor; [|constructor].
    cbn. rewrite slice_chunk, length_take, length_drop. lia. }
  unfold ctx_reply. destruct (answers i); cbn [andThen stateOf]; [|done].
  by apply IH.
Qed.

(** X12. Every text the streaming branch hands to the transport, be it the
    placeholder, an edit of the live message or a chunk of the overflow
    delivery, has between 1 and 4096 code units, whatever the events and
    whatever the transport answers. *)
Theorem streaming_calls_are_within_limits q :
  Forall withinLimits (calls (stateOf (streamingMode q))).
Proof.
  assert (H0 : Forall withinLimits (calls (issue (Reply (js "...")) initial))).
  { cbn. constructor; [|constructor]. cbn. lia. }
  unfold streamingMode. destruct (placeholder q) as [id|e]; [|done].
  destruct (onStreamEvents_Normal (chatId q) id (arrivals q)
              (show (js "...") (issue (Reply (js "...")) initial))) as (r1 & H1 & _).
  pose proof (onStreamEvents_limits (chatId q) id (arrivals q)
                (show (js "...") (issue (Reply (js "...")) initial)) H0) as Hl.
  rewrite H1 in Hl |- *. cbn [andThen stateOf] in Hl |- *.
  destruct (generatorError q); [done|].
  unfold finish, finalEdit.
  destruct (editMessage_Normal (chatId q) id (finalNow q) (finalAnswer q) (fullText r1)
              true r1) as [r2 H2].
  pose proof (editMessage_limits (chatId q) id (finalNow q) (finalAnswer q) (fullText r1)
                true r1 Hl) as Hl2.
  rewrite H2 in Hl2 |- *. cbn [andThen stateOf] in Hl2 |- *.
  unfold overflowDelivery. destruct (4096 <? length (fullText r2))%nat; [|done].
  assert (Hdel : tryCatch (api_deleteMessage (chatId q) id (deleteAnswer q) r2)
                   (fun _ r3 => Normal r3)
                 = Normal (issue (DeleteMessage (chatId q) id) r2)).
  { unfold api_deleteMessage. by destruct (deleteAnswer q). }
  rewrite Hdel. cbn [andThen]. apply sendChunks_limits.
  cbn [issue calls]. apply Forall_app. split; [done|]. by repeat constructor.
Qed.

(** X13. A final text of more than 4000 and at most 4096 code units is never
    shown whole in streaming mode: the last edit carries its last 4000 code
    units and the truncation marker, and as the text is within 4096 no
    overflow delivery follows. *)
Theorem midsize_final_text_stays_truncated q mid r :
  4000 < len (fullText r) ->
  len (fullText r) <= 4096 ->
  fullText r <> lastEditedText r ->
  finalAnswer q = Resolved tt ->
  let tail := slice_last (fullText r) 4000 ++ nl ++ nl ++ js "[...truncated]" in
  exists r',
    finish q mid r = Normal r' /\
    calls r' = calls r ++ [EditMessageText (chatId q) mid tail] /\
    shown r' = tail.
Proof.
  intros Hlong Hfits Hnew Hok tail. unfold finish, finalEdit.
  rewrite editMessage_cases. unfold editsWhen.
  rewrite bool_decide_eq_false_2 by done. rewrite Hok.
  cbn [negb andb orb andThen].
  assert (Hd : orDots (displayText (fullText r)) = tail).
  { unfold displayText. destruct (4000 <? len (fullText r)) eqn:H; [|lia].
    fold tail. destruct tail eqn:Ht; [|done].
    subst tail. apply (f_equal length) in Ht. rewrite !length_app in Ht.
    cbn in Ht. lia. }
  rewrite Hd. unfold overflowDelivery. cbn [fullText setLastEdit show issue].
  destruct (4096 <? length (fullText r))%nat eqn:Hover.
  - apply Nat.ltb_lt in Hover. unfold len in Hfits. lia.
  - by eexists.
Qed.

Lemma sendChunks_rejected text answers e k : forall fuel i r,
  (length text - i <= fuel)%nat ->
  (i + k * 4096 < length text)%nat ->
  (forall j, (j < k)%nat -> exists id, answers (i + j * 4096)%nat = Resolved id) ->
  answers (i + k * 4096)%nat = Rejected e ->
  exists r',
    sendChunks fuel text answers i r = Abrupt e r' /\
    calls r' = calls r ++ map Reply (take (S k) (chunkTexts fuel text i)).
Proof.
  induction k as [|k IH]; intros fuel i r Hfuel Hin Hok Hbad.
  - destruct fuel as [|fuel]; [lia|]. cbn [sendChunks chunkTexts].
    destruct (i <? length text)%nat eqn:Hi; [|apply Nat.ltb_ge in Hi; lia].
    replace (i + 0 * 4096)%nat with i in Hbad by lia.
    unfold ctx_reply. rewrite Hbad. cbn [andThen]. by eexists.
  - destruct fuel as [|fuel]; [lia|]. cbn [sendChunks chunkTexts].
    destruct (i <? length text)%nat eqn:Hi; [|apply Nat.ltb_ge in Hi; lia].
    destruct (Hok 0%nat ltac:(lia)) as [id Hid].
    replace (i + 0 * 4096)%nat with i in Hid by lia.
    unfold ctx_reply. rewrite Hid. cbn [andThen].
    destruct (IH fuel (i + 4096)%nat (issue (Reply (slice text i (i + 4096))) r))
      as (r' & Hrun & Hcalls).
    + lia.
    + lia.
    + intros j Hj. destruct (Hok (S j) ltac:(lia)) as [id' Hid']. exists id'.
      rewrite <- Hid'. f_equal. lia.
    + rewrite <- Hbad. f_equal. lia.
    + exists r'. split; [done|]. rewrite Hcalls. cbn [issue calls take map].
      by rewrite <- app_assoc.
Qed.

(** X14. The chunk loop stops at the first reply the transport rejects: the
    chunks before it have been sent, the rejected one has been tried, none of
    the later ones is sent, and the rejection travels on to the caller. *)
Theorem rejected_reply_stops_delivery text answers e k r :
  (k * 4096 < length text)%nat ->
  (forall j, (j < k)%nat -> exists id, answers (j * 4096)%nat = Resolved id) ->
  answers (k * 4096)%nat = Rejected e ->
  exists r',
    sendChunks (length text) text answers 0 r = Abrupt e r' /\
    calls r' = calls r ++ map Reply (take (S k) (chunkTexts (length text) text 0)).
Proof.
  intros Hin Hok Hbad.
  apply (sendChunks_rejected text answers e k (length text) 0%nat r); [lia|lia| |done].
  intros j Hj. by apply Hok.
Qed.

(** X15. When the event generator fails in streaming mode, the events before
    the failure have been rendered, neither the final edit nor the overflow
    delivery takes place, so that the live message stays as last rendered,
    and one notice, "Error: " and the error's message, is sent. *)
Theorem stream_failure_sends_one_notice q id e answer :
  placeholder q = Resolved id ->
  generatorError q = Some e ->
  exists r1,
    onStreamEvents (chatId q) id (arrivals q) afterPlaceholder = Normal r1 /\
    calls (stateOf (streamingExchange q answer))
    = calls r1 ++ [Reply (js "Error: " ++ interpolate (message e))] /\
    shown (stateOf (streamingExchange q answer)) = shown r1.
Proof.
  intros Hp He.
  destruct (onStreamEvents_Normal (chatId q) id (arrivals q) afterPlaceholder)
    as (r1 & H1 & _).
  exists r1. split; [done|].
  unfold streamingExchange, streamingMode. rewrite Hp.
  change (show (js "...") (issue (Reply (js "...")) initial)) with afterPlaceholder.
  rewrite H1. cbn [andThen]. rewrite He. cbn [tryCatch].
  unfold errorNotice, ctx_reply. by destruct answer.
Qed.

(** ** Properties of the message content *)

Lemma startsWith_app needle rest : startsWith needle (needle ++ rest) = true.
Proof.
  induction needle as [|a needle IH]; [done|]. cbn. by rewrite N.eqb_refl, IH.
Qed.

Lemma startsWith_spec needle hay :
  startsWith needle hay = true <-> exists rest, hay = needle ++ rest.
Proof.
  split.
  - revert hay. induction needle as [|a needle IH]; intros hay H; [by exists hay|].
    destruct hay as [|b hay]; [done|]. cbn in H.
    apply andb_true_iff in H as [Hab Hrest]. apply N.eqb_eq in Hab as ->.
    destruct (IH hay Hrest) as [rest ->]. by exists rest.
  - intros [rest ->]. apply startsWith_app.
Qed.

Lemma includes_app needle before after :
  includes needle (before ++ needle ++ after) = true.
Proof.
  induction before as [|b before IH]; cbn [app].
  - destruct (needle ++ after) eqn:H; cbn [includes]; rewrite <- H;
      by rewrite startsWith_app.
  - cbn [includes]. rewrite IH. apply orb_true_r.
Qed.

Lemma foldl_parts parts0 (attachments : list (Attachment * Settled Download)) :
  foldl (fun parts a => parts ++ [attachmentPart a.1 a.2]) parts0 attachments
  = parts0 ++ map (fun a => attachmentPart a.1 a.2) attachments.
Proof.
  revert parts0. induction attachments as [|a rest IH]; intros parts0; cbn.
  - by rewrite app_nil_r.
  - by rewrite IH, <- app_assoc.
Qed.

(** X17. A message with attachments becomes one part per attachment, in
    order, after the text part when there is a text: an image part for a
    download that resolved, and for a download that was rejected a text part
    that names the file, so that a failed download never stops the message.
    The fallback for an empty list of parts is never taken. *)
Theorem content_has_one_part_per_attachment text a rest :
  buildContent text (a :: rest) =
    UParts ((match text with
             | Some (c :: s) => [TextContent (c :: s)]
             | _ => []
             end) ++ map (fun p => attachmentPart p.1 p.2) (a :: rest)) /\
  (forall att d, exists mime,
     attachmentPart att (Resolved d) = ImageContent (dl_data d) mime) /\
  (forall att e, exists note,
     attachmentPart att (Rejected e) = TextContent note /\
     includes (orElse (fileName att) (js "the file")) note = true).
Proof.
  split_and!.
  - unfold buildContent. rewrite foldl_parts.
    destruct text as [[|c s]|]; cbn [app map]; done.
  - intros att d. by eexists.
  - intros att e. unfold attachmentPart.
    destruct (match message e with
              | Some text0 => includes (js "file is too big") text0
              | None => false
              end).
    + eexists. split; [reflexivity|].
      rewrite (app_assoc (js "[The user attached ") quote). apply includes_app.
    + eexists. split; [reflexivity|].
      rewrite (app_assoc (js "[Failed to load attachment ") quote). apply includes_app.
Qed.

(** ** Properties of text files *)

Section UnicodeProperties.
Local Open Scope N_scope.

Local Ltac zify_hook := idtac.
Local Ltac bools :=
  unfold isHighSurrogate, isLowSurrogate, REPLACEMENT in *;
  repeat match goal with
  | H : andb _ _ = true |- _ => apply andb_true_iff in H as [? ?]
  | H : andb _ _ = false |- _ => apply andb_false_iff in H
  | H : (_ <=? _) = true |- _ => apply N.leb_le in H
  | H : (_ <=? _) = false |- _ => apply N.leb_gt in H
  | H : (_ <? _) = true |- _ => apply N.ltb_lt in H
  | H : (_ <? _) = false |- _ => apply N.ltb_ge in H
  | H : (_ =? _) = true |- _ => apply N.eqb_eq in H
  | H : (_ =? _) = false |- _ => apply N.eqb_neq in H
  end.

Lemma wellFormed_app s t : wellFormed s -> wellFormed t -> wellFormed (s ++ t).
Proof.
  induction 1; intros Ht; cbn; [done| |].
  - apply wellFormed_unit; auto.
  - apply wellFormed_pair; auto.
Qed.

Lemma wellFormed_isString s : wellFormed s -> isString s.
Proof.
  induction 1 as [|c s Hc _ _ _ IH|hi lo s Hhi Hlo _ IH]; [constructor|by constructor|].
  bools. constructor; [lia|]. constructor; [lia|done].
Qed.

Lemma toWellFormed_app s t :
  wellFormed s -> toWellFormed (s ++ t) = s ++ toWellFormed t.
Proof.
  induction 1 as [|c s Hc Hhi Hlo _ IH|hi lo s Hhi Hlo _ IH]; cbn.
  - done.
  - rewrite Hhi, Hlo. by rewrite IH.
  - rewrite Hhi, Hlo. by rewrite IH.
Qed.

Lemma toWellFormed_wellFormed s : wellFormed s -> toWellFormed s = s.
Proof.
  intros Hs. rewrite <- (app_nil_r s) at 1. rewrite toWellFormed_app by done.
  cbn. by rewrite app_nil_r.
Qed.

(** Induction along the way [toWellFormed] and the encoder read a string. *)
Lemma string_pairs_ind (P : jsstring -> Prop) :
  P [] ->
  (forall c s, isHighSurrogate c = false -> P s -> P (c :: s)) ->
  (forall hi, isHighSurrogate hi = true -> P [hi]) ->
  (forall hi c s, isHighSurrogate hi = true -> isLowSurrogate c = false ->
     P (c :: s) -> P (hi :: c :: s)) ->
  (forall hi lo s, isHighSurrogate hi = true -> isLowSurrogate lo = true ->
     P s -> P (hi :: lo :: s)) ->
  forall s, P s.
Proof.
  intros Hnil Hunit Hlast Hlone Hpair s.
  assert (H : forall n s, (length s <= n)%nat -> P s).
  { clear s. induction n as [|n IH]; intros s Hlen.
    - destruct s; [done|cbn in Hlen; lia].
    - destruct s as [|c s]; [done|]. cbn in Hlen.
      destruct (isHighSurrogate c) eqn:Hc.
      + destruct s as [|lo s]; [by apply Hlast|]. cbn in Hlen.
        destruct (isLowSurrogate lo) eqn:Hl.
        * apply Hpair; [done|done|]. apply IH. lia.
        * apply Hlone; [done|done|]. apply IH. cbn. lia.
      + apply Hunit; [done|]. apply IH. lia. }
  by apply (H (length s)).
Qed.

Lemma wellFormed_replacement s : wellFormed s -> wellFormed (REPLACEMENT :: s).
Proof. intros Hs. by apply wellFormed_unit. Qed.

Lemma toWellFormed_unit c s :
  isHighSurrogate c = false ->
  toWellFormed (c :: s) = (if isLowSurrogate c then REPLACEMENT else c) :: toWellFormed s.
Proof. intros Hc. cbn [toWellFormed]. rewrite Hc. by destruct (isLowSurrogate c). Qed.

Lemma toWellFormed_lone hi c s :
  isHighSurrogate hi = true -> isLowSurrogate c = false ->
  toWellFormed (hi :: c :: s) = REPLACEMENT :: toWellFormed (c :: s).
Proof. intros Hhi Hc. cbn [toWellFormed]. by rewrite Hhi, Hc. Qed.

Lemma toWellFormed_pair hi lo s :
  isHighSurrogate hi = true -> isLowSurrogate lo = true ->
  toWellFormed (hi :: lo :: s) = hi :: lo :: toWellFormed s.
Proof. intros Hhi Hlo. cbn [toWellFormed]. by rewrite Hhi, Hlo. Qed.

Lemma toWellFormed_last hi : isHighSurrogate hi = true -> toWellFormed [hi] = [REPLACEMENT].
Proof. intros Hhi. cbn. by rewrite Hhi. Qed.

Lemma toWellFormed_is_wellFormed s : isString s -> wellFormed (toWellFormed s).
Proof.
  induction s as [|c s Hc IH|hi Hhi|hi c s Hhi Hc IH|hi lo s Hhi Hlo IH]
    using string_pairs_ind; intros Hs.
  - constructor.
  - rewrite toWellFormed_unit by done. apply Forall_cons in Hs as [Hlt Hs].
    destruct (isLowSurrogate c) eqn:Hl.
    + apply wellFormed_replacement. by apply IH.
    + apply wellFormed_unit; [done|done|done|by apply IH].
  - rewrite toWellFormed_last by done. apply wellFormed_replacement. constructor.
  - rewrite toWellFormed_lone by done. apply Forall_cons in Hs as [_ Hs].
    apply wellFormed_replacement. by apply IH.
  - rewrite toWellFormed_pair by done.
    apply Forall_cons in Hs as [_ Hs]. apply Forall_cons in Hs as [_ Hs].
    apply wellFormed_pair; [done|done|by apply IH].
Qed.

(** A unit that is no surrogate cuts a string in two for [toWellFormed]. *)
Lemma toWellFormed_cut s c t :
  isHighSurrogate c = false -> isLowSurrogate c = false ->
  toWellFormed (s ++ c :: t) = toWellFormed s ++ c :: toWellFormed t.
Proof.
  intros Hch Hcl.
  induction s as [|a s Ha IH|hi Hhi|hi a s Hhi Ha IH|hi lo s Hhi Hlo IH]
    using string_pairs_ind.
  - cbn [app]. rewrite toWellFormed_unit by done. by rewrite Hcl.
  - rewrite <- app_comm_cons, !toWellFormed_unit by done. by rewrite IH.
  - cbn [app]. rewrite toWellFormed_lone, toWellFormed_last by done.
    rewrite toWellFormed_unit by done. by rewrite Hcl.
  - rewrite <- !app_comm_cons, !toWellFormed_lone by done.
    rewrite app_comm_cons, IH. done.
  - rewrite <- !app_comm_cons, !toWellFormed_pair by done. by rewrite IH.
Qed.

(** *** The encoder *)

Lemma utf8Values_unit c s :
  isHighSurrogate c = false ->
  utf8Values (c :: s) =
  utf8Bytes (if isLowSurrogate c then REPLACEMENT else c) ++ utf8Values s.
Proof. intros Hc. cbn [utf8Values]. rewrite Hc. by destruct (isLowSurrogate c). Qed.

Lemma utf8Values_lone hi c s :
  isHighSurrogate hi = true -> isLowSurrogate c = false ->
  utf8Values (hi :: c :: s) = utf8Bytes REPLACEMENT ++ utf8Values (c :: s).
Proof. intros Hhi Hc. cbn [utf8Values]. by rewrite Hhi, Hc. Qed.

Lemma utf8Values_pair hi lo s :
  isHighSurrogate hi = true -> isLowSurrogate lo = true ->
  utf8Values (hi :: lo :: s) = utf8Bytes (codePointOfPair hi lo) ++ utf8Values s.
Proof. intros Hhi Hlo. cbn [utf8Values]. by rewrite Hhi, Hlo. Qed.

Lemma utf8Values_last hi :
  isHighSurrogate hi = true -> utf8Values [hi] = utf8Bytes REPLACEMENT.
Proof. intros Hhi. cbn. by rewrite Hhi. Qed.

Lemma utf8Values_replacement s :
  utf8Values (REPLACEMENT :: s) = utf8Bytes REPLACEMENT ++ utf8Values s.
Proof. reflexivity. Qed.

Local Ltac dlia := zify; Z.to_euclidean_division_equations; lia.

Local Ltac ranges :=
  repeat match goal with
  | H : isScalar _ |- _ => destruct H as (? & ? & ?)
  end;
  bools;
  repeat match goal with
  | H : _ \/ _ |- _ => destruct H
  end;
  bools.

Lemma utf8Bytes_bounded cp : cp < 0x110000 -> Forall (fun b => b < 256) (utf8Bytes cp).
Proof.
  intros Hcp. unfold utf8Bytes.
  destruct (N.ltb_spec cp 0x80); [|destruct (N.ltb_spec cp 0x800);
    [|destruct (N.ltb_spec cp 0x10000)]];
    repeat (constructor; [dlia|]); constructor.
Qed.

Lemma codePointOfPair_scalar hi lo :
  isHighSurrogate hi = true -> isLowSurrogate lo = true ->
  isScalar (codePointOfPair hi lo) /\ codeUnits (codePointOfPair hi lo) = [hi; lo].
Proof.
  intros Hhi Hlo. unfold isScalar, codeUnits, codePointOfPair. bools.
  destruct (N.ltb_spec (65536 + (hi - 55296) * 1024 + (lo - 56320)) 65536); [lia|].
  split.
  - split; [lia|]. split; apply andb_false_iff; right; apply N.leb_gt; lia.
  - f_equal; [dlia|]. f_equal. dlia.
Qed.

Lemma utf8Values_bounded s : isString s -> Forall (fun b => b < 256) (utf8Values s).
Proof.
  induction s as [|c s Hc IH|hi Hhi|hi c s Hhi Hc IH|hi lo s Hhi Hlo IH]
    using string_pairs_ind; intros Hs.
  - constructor.
  - rewrite utf8Values_unit by done. apply Forall_cons in Hs as [Hlt Hs].
    apply Forall_app. split; [|by apply IH].
    apply utf8Bytes_bounded. destruct (isLowSurrogate c); [done|lia].
  - rewrite utf8Values_last by done. by apply utf8Bytes_bounded.
  - rewrite utf8Values_lone by done. apply Forall_cons in Hs as [_ Hs].
    apply Forall_app. split; [by apply utf8Bytes_bounded | by apply IH].
  - rewrite utf8Values_pair by done.
    apply Forall_cons in Hs as [_ Hs]. apply Forall_cons in Hs as [_ Hs].
    apply Forall_app. split; [|by apply IH].
    apply utf8Bytes_bounded. by destruct (codePointOfPair_scalar hi lo) as [[? _] _].
Qed.

Lemma byteOf_value b : b < 256 -> Byte.to_N (byteOf b) = b.
Proof.
  intros Hb. unfold byteOf. destruct (Byte.of_N b) as [x|] eqn:Hx.
  - by apply Byte.to_of_N.
  - apply Byte.of_N_None_iff in Hx. lia.
Qed.

Lemma byteOf_values bs :
  Forall (fun b => b < 256) bs -> map Byte.to_N (map byteOf bs) = bs.
Proof. induction 1 as [|b bs Hb _ IH]; cbn; [done|]. by rewrite byteOf_value, IH. Qed.

(** *** The decoder *)

Lemma utf8Lead_ascii b : b <= 0x7F -> utf8Lead b = ([b], utf8Initial).
Proof. intros Hb. unfold utf8Lead. by destruct (N.leb_spec b 0x7F); [|lia]. Qed.

Lemma utf8Lead_cases b :
  utf8Lead b =
  if b <=? 0x7F then ([b], utf8Initial)
  else if (0xC2 <=? b) && (b <=? 0xDF) then
    ([], {| codePoint := b - 0xC0; bytesNeeded := 1;
            lowerBoundary := 0x80; upperBoundary := 0xBF |})
  else if (0xE0 <=? b) && (b <=? 0xEF) then
    ([], {| codePoint := b - 0xE0; bytesNeeded := 2;
            lowerBoundary := if b =? 0xE0 then 0xA0 else 0x80;
            upperBoundary := if b =? 0xED then 0x9F else 0xBF |})
  else if (0xF0 <=? b) && (b <=? 0xF4) then
    ([], {| codePoint := b - 0xF0; bytesNeeded := 3;
            lowerBoundary := if b =? 0xF0 then 0x90 else 0x80;
            upperBoundary := if b =? 0xF4 then 0x8F else 0xBF |})
  else ([REPLACEMENT], utf8Initial).
Proof. reflexivity. Qed.

Lemma utf8Step_final st b :
  bytesNeeded st = 1%nat -> lowerBoundary st <= b <= upperBoundary st ->
  utf8Step st b = (codeUnits (codePoint st * 64 + (b - 0x80)), utf8Initial).
Proof.
  intros Hn [Hl Hu]. unfold utf8Step. rewrite Hn.
  apply N.leb_le in Hl, Hu. by rewrite Hl, Hu.
Qed.

Lemma utf8Step_more st b k :
  bytesNeeded st = S (S k) -> lowerBoundary st <= b <= upperBoundary st ->
  utf8Step st b =
  ([], {| codePoint := codePoint st * 64 + (b - 0x80); bytesNeeded := S k;
          lowerBoundary := 0x80; upperBoundary := 0xBF |}).
Proof.
  intros Hn [Hl Hu]. unfold utf8Step. rewrite Hn.
  apply N.leb_le in Hl, Hu. by rewrite Hl, Hu.
Qed.

Lemma utf8Lead_two b :
  0xC2 <= b <= 0xDF ->
  utf8Lead b = ([], {| codePoint := b - 0xC0; bytesNeeded := 1;
                       lowerBoundary := 0x80; upperBoundary := 0xBF |}).
Proof.
  intros [H1 H2]. unfold utf8Lead.
  destruct (N.leb_spec b 0x7F); [lia|].
  apply N.leb_le in H1, H2. by rewrite H1, H2.
Qed.

Lemma utf8Lead_three b :
  0xE0 <= b <= 0xEF ->
  utf8Lead b = ([], {| codePoint := b - 0xE0; bytesNeeded := 2;
                       lowerBoundary := if b =? 0xE0 then 0xA0 else 0x80;
                       upperBoundary := if b =? 0xED then 0x9F else 0xBF |}).
Proof.
  intros [H1 H2]. unfold utf8Lead.
  destruct (N.leb_spec b 0x7F); [lia|].
  destruct (N.leb_spec b 0xDF); [lia|]. rewrite andb_false_r.
  apply N.leb_le in H1, H2. by rewrite H1, H2.
Qed.

Lemma utf8Lead_four b :
  0xF0 <= b <= 0xF4 ->
  utf8Lead b = ([], {| codePoint := b - 0xF0; bytesNeeded := 3;
                       lowerBoundary := if b =? 0xF0 then 0x90 else 0x80;
                       upperBoundary := if b =? 0xF4 then 0x8F else 0xBF |}).
Proof.
  intros [H1 H2]. unfold utf8Lead.
  destruct (N.leb_spec b 0x7F); [lia|].
  destruct (N.leb_spec b 0xDF); [lia|]. rewrite andb_false_r.
  destruct (N.leb_spec b 0xEF); [lia|]. rewrite andb_false_r.
  apply N.leb_le in H1, H2. by rewrite H1, H2.
Qed.

Lemma utf8DecodeFrom_cons st b rest :
  utf8DecodeFrom st (b :: rest)
  = (utf8Step st b).1 ++ utf8DecodeFrom (utf8Step st b).2 rest.
Proof. cbn [utf8DecodeFrom]. by destruct (utf8Step st b). Qed.

Lemma utf8Step_lead b : utf8Step utf8Initial b = utf8Lead b.
Proof. reflexivity. Qed.

Local Ltac inRange :=
  cbn [lowerBoundary upperBoundary codePoint bytesNeeded];
  repeat match goal with
  | |- context [if ?a =? ?b then _ else _] => destruct (N.eqb_spec a b)
  end; dlia.

(** The bytes of a code point are read back as that code point, and leave
    the decoder where it started. *)
Lemma utf8Decode_codePoint cp rest :
  isScalar cp ->
  utf8DecodeFrom utf8Initial (utf8Bytes cp ++ rest)
  = codeUnits cp ++ utf8DecodeFrom utf8Initial rest.
Proof.
  intros (Hcp & Hhi & Hlo). unfold utf8Bytes.
  destruct (N.ltb_spec cp 0x80); [|destruct (N.ltb_spec cp 0x800);
    [|destruct (N.ltb_spec cp 0x10000)]]; cbn [app].
  - rewrite utf8DecodeFrom_cons, utf8Step_lead, utf8Lead_ascii by lia. cbn [fst snd].
    unfold codeUnits. by destruct (N.ltb_spec cp 0x10000); [|lia].
  - rewrite utf8DecodeFrom_cons, utf8Step_lead, utf8Lead_two by dlia. cbn [fst snd app].
    rewrite utf8DecodeFrom_cons, utf8Step_final by (first [reflexivity | inRange]).
    cbn [fst snd codePoint]. do 2 f_equal. dlia.
  - rewrite utf8DecodeFrom_cons, utf8Step_lead, utf8Lead_three by dlia. cbn [fst snd app].
    rewrite utf8DecodeFrom_cons.
    erewrite utf8Step_more by (first [reflexivity | ranges; inRange]).
    cbn [fst snd app codePoint].
    rewrite utf8DecodeFrom_cons, utf8Step_final by (first [reflexivity | inRange]).
    cbn [fst snd codePoint]. do 2 f_equal. dlia.
  - rewrite utf8DecodeFrom_cons, utf8Step_lead, utf8Lead_four by dlia. cbn [fst snd app].
    rewrite utf8DecodeFrom_cons.
    erewrite utf8Step_more by (first [reflexivity | inRange]).
    cbn [fst snd app codePoint].
    rewrite utf8DecodeFrom_cons.
    erewrite utf8Step_more by (first [reflexivity | inRange]).
    cbn [fst snd app codePoint].
    rewrite utf8DecodeFrom_cons, utf8Step_final by (first [reflexivity | inRange]).
    cbn [fst snd codePoint]. do 2 f_equal. dlia.
Qed.

Lemma isScalar_intro cp : cp < 0xD800 \/ 0xE000 <= cp < 0x110000 -> isScalar cp.
Proof.
  intros Hcp. unfold isScalar, isHighSurrogate, isLowSurrogate.
  split; [lia|]. split; apply andb_false_iff.
  - destruct Hcp; [left|right]; apply N.leb_gt; lia.
  - destruct Hcp; [left|right]; apply N.leb_gt; lia.
Qed.

Lemma isScalar_unit c :
  c < 65536 -> isHighSurrogate c = false -> isLowSurrogate c = false ->
  isScalar c /\ codeUnits c = [c].
Proof.
  intros Hc Hhi Hlo. split; [split; [lia|done]|].
  unfold codeUnits. by destruct (N.ltb_spec c 0x10000); [|lia].
Qed.

Lemma codeUnits_wellFormed cp : isScalar cp -> wellFormed (codeUnits cp).
Proof.
  intros (Hcp & Hhi & Hlo). unfold codeUnits.
  destruct (N.ltb_spec cp 0x10000).
  - apply wellFormed_unit; [done|done|done|constructor].
  - apply wellFormed_pair; [| |constructor]; unfold isHighSurrogate, isLowSurrogate;
      apply andb_true_iff; split; apply N.leb_le; dlia.
Qed.

(** What has been encoded from a well-formed string is read back as it was,
    whatever follows. *)
Lemma utf8Decode_wellFormed s : forall rest,
  wellFormed s ->
  utf8DecodeFrom utf8Initial (utf8Values s ++ rest) = s ++ utf8DecodeFrom utf8Initial rest.
Proof.
  intros rest. induction 1 as [|c s Hc Hhi Hlo _ IH|hi lo s Hhi Hlo _ IH].
  - done.
  - rewrite utf8Values_unit, Hlo by done.
    destruct (isScalar_unit c Hc Hhi Hlo) as [Hscalar Hunits].
    rewrite <- app_assoc, utf8Decode_codePoint, Hunits by done. cbn [app]. by rewrite IH.
  - rewrite utf8Values_pair by done.
    destruct (codePointOfPair_scalar hi lo Hhi Hlo) as [Hscalar Hunits].
    rewrite <- app_assoc, utf8Decode_codePoint, Hunits by done. cbn [app]. by rewrite IH.
Qed.

Lemma utf8Values_app s t :
  wellFormed s -> utf8Values (s ++ t) = utf8Values s ++ utf8Values t.
Proof.
  induction 1 as [|c s Hc Hhi Hlo _ IH|hi lo s Hhi Hlo _ IH].
  - done.
  - rewrite <- app_comm_cons, !utf8Values_unit, IH by done. by rewrite app_assoc.
  - rewrite <- !app_comm_cons, !utf8Values_pair, IH by done. by rewrite app_assoc.
Qed.

(** Encoding replaces lone surrogates and nothing else. *)
Lemma utf8Values_toWellFormed s : utf8Values (toWellFormed s) = utf8Values s.
Proof.
  induction s as [|c s Hc IH|hi Hhi|hi c s Hhi Hc IH|hi lo s Hhi Hlo IH]
    using string_pairs_ind.
  - done.
  - rewrite toWellFormed_unit, (utf8Values_unit c) by done.
    destruct (isLowSurrogate c) eqn:Hl.
    + by rewrite utf8Values_replacement, IH.
    + rewrite (utf8Values_unit c), Hl by done. by rewrite IH.
  - rewrite toWellFormed_last, (utf8Values_last hi), utf8Values_replacement by done.
    apply app_nil_r.
  - rewrite toWellFormed_lone, (utf8Values_lone hi) by done.
    by rewrite utf8Values_replacement, IH.
  - rewrite toWellFormed_pair, !(utf8Values_pair hi) by done. by rewrite IH.
Qed.

(** *** The decoder's output *)

Lemma pending_initial : pending utf8Initial.
Proof. by apply isScalar_intro; left. Qed.

Lemma utf8Lead_pending b :
  wellFormed (utf8Lead b).1 /\ pending (utf8Lead b).2.
Proof.
  rewrite utf8Lead_cases. unfold pending.
  destruct (N.leb_spec b 0x7F).
  { split; [|apply pending_initial].
    apply wellFormed_unit; [lia| | |constructor];
      apply andb_false_iff; left; apply N.leb_gt; lia. }
  destruct ((0xC2 <=? b) && (b <=? 0xDF)) eqn:H2.
  { split; [constructor|]. bools.
    cbn [completes bytesNeeded codePoint lowerBoundary upperBoundary snd].
    intros b2 Hb2. apply isScalar_intro. lia. }
  destruct ((0xE0 <=? b) && (b <=? 0xEF)) eqn:H3.
  { split; [constructor|]. bools.
    cbn [completes bytesNeeded codePoint lowerBoundary upperBoundary snd].
    intros b2 Hb2 b3 Hb3. apply isScalar_intro.
    destruct (N.eqb_spec b 0xE0), (N.eqb_spec b 0xED); lia. }
  destruct ((0xF0 <=? b) && (b <=? 0xF4)) eqn:H4.
  { split; [constructor|]. bools.
    cbn [completes bytesNeeded codePoint lowerBoundary upperBoundary snd].
    intros b2 Hb2 b3 Hb3 b4 Hb4. apply isScalar_intro.
    destruct (N.eqb_spec b 0xF0), (N.eqb_spec b 0xF4); lia. }
  split; [|apply pending_initial]. apply wellFormed_replacement. constructor.
Qed.

Lemma utf8Step_pending st b :
  pending st -> wellFormed (utf8Step st b).1 /\ pending (utf8Step st b).2.
Proof.
  intros Hst. unfold utf8Step. unfold pending in Hst.
  destruct (bytesNeeded st) as [|k]; [apply utf8Lead_pending|].
  destruct ((lowerBoundary st <=? b) && (b <=? upperBoundary st)) eqn:Hin.
  - bools. assert (Hb : lowerBoundary st <= b <= upperBoundary st) by done.
    specialize (Hst b Hb).
    destruct k as [|k].
    + split; [by apply codeUnits_wellFormed | apply pending_initial].
    + split; [constructor | exact Hst].
  - destruct (utf8Lead_pending b) as [Hout Hnext].
    destruct (utf8Lead b) as [out st']. split; [|done].
    by apply wellFormed_replacement.
Qed.

Lemma utf8DecodeFrom_wellFormed bytes : forall st,
  pending st -> wellFormed (utf8DecodeFrom st bytes).
Proof.
  induction bytes as [|b bytes IH]; intros st Hst.
  - cbn. destruct (bytesNeeded st); [constructor|]. apply wellFormed_replacement. constructor.
  - rewrite utf8DecodeFrom_cons. destruct (utf8Step_pending st b Hst) as [Hout Hnext].
    apply wellFormed_app; [done | by apply IH].
Qed.

(** What is read from a file, whatever its bytes, has no lone surrogate. *)
Lemma utf8Decode_is_wellFormed bytes : wellFormed (utf8Decode bytes).
Proof. apply utf8DecodeFrom_wellFormed, pending_initial. Qed.

(** Writing a string and reading it back gives the string with its lone
    surrogates replaced. *)
Lemma utf8Decode_utf8Encode s :
  isString s -> utf8Decode (utf8Encode s) = toWellFormed s.
Proof.
  intros Hs. unfold utf8Decode, utf8Encode.
  rewrite byteOf_values by by apply utf8Values_bounded.
  rewrite <- utf8Values_toWellFormed, <- (app_nil_r (utf8Values _)).
  rewrite utf8Decode_wellFormed by by apply toWellFormed_is_wellFormed.
  cbn. by rewrite app_nil_r.
Qed.

(** A well-formed start of what is written is read back as it was, whatever
    was written after it. *)
Lemma utf8Decode_utf8Encode_app s t :
  wellFormed s -> exists t', utf8Decode (utf8Encode (s ++ t)) = s ++ t'.
Proof.
  intros Hs. unfold utf8Decode, utf8Encode.
  rewrite utf8Values_app, !map_app by done.
  rewrite byteOf_values by by apply utf8Values_bounded, wellFormed_isString.
  rewrite utf8Decode_wellFormed by done. by eexists.
Qed.

End UnicodeProperties.

(** ** Properties of the memory tools *)

Lemma readText_wellFormed file : wellFormed (readText file).
Proof. destruct file; [apply utf8Decode_is_wellFormed | constructor]. Qed.

Lemma isString_app s t : isString s -> isString t -> isString (s ++ t).
Proof. intros Hs Ht. by apply Forall_app. Qed.

Lemma entry_wellFormed timestamp content :
  toWellFormed (nl ++ js "## " ++ timestamp ++ nl ++ content ++ nl)
  = nl ++ js "## " ++ toWellFormed timestamp ++ nl ++ toWellFormed content ++ nl.
Proof.
  assert (Hhead : wellFormed (nl ++ js "## ")).
  { repeat (apply wellFormed_unit; [done|done|done|]). constructor. }
  change (nl ++ js "## " ++ timestamp ++ nl ++ content ++ nl)
    with ((nl ++ js "## ") ++ timestamp ++ 10%N :: content ++ 10%N :: []).
  rewrite toWellFormed_app by done.
  rewrite !toWellFormed_cut by done. reflexivity.
Qed.

Lemma loadMemories_save userId timestamp content d :
  (exists written,
     loadMemories userId (save_memory userId timestamp content d).2
     = loadMemories userId d ++ written) /\
  (forall u, u <> userId ->
     loadMemories u (save_memory userId timestamp content d).2 = loadMemories u d).
Proof.
  unfold save_memory, loadMemories. cbn [snd memoryFiles]. split.
  - rewrite lookup_insert_eq. cbn [readText].
    apply utf8Decode_utf8Encode_app, readText_wellFormed.
  - intros u Hu. by rewrite lookup_insert_ne.
Qed.

(** X18. [save_memory] only ever appends. The user's memories after a save
    are the earlier memories followed by the new entry as the file holds it:
    a lone surrogate of the time stamp or of the content is written and read
    back as U+FFFD, and a well-formed entry is read back as it was. The
    memories of other users and the tone are untouched, and a recall after a
    save gives the memories, never the "No memories saved yet." of a user
    without any. *)
Theorem save_memory_appends userId timestamp content d :
  isString timestamp ->
  isString content ->
  let d' := (save_memory userId timestamp content d).2 in
  loadMemories userId d'
  = loadMemories userId d ++ nl ++ js "## " ++ toWellFormed timestamp ++ nl
    ++ toWellFormed content ++ nl /\
  (wellFormed timestamp -> wellFormed content ->
   loadMemories userId d'
   = loadMemories userId d ++ nl ++ js "## " ++ timestamp ++ nl ++ content ++ nl) /\
  (forall u, u <> userId -> loadMemories u d' = loadMemories u d) /\
  toneFile d' = toneFile d /\
  recall_memories userId d' = loadMemories userId d' /\
  (loadMemories userId d = [] -> recall_memories userId d = js "No memories saved yet.").
Proof.
  intros Hts Hcontent d'.
  assert (Hload : loadMemories userId d'
                  = loadMemories userId d ++ nl ++ js "## " ++ toWellFormed timestamp ++ nl
                    ++ toWellFormed content ++ nl).
  { subst d'. unfold save_memory, loadMemories. cbn [snd memoryFiles].
    rewrite lookup_insert_eq. cbn [readText].
    pose proof (readText_wellFormed (memoryFiles d !! userId)) as Hold.
    rewrite utf8Decode_utf8Encode.
    - rewrite toWellFormed_app by done. by rewrite entry_wellFormed.
    - apply isString_app; [by apply wellFormed_isString|].
      repeat (apply isString_app || (constructor; [done|]) || done || constructor). }
  split_and!.
  - exact Hload.
  - intros Hwts Hwcontent. rewrite Hload. by rewrite !toWellFormed_wellFormed.
  - apply loadMemories_save.
  - reflexivity.
  - unfold recall_memories. rewrite Hload.
    by destruct (loadMemories userId d).
  - unfold recall_memories. by intros ->.
Qed.

(** X19. Whatever is saved afterwards, for whichever users, what a user's
    memories held stays at their start. *)
Theorem memories_only_grow (saves : list (Z * jsstring * jsstring)) userId : forall d,
  loadMemories userId d `prefix_of`
  loadMemories userId
    (foldl (fun disk s => (save_memory s.1.1 s.1.2 s.2 disk).2) d saves).
Proof.
  induction saves as [|[[u ts] c] saves IH]; intros d; cbn [foldl]; [done|].
  etrans; [|apply IH]. cbn [fst snd].
  destruct (loadMemories_save u ts c d) as [[written Hsame] Hother].
  destruct (decide (userId = u)) as [->|Hne].
  - rewrite Hsame. by apply prefix_app_r.
  - by rewrite Hother.
Qed.

(** ** Properties of the cron tools *)

Lemma findIndex_None id l : findIndex id l = None <-> id ∉ map cj_id l.
Proof.
  induction l as [|j l IH]; cbn.
  - split; [intros _; apply not_elem_of_nil | done].
  - destruct (decide (cj_id j = id)) as [<-|Hne].
    + split; [done|]. intros H. destruct H. apply elem_of_cons. by left.
    + rewrite not_elem_of_cons. destruct (findIndex id l); cbn.
      * split; [done|]. intros [_ H]. by apply IH in H.
      * split; [|done]. intros _. split; [done|]. by apply IH.
Qed.

Lemma findIndex_first id before job after :
  cj_id job = id -> id ∉ map cj_id before ->
  findIndex id (before ++ job :: after) = Some (length before).
Proof.
  intros Hid. induction before as [|j before IH]; intros Hnot; cbn.
  - by rewrite decide_True.
  - cbn in Hnot. apply not_elem_of_cons in Hnot as [Hj Hrest].
    rewrite decide_False by done. by rewrite IH.
Qed.

Lemma findIndex_Some id l idx :
  findIndex id l = Some idx ->
  exists before job after,
    l = before ++ job :: after /\ cj_id job = id /\
    (id ∉ map cj_id before) /\ idx = length before.
Proof.
  revert idx. induction l as [|j l IH]; intros idx H; [done|]. cbn in H.
  destruct (decide (cj_id j = id)) as [Hj|Hne].
  - injection H as <-. exists [], j, l. split_and!; try done. apply not_elem_of_nil.
  - destruct (findIndex id l) as [i|] eqn:Hi; [|done]. injection H as <-.
    destruct (IH i eq_refl) as (before & job & after & -> & Hid & Hnot & ->).
    exists (j :: before), job, after. split_and!; try done.
    cbn. apply not_elem_of_cons. by split.
Qed.

Lemma delete_cron_found id c before job after :
  jobs c = before ++ job :: after ->
  cj_id job = id ->
  id ∉ map cj_id before ->
  delete_cron id c =
  (js "Cron job " ++ id ++ js " deleted.",
   {| jobs := before ++ after;
      scheduledTasks := delete id (scheduledTasks c);
      cronsFile := before ++ after;
      started := started c;
      stopped := match scheduledTasks c !! id with
                 | Some task => {[task]} ∪ stopped c
                 | None => stopped c
                 end |}).
Proof.
  intros Hjobs Hid Hnot. unfold delete_cron.
  rewrite Hjobs, (findIndex_first id before job after Hid Hnot).
  destruct (scheduledTasks c !! id) as [task|] eqn:Ht;
    unfold saveJobs; cbn [jobs scheduledTasks cronsFile started stopped];
    rewrite ?Hjobs, delete_middle; [done|].
  by rewrite (delete_id _ _ Ht).
Qed.

(** X20. [delete_cron] removes the first job carrying the id and no other
    job, writes the shortened list to the file, and stops and forgets the
    task remembered under the id, leaving the tasks of other ids as they
    are; for an id no job carries it changes nothing. *)
Theorem delete_cron_removes_one_job id c :
  (forall before job after,
     jobs c = before ++ job :: after ->
     cj_id job = id ->
     id ∉ map cj_id before ->
     let c' := (delete_cron id c).2 in
     jobs c' = before ++ after /\
     cronsFile c' = before ++ after /\
     scheduledTasks c' !! id = None /\
     (forall id', id' <> id -> scheduledTasks c' !! id' = scheduledTasks c !! id') /\
     (forall task, scheduledTasks c !! id = Some task -> task ∉ firing c')) /\
  (id ∉ map cj_id (jobs c) ->
   delete_cron id c = (js "Cron job " ++ id ++ js " not found.", c)).
Proof.
  split.
  - intros before job after Hjobs Hid Hnot c'. subst c'.
    rewrite (delete_cron_found id c before job after Hjobs Hid Hnot).
    cbn [snd jobs cronsFile scheduledTasks]. split_and!; try done.
    + apply lookup_delete_eq.
    + intros id' Hne. by rewrite lookup_delete_ne.
    + intros task Ht. unfold firing. cbn [started stopped]. rewrite Ht.
      intros Hin. apply elem_of_difference in Hin as [_ Hin]. apply Hin.
      apply elem_of_union_l, elem_of_singleton. reflexivity.
  - intros Hnot. unfold delete_cron. by rewrite (proj2 (findIndex_None id (jobs c)) Hnot).
Qed.

Lemma create_cron_valid validate chat schedule prompt newId c :
  validate schedule = true ->
  (create_cron validate chat schedule prompt newId c).2 =
  {| jobs := jobs c ++ [{| cj_id := newId; cj_schedule := schedule; cj_prompt := prompt;
                           cj_chatId := chat; cj_enabled := true |}];
     scheduledTasks := <[newId := fresh (started c)]> (scheduledTasks c);
     cronsFile := jobs c ++ [{| cj_id := newId; cj_schedule := schedule;
                                cj_prompt := prompt; cj_chatId := chat;
                                cj_enabled := true |}];
     started := {[fresh (started c)]} ∪ started c;
     stopped := stopped c |}.
Proof. intros Hv. unfold create_cron. by rewrite Hv. Qed.

(** X21. Creating a job and then deleting it by its id undoes the creation:
    when the id is new, the jobs, the file, the remembered tasks and the set
    of firing tasks are again what they were, the task started for the job
    having been stopped. *)
Theorem created_cron_can_be_deleted validate chat schedule prompt newId c :
  validate schedule = true ->
  newId ∉ map cj_id (jobs c) ->
  cronsInSync c ->
  let c' := (delete_cron newId (create_cron validate chat schedule prompt newId c).2).2 in
  jobs c' = jobs c /\
  cronsFile c' = jobs c /\
  scheduledTasks c' = scheduledTasks c /\
  firing c' = firing c.
Proof.
  intros Hv Hnew (Hknown & _ & Hsub & _) c'. subst c'.
  rewrite (create_cron_valid _ _ _ _ _ _ Hv).
  set (job := {| cj_id := newId; cj_schedule := schedule; cj_prompt := prompt;
                 cj_chatId := chat; cj_enabled := true |}).
  erewrite (delete_cron_found newId _ (jobs c) job []);
    [|reflexivity|reflexivity|exact Hnew].
  cbn [snd jobs cronsFile scheduledTasks started stopped firing]. rewrite !app_nil_r.
  rewrite lookup_insert_eq. split_and!; try done.
  - rewrite delete_insert_eq. apply delete_id.
    destruct (scheduledTasks c !! newId) as [task|] eqn:Ht; [|done].
    destruct (Hknown newId task Ht) as [Hin _]. by destruct Hnew.
  - unfold firing. cbn [started stopped].
    pose proof (is_fresh (started c)) as Hfresh.
    apply set_eq. intros x. rewrite !elem_of_difference, !elem_of_union, !elem_of_singleton.
    split.
    + intros [[->|Hx] Hn]; [destruct Hn; by left|]. split; [done|]. intros Hs. apply Hn. by right.
    + intros [Hx Hn]. split; [by right|]. intros [->|Hs]; [done|done].
Qed.

(** X22. The cron tools keep the bookkeeping in order: after [create_cron]
    and after [delete_cron], as before them, every remembered task belongs to
    a listed job and is firing, no task is remembered under two ids, and the
    file holds the list of jobs. *)
Theorem cron_tools_keep_sync validate chat schedule prompt id c :
  cronsInSync c ->
  cronsInSync (create_cron validate chat schedule prompt id c).2 /\
  cronsInSync (delete_cron id c).2.
Proof.
  intros (Hknown & Hinj & Hsub & Hfile). split.
  - destruct (validate schedule) eqn:Hv; [|unfold create_cron; by rewrite Hv].
    rewrite (create_cron_valid _ _ _ _ _ _ Hv).
    pose proof (is_fresh (started c)) as Hfresh.
    assert (Hold : forall i task, scheduledTasks c !! i = Some task ->
              task ∈ started c /\ task ∉ stopped c).
    { intros i task Ht. destruct (Hknown i task Ht) as [_ Hf].
      by apply elem_of_difference in Hf. }
    split_and!; cbn [jobs scheduledTasks cronsFile started stopped]; [| | |done].
    + intros i task Ht. unfold firing. cbn [jobs started stopped].
      rewrite map_app, elem_of_app, elem_of_difference, elem_of_union, elem_of_singleton.
      destruct (decide (i = id)) as [->|Hne].
      * rewrite lookup_insert_eq in Ht. injection Ht as <-. split_and!.
        -- right. cbn. apply elem_of_cons. by left.
        -- by left.
        -- intros Hs. apply Hfresh. by apply Hsub.
      * rewrite lookup_insert_ne in Ht by done.
        destruct (Hknown i task Ht) as [Hi _]. destruct (Hold i task Ht) as [Hs Hn].
        split_and!; [by left|by right|done].
    + intros i1 i2 task H1 H2.
      destruct (decide (i1 = id)) as [->|Hn1]; destruct (decide (i2 = id)) as [->|Hn2];
        try done.
      * rewrite lookup_insert_eq in H1. rewrite lookup_insert_ne in H2 by done.
        injection H1 as <-. destruct (Hold i2 _ H2) as [Hs _]. by destruct Hfresh.
      * rewrite lookup_insert_eq in H2. rewrite lookup_insert_ne in H1 by done.
        injection H2 as <-. destruct (Hold i1 _ H1) as [Hs _]. by destruct Hfresh.
      * rewrite lookup_insert_ne in H1, H2 by done. by apply (Hinj i1 i2 task).
    + intros x Hx. apply elem_of_union_r. by apply Hsub.
  - destruct (findIndex id (jobs c)) as [idx|] eqn:Hidx.
    + destruct (findIndex_Some id (jobs c) idx Hidx)
        as (before & job & after & Hjobs & Hid & Hnot & _).
      rewrite (delete_cron_found id c before job after Hjobs Hid Hnot).
      cbn [snd]. split_and!; cbn [jobs scheduledTasks cronsFile started stopped]; [| | |done].
      * intros i task Ht. apply lookup_delete_Some in Ht as [Hne Ht].
        destruct (Hknown i task Ht) as [Hi Hf]. split.
        -- rewrite Hjobs, map_app in Hi. rewrite map_app.
           apply elem_of_app in Hi as [Hi|Hi]; apply elem_of_app; [by left|right].
           cbn in Hi. apply elem_of_cons in Hi as [Hi|Hi]; [congruence|done].
        -- unfold firing in Hf |- *. cbn [started stopped].
           apply elem_of_difference in Hf as [Hs Hn]. apply elem_of_difference.
           split; [done|]. destruct (scheduledTasks c !! id) as [task'|] eqn:Ht'; [|done].
           intros Hin. apply elem_of_union in Hin as [Hin|Hin]; [|done].
           apply elem_of_singleton in Hin as ->. apply Hne. by apply (Hinj id i task').
      * intros i1 i2 task H1 H2.
        apply lookup_delete_Some in H1 as [_ H1]. apply lookup_delete_Some in H2 as [_ H2].
        by apply (Hinj i1 i2 task).
      * destruct (scheduledTasks c !! id) as [task|] eqn:Ht; [|done].
        intros x Hx. apply elem_of_union in Hx as [Hx|Hx]; [|by apply Hsub].
        apply elem_of_singleton in Hx as ->.
        destruct (Hknown id task Ht) as [_ Hf]. by apply elem_of_difference in Hf as [Hs _].
    + unfold delete_cron. rewrite Hidx. cbn [snd]. done.
Qed.

(** ** Properties of the plugin loader *)

Lemma endsWith_spec suffix s :
  endsWith suffix s = true <-> exists stem, s = stem ++ suffix.
Proof.
  unfold endsWith. rewrite startsWith_spec. split.
  - intros [rest Hrest]. exists (reverse rest).
    apply (inj reverse). by rewrite reverse_app, reverse_involutive.
  - intros [stem ->]. exists (reverse stem). by rewrite reverse_app.
Qed.

Lemma foldl_loadPlugin {World : Type} (import : jsstring -> Settled (PluginExports World))
    files : forall acc,
  foldl (loadPlugin import) acc files = acc ++ foldl (loadPlugin import) [] files.
Proof.
  induction files as [|f files IH]; intros acc; cbn [foldl].
  - by rewrite app_nil_r.
  - rewrite (IH (loadPlugin import acc f)), (IH (loadPlugin import [] f)).
    unfold loadPlugin. destruct (import f) as [exports|e]; [|done].
    destruct (p_tool exports), (p_handler exports); try done.
    by rewrite <- app_assoc.
Qed.

Lemma loadPlugins_app {World : Type} (import : jsstring -> Settled (PluginExports World))
    names1 names2 :
  loadPlugins (Some (names1 ++ names2)) import
  = loadPlugins (Some names1) import ++ loadPlugins (Some names2) import.
Proof.
  unfold loadPlugins. rewrite List.filter_app, foldl_app.
  apply foldl_loadPlugin.
Qed.

(** X23. [loadPlugins] takes the files of the directory one by one, so that
    the tools of a listing are the tools of its first files followed by the
    tools of the rest, a file that fails to import costing only its own tool.
    Every tool loaded comes from a file whose name ends in ".ts" and does not
    start with "_", whose import succeeded and exports both a tool and a
    handler; an unreadable directory gives no tool. *)
Theorem plugins_load_one_by_one {World : Type}
    (import : jsstring -> Settled (PluginExports World)) names1 names2 :
  loadPlugins (Some (names1 ++ names2)) import
  = loadPlugins (Some names1) import ++ loadPlugins (Some names2) import /\
  (forall t, t ∈ loadPlugins (Some names1) import ->
     exists file stem exports tool handler,
       file ∈ names1 /\
       file = stem ++ js ".ts" /\
       (forall rest, file <> js "_" ++ rest) /\
       import file = Resolved exports /\
       p_tool exports = Some tool /\
       p_handler exports = Some handler /\
       t = pluginTool tool handler) /\
  loadPlugins None import = [].
Proof.
  split_and!; [apply loadPlugins_app | | done].
  induction names1 as [|f names IH]; intros t Ht.
  - by apply elem_of_nil in Ht.
  - change (f :: names) with ([f] ++ names) in Ht. rewrite loadPlugins_app in Ht.
    apply elem_of_app in Ht as [Ht|Ht].
    + unfold loadPlugins in Ht. cbn [List.filter] in Ht.
      destruct (endsWith (js ".ts") f) eqn:Hts; cbn [andb] in Ht;
        [|by apply elem_of_nil in Ht].
      destruct (startsWith (js "_") f) eqn:Hus; cbn [negb foldl] in Ht;
        [by apply elem_of_nil in Ht|].
      unfold loadPlugin in Ht. destruct (import f) as [exports|e] eqn:Himp;
        [|by apply elem_of_nil in Ht].
      destruct (p_tool exports) as [tool|] eqn:Htool; [|by apply elem_of_nil in Ht].
      destruct (p_handler exports) as [handler|] eqn:Hh; [|by apply elem_of_nil in Ht].
      cbn [app] in Ht. apply elem_of_cons in Ht as [->|Ht]; [|by apply elem_of_nil in Ht].
      apply endsWith_spec in Hts as [stem Hstem].
      exists f, stem, exports, tool, handler. split_and!; try done.
      * apply elem_of_cons. by left.
      * intros rest Hrest.
        assert (startsWith (js "_") f = true) by (apply startsWith_spec; by exists rest).
        congruence.
    + destruct (IH t Ht) as (file & stem & exports & tool & handler & Hin & Hrest).
      exists file, stem, exports, tool, handler. split; [|done].
      apply elem_of_cons. by right.
Qed.

(** ** The further properties at work on the example environment *)

Lemma separate_empty h : separate ∅ h.
Proof. split; intros *; by rewrite lookup_empty. Qed.

Lemma added_message_is_last_witness :
  let start := getSession 7 5 ∅ ∅ in
  let after := addMessage 42 exUser 10 20 start.1.2 start.2 in
  let got := getSession 42 30 after.1 after.2 in
  got.2 !!! s_messages got.1.1 = historyOf 42 start.1.2 start.2 ++ [exUser] /\
  (forall u, u <> 42 ->
     got.1.2 !! u = start.1.2 !! u /\
     historyOf u got.1.2 got.2 = historyOf u start.1.2 start.2).
Proof.
  intros start after got.
  apply (added_message_is_last 42 exUser 10 20 30 start.1.2 start.2).
  apply getSession_separate, separate_empty.
Defined.

Lemma cleared_session_is_not_resumed_witness :
  let opened := getSession 42 5 ∅ (heap exMachine) in
  let cleared := clearSession None 42 (opened.1.2, {| heap := opened.2; world := 0%nat |}) in
  let pushed :=
    <[s_messages opened.1.1 := (heap cleared.2 !!! s_messages opened.1.1) ++ [exUser]]>
      (heap cleared.2) in
  let reopened := getSession 42 9 cleared.1 pushed in
  s_messages reopened.1.1 <> s_messages opened.1.1 /\
  reopened.2 !!! s_messages reopened.1.1 = [] /\
  reopened.2 !!! s_messages opened.1.1 = historyOf 42 ∅ (heap exMachine) ++ [exUser].
Proof.
  apply (cleared_session_is_not_resumed 42 5 9 exUser ∅ exMachine).
  apply separate_empty.
Defined.

Lemma histories_stay_separate_witness :
  let start := getSession 7 5 ∅ ∅ in
  separate (addMessage 42 exUser 10 20 start.1.2 start.2).1
           (addMessage 42 exUser 10 20 start.1.2 start.2).2.
Proof.
  intros start.
  apply (histories_stay_separate 42 10 20 exUser start.1.2 start.2).
  apply getSession_separate, separate_empty.
Defined.

Lemma exchange_records_question_and_answer_witness :
  let i := {| in_userId := 42; in_content := UString (js "hi");
              in_systemPrompt := js "sys"; in_tools := exCustom;
              nowSession := 5; nowUser := 6; nowAssistant := 7;
              replyAnswers := fun _ => Resolved 8; errorAnswer := Resolved 9 |} in
  exists ss' m' r chunks session,
    handleMessage nat exDate_now exStream exValidate exCoding 5 exModel i ∅ exEmpty
    = Finished nat ss' m' (Normal r) /\
    ss' !! 42 = Some session /\
    heap m' !!! s_messages session
    = [User (UString (js "hi")) 6; assistantMsg exModel (js "B") 7] /\
    calls r = map Reply chunks /\
    concat chunks = js "B".
Proof.
  intros i.
  set (opened := getSession 42 5 ∅ (heap exEmpty)).
  set (asked := push nat (s_messages opened.1.1) (User (UString (js "hi")) 6)
                  {| heap := opened.2; world := world exEmpty |}).
  assert (Hrun : exists m2,
            runAgent nat exDate_now exStream exValidate exCoding 5 exModel
              (s_messages opened.1.1) (js "sys") exCustom asked = Returned (js "B") m2).
  { eexists. vm_compute. reflexivity. }
  destruct Hrun as [m2 Hrun].
  destruct (exchange_records_question_and_answer nat exDate_now exStream exValidate
              exCoding 5 exModel i ∅ exEmpty (js "B") m2 Hrun)
    as (m' & r & chunks & Hdone & Hsession & Hhist & Hcalls & Hconcat & _).
  - intros k. by exists 8.
  - exists opened.1.2, m', r, chunks, opened.1.1.
    split_and!; [exact Hdone|exact Hsession|exact Hhist|exact Hcalls|exact Hconcat].
Defined.

Lemma failed_run_keeps_the_question_witness :
  let i := {| in_userId := 42; in_content := UString (js "hi");
              in_systemPrompt := js "sys"; in_tools := exCustom;
              nowSession := 5; nowUser := 6; nowAssistant := 7;
              replyAnswers := fun _ => Resolved 8; errorAnswer := Resolved 9 |} in
  exists ss' m' c session,
    handleMessage nat exDate_now exFlaky exValidate exCoding 5 exModel i ∅ exEmpty
    = Finished nat ss' m' c /\
    heap m' !!! s_messages session = [User (UString (js "hi")) 6] /\
    calls (stateOf c) = [Reply (js "Error: overloaded")].
Proof.
  intros i.
  set (opened := getSession 42 5 ∅ (heap exEmpty)).
  set (asked := push nat (s_messages opened.1.1) (User (UString (js "hi")) 6)
                  {| heap := opened.2; world := world exEmpty |}).
  assert (Hrun : exists m2,
            runAgent nat exDate_now exFlaky exValidate exCoding 5 exModel
              (s_messages opened.1.1) (js "sys") exCustom asked = Threw exOverloaded m2).
  { eexists. vm_compute. reflexivity. }
  destruct Hrun as [m2 Hrun].
  destruct (failed_run_keeps_the_question nat exDate_now exFlaky exValidate
              exCoding 5 exModel i ∅ exEmpty exOverloaded m2 Hrun)
    as (c & Hdone & Hhist & Hcalls).
  exists opened.1.2, m2, c, opened.1.1.
  split_and!; [exact Hdone|exact Hhist|exact Hcalls].
Defined.

Lemma undelivered_answer_is_not_recorded_witness :
  let i := {| in_userId := 42; in_content := UString (js "hi");
              in_systemPrompt := js "sys"; in_tools := exCustom;
              nowSession := 5; nowUser := 6; nowAssistant := 7;
              replyAnswers := exRejectSecond; errorAnswer := Resolved 9 |} in
  exists ss' m' c session,
    handleMessage nat exDate_now exVerbose exValidate exCoding 5 exModel i ∅ exEmpty
    = Finished nat ss' m' c /\
    heap m' !!! s_messages session = [User (UString (js "hi")) 6].
Proof.
  intros i.
  set (opened := getSession 42 5 ∅ (heap exEmpty)).
  set (asked := push nat (s_messages opened.1.1) (User (UString (js "hi")) 6)
                  {| heap := opened.2; world := world exEmpty |}).
  assert (Hrun : exists m2,
            runAgent nat exDate_now exVerbose exValidate exCoding 5 exModel
              (s_messages opened.1.1) (js "sys") exCustom asked = Returned exLongText m2).
  { eexists. vm_compute. reflexivity. }
  destruct Hrun as [m2 Hrun].
  assert (Hdel : exists r,
            nonStreamingDelivery exLongText exRejectSecond initial
            = Abrupt exTooManyRequests r).
  { eexists. vm_compute. reflexivity. }
  destruct Hdel as [r Hdel].
  destruct (undelivered_answer_is_not_recorded nat exDate_now exVerbose exValidate
              exCoding 5 exModel i ∅ exEmpty exLongText m2 exTooManyRequests r Hrun Hdel)
    as (c & Hdone & Hhist & _).
  exists opened.1.2, m2, c, opened.1.1. split; [exact Hdone|exact Hhist].
Defined.

Lemma midsize_final_text_stays_truncated_witness :
  exists r',
    finish exRequest 7 (setFullText exMidText afterPlaceholder) = Normal r' /\
    shown r' = slice_last exMidText 4000 ++ nl ++ nl ++ js "[...truncated]".
Proof.
  destruct (midsize_final_text_stays_truncated exRequest 7
              (setFullText exMidText afterPlaceholder))
    as (r' & Hrun & _ & Hshown).
  - vm_compute. reflexivity.
  - vm_compute. discriminate.
  - vm_compute. discriminate.
  - reflexivity.
  - exists r'. split; [exact Hrun | exact Hshown].
Defined.

Lemma rejected_reply_stops_delivery_witness :
  exists r',
    sendChunks (length exLongText) exLongText exRejectSecond 0 initial
    = Abrupt exTooManyRequests r' /\
    calls r' = calls initial
               ++ map Reply (take 2 (chunkTexts (length exLongText) exLongText 0)).
Proof.
  apply (rejected_reply_stops_delivery exLongText exRejectSecond exTooManyRequests 1 initial).
  - unfold exLongText. rewrite length_replicate. lia.
  - intros j Hj. exists 8. by replace j with 0%nat by lia.
  - reflexivity.
Defined.

Lemma stream_failure_sends_one_notice_witness :
  exists r1,
    onStreamEvents 1 7 (arrivals exFailedRequest) afterPlaceholder = Normal r1 /\
    calls (stateOf (streamingExchange exFailedRequest (Resolved 9)))
    = calls r1 ++ [Reply (js "Error: overloaded")] /\
    shown (stateOf (streamingExchange exFailedRequest (Resolved 9))) = shown r1.
Proof.
  exact (stream_failure_sends_one_notice exFailedRequest 7 exOverloaded (Resolved 9)
           eq_refl eq_refl).
Defined.

Lemma provider_failure_ends_the_call_witness :
  exists m : Machine nat,
    runAgent nat exDate_now exFlaky exValidate exCoding 5
      exModel 1%positive (js "sys") exCustom exMachine
    = Threw exOverloaded {| heap := heap m; world := 4%nat |}.
Proof.
  assert (Hturn : exists m,
            turnOfRun nat exDate_now exFlaky exValidate exCoding 1
              exModel 1%positive (js "sys") exCustom exMachine = Some m /\
            generationOf nat exFlaky exCoding
              exModel 1%positive (js "sys") exCustom exMachine m
            = (Failed exOverloaded, 4%nat)).
  { eexists. split; vm_compute; reflexivity. }
  destruct Hturn as (m & Hat & Hgen). exists m.
  apply (provider_failure_ends_the_call nat exDate_now exFlaky exValidate exCoding
           1 5 exModel 1%positive (js "sys") exCustom exMachine m exOverloaded 4%nat
           Hat Hgen).
  lia.
Defined.

Lemma save_memory_appends_witness :
  loadMemories 7 (save_memory 7 (js "T") [104; 55296]%N exNoFiles).2
  = nl ++ js "## T" ++ nl ++ [104; 65533]%N ++ nl.
Proof.
  assert (H1 : isString (js "T")) by (repeat (constructor; [reflexivity|]); constructor).
  assert (H2 : isString [104; 55296]%N)
    by (repeat (constructor; [reflexivity|]); constructor).
  exact (proj1 (save_memory_appends 7 (js "T") [104; 55296]%N exNoFiles H1 H2)).
Defined.

Lemma exNoCrons_inSync : cronsInSync exNoCrons.
Proof. split_and!; done. Qed.

Lemma created_cron_can_be_deleted_witness :
  let created :=
    (create_cron (fun _ => true) 1 (js "0 9 * * *") (js "weather") (js "k3x9a1")
       exNoCrons).2 in
  let c' := (delete_cron (js "k3x9a1") created).2 in
  jobs c' = [] /\ cronsFile c' = [] /\ scheduledTasks c' = ∅ /\ firing c' = firing exNoCrons.
Proof.
  apply (created_cron_can_be_deleted (fun _ => true) 1 (js "0 9 * * *") (js "weather")
           (js "k3x9a1") exNoCrons eq_refl).
  - apply not_elem_of_nil.
  - apply exNoCrons_inSync.
Defined.

Lemma cron_tools_keep_sync_witness :
  cronsInSync (create_cron (fun _ => true) 1 (js "0 9 * * *") (js "weather") (js "k3x9a1")
                 exNoCrons).2.
Proof.
  apply (cron_tools_keep_sync (fun _ => true) 1 (js "0 9 * * *") (js "weather")
           (js "k3x9a1") exNoCrons).
  apply exNoCrons_inSync.
Defined.
